(** * Lark Base builder: schema generation and provisioning pipeline

    A shallow embedding of [functions/[[path]].js] (the revision whose
    [handleApiPost] validates the prompt, retries the AI call five times and
    records a per-table outcome), and the properties of its field-type
    mapper, sample-data synthesizer, remote API client, schema generator and
    provisioning orchestrator.

    Conventions of the embedding.
    - A JavaScript string is the list of its UTF-16 code units, so that
      [.length] is [List.length] and non-ASCII property names such as the
      options key are compared unit by unit.
    - [await]ed network calls are steps of a state-and-exception monad over
      a [world] that numbers the [fetch] calls of the run and logs every
      [fetch] and every [sleep]; what the network answers is an oracle
      indexed by that number.  A thrown exception keeps the world reached
      so far (requests already sent stay sent).
    - JavaScript [Error] objects are kept as a structured [error] value, one
      constructor per [throw] site, instead of their message text.
    - In the source file the helpers after [serveHtml] carry the escapes of a
      template literal (a backslash before each backquote and dollar sign,
      doubled backslashes in the regular expression); they are read with
      those escapes undone. *)

From Stdlib Require Import String Ascii DecimalString.
From Stdlib Require Import List ZArith NArith Arith Lia Bool.
Import ListNotations.

Set Implicit Arguments.

(* ===================================================================== *)
(** * JavaScript strings *)
(* ===================================================================== *)

Module JsString.

Definition jsstring := list N.

(** An ASCII literal as a JavaScript string. *)
Definition js (s : string) : jsstring :=
  map N_of_ascii (list_ascii_of_string s).

Fixpoint eqb (a b : jsstring) : bool :=
  match a, b with
  | [], [] => true
  | x :: a', y :: b' => N.eqb x y && eqb a' b'
  | _, _ => false
  end.

(** [`${n}`] for a non-negative integer. *)
Definition decimal (n : nat) : jsstring :=
  js (NilEmpty.string_of_uint (Nat.to_uint n)).

(** WhiteSpace and LineTerminator code units: the set removed by
    [String.prototype.trim] and matched by [\s] in a regular expression. *)
Definition is_whitespace (c : N) : bool :=
  ((9 <=? c) && (c <=? 13) || (c =? 32) || (c =? 160) || (c =? 5760)
   || (8192 <=? c) && (c <=? 8202) || (c =? 8232) || (c =? 8233)
   || (c =? 8239) || (c =? 8287) || (c =? 12288) || (c =? 65279))%N.

Fixpoint skip_ws (s : jsstring) : jsstring :=
  match s with
  | c :: s' => if is_whitespace c then skip_ws s' else s
  | [] => []
  end.

(** [s.trim()] *)
Definition trim (s : jsstring) : jsstring :=
  rev (skip_ws (rev (skip_ws s))).

(** [s.split(sep)] for a one-unit separator: never the empty list. *)
Fixpoint split (sep : N) (s : jsstring) : list jsstring :=
  match s with
  | [] => [[]]
  | c :: s' =>
      if N.eqb c sep then [] :: split sep s'
      else match split sep s' with
           | h :: t => (c :: h) :: t
           | [] => [[c]]
           end
  end.

(** [s.toLowerCase()].  The code units whose lower-case image is ASCII
    are A-Z and the Kelvin sign U+212A (whose image is [k]); they are
    mapped.  Every other unit is kept: its image is not ASCII, so the
    comparison of the result with the ASCII keys of [typeMap] and with the
    [case] labels of [generateDummyData] is not affected. *)
Definition lower_unit (c : N) : N :=
  if ((65 <=? c) && (c <=? 90))%N then (c + 32)%N
  else if (c =? 8490)%N then 107%N
  else c.

Definition toLowerCase (s : jsstring) : jsstring := map lower_unit s.

Fixpoint starts_with (p s : jsstring) : bool :=
  match p, s with
  | [], _ => true
  | x :: p', y :: s' => N.eqb x y && starts_with p' s'
  | _ :: _, [] => false
  end.

(** [s.indexOf(c)], [None] for -1. *)
Fixpoint indexOf (c : N) (s : jsstring) : option nat :=
  match s with
  | [] => None
  | x :: s' => if N.eqb x c then Some 0 else option_map S (indexOf c s')
  end.

(** [s.lastIndexOf(c)], [None] for -1. *)
Fixpoint lastIndexOf (c : N) (s : jsstring) : option nat :=
  match s with
  | [] => None
  | x :: s' =>
      match lastIndexOf c s' with
      | Some i => Some (S i)
      | None => if N.eqb x c then Some 0 else None
      end
  end.

(** [s.substring(a, b)] for [a <= b]. *)
Definition substring (a b : nat) (s : jsstring) : jsstring :=
  firstn (b - a) (skipn a s).

(** [a.includes(x)] on an array of strings. *)
Definition includes (x : jsstring) (a : list jsstring) : bool :=
  existsb (eqb x) a.

(** The non-ASCII literals of the source. *)
Definition OPTION_KEY : jsstring :=            (* 'オプション' *)
  [12458; 12503; 12471; 12519; 12531]%N.
Definition SPEC_OPTION_KEY : jsstring :=       (* '選択肢文字列' *)
  [36984; 25246; 32930; 25991; 23383; 21015]%N.
Definition SAMPLE_PREFIX : jsstring :=         (* 'サンプル' *)
  [12469; 12531; 12503; 12523]%N.

End JsString.
Import JsString.

Declare Scope js_scope.
Delimit Scope js_scope with js.
Notation "'#' s" := (js s%string) (at level 1, format "'#' s") : js_scope.
Local Open Scope js_scope.

(** A JavaScript object with string-valued own properties, as the list of
    its (name, value) pairs; a name occurs at most once. *)
Definition JsObject := list (jsstring * jsstring).

Fixpoint own_property {V} (o : list (jsstring * V)) (key : jsstring) : option V :=
  match o with
  | [] => None
  | (k, v) :: o' => if JsString.eqb k key then Some v else own_property o' key
  end.

(* ===================================================================== *)
(** * Field Type Mapper: [getFieldProperty] *)
(* ===================================================================== *)

Inductive Property :=
| PropFormatter (formatter : jsstring)
| PropOptions (options : list jsstring)        (* [{ name }, ...] *)
| PropDateFormatter (date_formatter : jsstring)
| PropMultiple (multiple : bool)
| PropCurrency (currency_code formatter : jsstring)
| PropSymbol (symbol : jsstring).

Record FieldPayload := mkPayload {
  type : Z;
  property : option Property      (* [None]: the entry has no [property] *)
}.

(** What [typeMap[key]] evaluates to.  [typeMap] is an object literal, so a
    key that is not an own property is looked up on [Object.prototype]. *)
Inductive Lookup :=
| Undefined
| Own (p : FieldPayload)
| Inherited (name : jsstring).   (* a member of Object.prototype: truthy,
                                    its [.type] and [.property] are undefined *)

Definition object_prototype_names : list jsstring :=
  [ #"constructor"; #"hasOwnProperty"; #"isPrototypeOf";
    #"propertyIsEnumerable"; #"toLocaleString"; #"toString"; #"valueOf";
    #"__proto__"; #"__defineGetter__"; #"__defineSetter__";
    #"__lookupGetter__"; #"__lookupSetter__" ].

(** [o[key]] on an object literal. *)
Definition js_get (o : list (jsstring * FieldPayload)) (key : jsstring) : Lookup :=
  match own_property o key with
  | Some p => Own p
  | None => if includes key object_prototype_names then Inherited key
            else Undefined
  end.

(** [!v] *)
Definition is_falsy (v : Lookup) : bool :=
  match v with Undefined => true | _ => false end.

(** The inner [getOptions()], called with its default key. *)
Definition getOptions (options : JsObject) : list jsstring :=
  match own_property options OPTION_KEY with
  | Some opts =>
      match opts with
      | [] => []
      | _ => filter (fun o => negb (JsString.eqb o []))
               (map trim (split 44 opts))
      end
  | None => []
  end.

Definition typeMap (options : JsObject) : list (jsstring * FieldPayload) :=
  [ (#"text",          mkPayload 1 None);
    (#"number",        mkPayload 2 (Some (PropFormatter #"0")));
    (#"single_select", mkPayload 3 (Some (PropOptions (getOptions options))));
    (#"multi_select",  mkPayload 4 (Some (PropOptions (getOptions options))));
    (#"date",          mkPayload 5 (Some (PropDateFormatter #"yyyy/MM/dd")));
    (#"date_time",     mkPayload 5 (Some (PropDateFormatter #"yyyy/MM/dd HH:mm")));
    (#"checkbox",      mkPayload 7 None);
    (#"member",        mkPayload 11 (Some (PropMultiple false)));
    (#"phone",         mkPayload 13 None);
    (#"url",           mkPayload 15 None);
    (#"email",         mkPayload 23 None);
    (#"currency",      mkPayload 25 (Some (PropCurrency #"JPY" #"#,##0")));
    (#"rating",        mkPayload 26 (Some (PropSymbol #"star"))) ].

(** ['オプション1'], ['オプション2'], ['オプション3'] *)
Definition fallback_options : list jsstring :=
  [ OPTION_KEY ++ #"1"; OPTION_KEY ++ #"2"; OPTION_KEY ++ #"3" ].

Definition getFieldProperty (type_name : jsstring) (options : JsObject) : Lookup :=
  let result := js_get (typeMap options) (toLowerCase type_name) in
  if JsString.eqb type_name #"single_select"
     || JsString.eqb type_name #"multi_select"
  then
    match result with
    | Own p =>
        match property p with
        | Some (PropOptions (_ :: _)) => result
        | _ => Own (mkPayload (type p) (Some (PropOptions fallback_options)))
        end
    | _ => result
    end
  else result.

(* ===================================================================== *)
(** * Sample Data Synthesizer: [generateDummyData] *)
(* ===================================================================== *)

Inductive JsValue :=
| VString (s : jsstring)
| VNumber (n : Z)
| VBoolean (b : bool)
| VArray (a : list jsstring).

(** The [multi_select] loop: [selected] after the iterations [j, j+1, ...]. *)
Fixpoint select_loop (selectOptions : list jsstring) (index : nat)
    (js_ : list nat) (selected : list jsstring) : list jsstring :=
  match js_ with
  | [] => selected
  | j :: rest =>
      let optIndex := (index + j) mod (length selectOptions) in
      let opt := nth optIndex selectOptions [] in
      select_loop selectOptions index rest
        (if includes opt selected then selected else selected ++ [opt])
  end.

(** [generateDummyData(type, options, index)]; [None] is [null].  The [date]
    and [date_time] cases read the clock and [Math.random()]: the timestamp
    they compute is the argument [timestamp]. *)
Definition generateDummyData (type_name : jsstring) (options : JsObject)
    (index : nat) (timestamp : Z) : option JsValue :=
  let i := index + 1 in
  let selectOptions :=
    filter (fun s => negb (JsString.eqb s []))
      (map trim (split 44 (match own_property options OPTION_KEY with
                           | Some s => s      (* options['オプション'] || '' *)
                           | None => []
                           end))) in
  let t := toLowerCase type_name in
  if JsString.eqb t #"text" then Some (VString (SAMPLE_PREFIX ++ decimal i))
  else if JsString.eqb t #"email" then
    Some (VString (#"sample" ++ decimal i ++ #"@example.com"))
  else if JsString.eqb t #"phone" then
    Some (VString (#"090-1234-567" ++ decimal (index mod 10)))
  else if JsString.eqb t #"number" then Some (VNumber (100 + Z.of_nat i * 50))
  else if JsString.eqb t #"currency" then Some (VNumber (10000 * Z.of_nat i))
  else if JsString.eqb t #"single_select" then
    match selectOptions with
    | _ :: _ => Some (VString (nth (index mod length selectOptions) selectOptions []))
    | [] => Some (VString (OPTION_KEY ++ decimal (index mod 3 + 1)))
    end
  else if JsString.eqb t #"multi_select" then
    match selectOptions with
    | _ :: _ =>
        let numSelect := Nat.min 2 (length selectOptions) in
        Some (VArray (select_loop selectOptions index (seq 0 numSelect) []))
    | [] => Some (VArray [OPTION_KEY ++ decimal (index mod 3 + 1)])
    end
  else if JsString.eqb t #"date" || JsString.eqb t #"date_time" then
    Some (VNumber timestamp)
  else if JsString.eqb t #"checkbox" then Some (VBoolean (Nat.eqb (i mod 2) 0))
  else if JsString.eqb t #"url" then
    Some (VString (#"https://example.com/item/" ++ decimal i))
  else if JsString.eqb t #"rating" then Some (VNumber (Z.of_nat (index mod 5 + 1)))
  else None.


(* ===================================================================== *)
(** * Data model *)
(* ===================================================================== *)

(** The generated schema, typed as the [response_schema] sent to the model
    declares it: [tables] is an array of objects, [fields] an array of
    objects with string [name] and [type], [sampleDataCount] a number
    (an integer here; an absent count behaves as 0).  Values of other
    shapes, such as a table without a [fields] array, are outside this
    type; the table loop on the other shapes that the validation lets
    through is [entries_loop] below. *)
Module Field.
Record t := mk {
  name : jsstring;
  type : jsstring;
  options : option JsObject       (* [None]: no [options] property *)
}.
End Field.

Module Table.
Record t := mk {
  name : jsstring;
  fields : list Field.t;
  sampleDataCount : Z
}.
End Table.

Module Schema.
Record t := mk {
  baseName : jsstring;
  tables : list Table.t
}.
End Schema.

(** What [JSON.parse] returns, seen through what the code reads of it. *)
Inductive Parsed :=
| ParsedFalsy                      (* null, false, 0 or the empty string *)
| ParsedValue (baseName : option jsstring)      (* [None]: absent *)
              (tables : option (list Table.t)). (* [None]: absent or no array *)

Inductive ApiPath :=
| PathApps                                            (* /base/v1/apps *)
| PathTables (app : jsstring)                         (* .../apps/${app}/tables *)
| PathFields (app : jsstring) (table : option jsstring)
| PathBatchCreate (app : jsstring) (table : option jsstring).

Inductive Error :=
| PromptMissing                    (* handleApiPost, first throw *)
| PromptTooLong                    (* handleApiPost, over 2000 units *)
| SchemaRejected                   (* handleApiPost, after the AI call *)
| TooManyTables                    (* handleApiPost, over 10 tables *)
| ApiKeyMissing                    (* "GEMINI_API_KEY is not configured." *)
| GeminiHttpError (status : Z) (errorText : jsstring)
| GeminiBadResponse (attempt : nat)
| JsonParseFailed                  (* thrown from [catch (e3)] *)
| NoJsonExtracted                  (* [!parsedData] *)
| BadSchemaShape                   (* baseName or tables missing *)
| NoTablesGenerated                (* [tables.length === 0] *)
| AiFailed (lastError : Error)       (* the final throw, wrapping the last error *)
| HttpError (status : Z) (statusText : jsstring)
| LarkApiError (msg : jsstring) (code : Z) (path : ApiPath)
| CredentialsMissing
| TokenHttpError (status : Z)
| TokenApiError (msg : jsstring)
| TypeError                        (* a property read on undefined *)
| Rejected (reason : jsstring).    (* fetch() or response.json() rejected *)

(** A record of [addSampleRecords]: [{ fields: recordFields }]. *)
Definition RecordFields := list (jsstring * JsValue).

Inductive RequestBody :=
| BodyName (name : jsstring)
| BodyField (field_name : jsstring) (type : option Z) (property : option Property)
| BodyRecords (records : list RecordFields).

Inductive Request :=
| GeminiRequest (apiKey userPrompt : jsstring)
| TokenRequest (app_id app_secret : jsstring)
| ApiRequest (token : jsstring) (path : ApiPath) (body : RequestBody).

Record AppInfo := mkApp { app_token : jsstring; url : jsstring }.

Record LarkData := mkData {
  app : option AppInfo;
  table_id : option jsstring;
  records : option (list jsstring)
}.

(** A JSON response body, through the properties the code reads. *)
Record ResponseBody := mkBody {
  candidate_text : option jsstring;  (* candidates?.[0]?.content?.parts?.[0]?.text *)
  code : Z;
  msg : jsstring;
  tenant_access_token : jsstring;
  data : option LarkData
}.

Module Response.
Record t := mk {
  status : Z;
  statusText : jsstring;
  text : jsstring;                  (* response.text() *)
  json : option ResponseBody        (* response.json(); [None]: it rejects *)
}.
Definition ok (r : t) : bool := ((200 <=? status r) && (status r <=? 299))%Z.
End Response.

Inductive FetchResult :=
| NetworkFailure (reason : jsstring)
| Responded (r : Response.t).

Record Env := mkEnv {
  GEMINI_API_KEY : option jsstring;
  LARK_APP_ID : option jsstring;
  LARK_APP_SECRET : option jsstring
}.

Record ProvisioningResult := mkResult {
  tableName : jsstring;
  status : jsstring;
  tableId : option jsstring;
  fieldsCreated : option nat;
  recordsAdded : option nat;
  error : option Error
}.

Record Summary := mkSummary {
  totalTables : nat;
  successfulTables : nat;
  failedTables : nat
}.

Record SuccessBody := mkSuccess {
  baseName : jsstring;
  baseUrl : jsstring;
  summary : Summary;
  details : list ProvisioningResult
}.

(** The HTTP reply of [handleApiPost]: status 200 with the summary, or
    status 500 with the caught error (whose message the handler rewords for
    the user). *)
Inductive Reply :=
| Reply200 (body : SuccessBody)
| Reply500 (error : Error).

(* ===================================================================== *)
(** * The world: network calls and pauses *)
(* ===================================================================== *)

Inductive event :=
| Fetch (r : Request)
| Sleep (ms : Z).

(** The chronological log of one run. *)
Definition world := list event.

Definition is_fetch (e : event) : bool :=
  match e with Fetch _ => true | Sleep _ => false end.

Definition fetch_count (w : world) : nat := length (filter is_fetch w).

Inductive outcome (A : Type) :=
| Returned (a : A)
| Thrown (e : Error).
Arguments Returned {A} a.
Arguments Thrown {A} e.

Definition M (A : Type) := world -> outcome A * world.

Definition ret {A} (a : A) : M A := fun w => (Returned a, w).

Definition throw {A} (e : Error) : M A := fun w => (Thrown e, w).

Definition bind {A B} (m : M A) (k : A -> M B) : M B :=
  fun w => match m w with
           | (Returned a, w') => k a w'
           | (Thrown e, w') => (Thrown e, w')
           end.

(** [try { m } catch (e) { handler e }] *)
Definition try_catch {A} (m : M A) (handler : Error -> M A) : M A :=
  fun w => match m w with
           | (Returned a, w') => (Returned a, w')
           | (Thrown e, w') => handler e w'
           end.

Definition lift {A} (o : outcome A) : M A := fun w => (o, w).

Notation "x <- m ;; k" := (bind m (fun x => k))
  (at level 61, m at next level, right associativity).
Notation "m ;; k" := (bind m (fun _ => k))
  (at level 61, right associativity).

(** [await sleep(ms)] *)
Definition sleep (ms : Z) : M unit := fun w => (Returned tt, w ++ [Sleep ms]).

(** The control signal of one iteration of a retry loop. *)
Inductive step (A : Type) :=
| Return (a : A)        (* [return a] *)
| Continue.             (* fall through to the next iteration *)
Arguments Return {A} a.
Arguments Continue {A}.

(* ===================================================================== *)
(** * The program *)
(* ===================================================================== *)

Section Program.

(** What the [n]-th [fetch] of the run is answered. *)
Variable net : nat -> FetchResult.

(** [JSON.parse]: [None] when it throws. *)
Variable JSON_parse : jsstring -> option Parsed.

(** The timestamp computed by the [date] case of [generateDummyData] for
    row [i] and the field at position [j]. *)
Variable timestamp : nat -> nat -> Z.

(** [await fetch(...)] *)
Definition fetch (r : Request) : M Response.t :=
  fun w => match net (fetch_count w) with
           | NetworkFailure reason => (Thrown (Rejected reason), w ++ [Fetch r])
           | Responded resp => (Returned resp, w ++ [Fetch r])
           end.

(** [await response.json()] *)
Definition response_json (r : Response.t) : M ResponseBody :=
  match Response.json r with
  | Some b => ret b
  | None => throw (Rejected #"invalid JSON body")
  end.

(** ** Remote API client: [apiCall] *)

(** The body of the [for] loop of [apiCall] at a given [attempt]. *)
Definition apiCall_attempt (token : jsstring) (path : ApiPath)
    (body : RequestBody) (retries attempt : nat) : M (step ResponseBody) :=
  try_catch
    (response <- fetch (ApiRequest token path body) ;;
     if negb (Response.ok response) then
       if (Response.status response =? 429)%Z then
         sleep (1000 * 2 ^ Z.of_nat attempt) ;;
         ret Continue
       else
         throw (HttpError (Response.status response) (Response.statusText response))
     else
       data <- response_json response ;;
       if negb (code data =? 0)%Z then
         if (code data =? 99991400)%Z && (attempt <? retries) then
           sleep (1000 * Z.of_nat attempt) ;;
           ret Continue
         else
           throw (LarkApiError (msg data) (code data) path)
       else
         ret (Return data))
    (fun error =>
       if attempt =? retries then throw error
       else sleep (1000 * Z.of_nat attempt) ;; ret Continue).

(** The iterations [attempt, attempt + 1, ...] of the loop, [remaining] of
    them; when the loop ends without a [return] the function returns
    [undefined], which is [None]. *)
Fixpoint apiCall_loop (token : jsstring) (path : ApiPath) (body : RequestBody)
    (retries remaining attempt : nat) : M (option ResponseBody) :=
  match remaining with
  | 0 => ret None
  | S k =>
      s <- apiCall_attempt token path body retries attempt ;;
      match s with
      | Return data => ret (Some data)
      | Continue => apiCall_loop token path body retries k (S attempt)
      end
  end.

(** [apiCall(token, path, { method: 'POST', body, retries })] *)
Definition apiCall (token : jsstring) (path : ApiPath) (body : RequestBody)
    (retries : nat) : M (option ResponseBody) :=
  apiCall_loop token path body retries retries 1.

(** The default of the [retries] option; no call site overrides it. *)
Definition default_retries : nat := 3.

Definition getTenantAccessToken (env : Env) : M jsstring :=
  match LARK_APP_ID env, LARK_APP_SECRET env with
  | Some ((_ :: _) as app_id), Some ((_ :: _) as app_secret) =>
      response <- fetch (TokenRequest app_id app_secret) ;;
      if negb (Response.ok response) then
        throw (TokenHttpError (Response.status response))
      else
        data <- response_json response ;;
        if negb (code data =? 0)%Z then throw (TokenApiError (msg data))
        else ret (tenant_access_token data)
  | _, _ => throw CredentialsMissing
  end.

Definition createBaseApp (token baseName : jsstring) : M (option ResponseBody) :=
  apiCall token PathApps (BodyName baseName) default_retries.

(** ** Sample records: [addSampleRecords] *)

(** [recordFields[name] = value] on an object built by the code: the value
    of an existing property is replaced, a new property is appended. *)
Fixpoint assign (o : RecordFields) (name : jsstring) (v : JsValue) : RecordFields :=
  match o with
  | [] => [(name, v)]
  | (k, x) :: o' =>
      if JsString.eqb k name then (k, v) :: o' else (k, x) :: assign o' name v
  end.

(** Assigning to [__proto__] sets or keeps the prototype and creates no own
    property. *)
Definition set_property (o : RecordFields) (name : jsstring) (v : JsValue)
  : RecordFields :=
  if JsString.eqb name #"__proto__" then o else assign o name v.

(** [field.options || {}] *)
Definition options_or_empty (field : Field.t) : JsObject :=
  match Field.options field with
  | Some o => o
  | None => []
  end.

(** The inner loop over the fields, from position [j] on, for row [i]. *)
Fixpoint record_loop (fields : list Field.t) (i j : nat)
    (recordFields : RecordFields) : RecordFields :=
  match fields with
  | [] => recordFields
  | field :: rest =>
      let dummyData :=
        generateDummyData (Field.type field) (options_or_empty field) i
          (timestamp i j) in
      record_loop rest i (S j)
        (match dummyData with
         | Some v => set_property recordFields (Field.name field) v
         | None => recordFields
         end)
  end.

(** The outer loop over the row indices. *)
Fixpoint rows_loop (fields : list Field.t) (rows : list nat)
    (records : list RecordFields) : list RecordFields :=
  match rows with
  | [] => records
  | i :: rest =>
      let recordFields := record_loop fields i 0 [] in
      rows_loop fields rest
        (match recordFields with
         | [] => records                      (* Object.keys(...).length = 0 *)
         | _ :: _ => records ++ [recordFields]
         end)
  end.

Definition batchSize : nat := 10.

(** The values [0, batchSize, 2 * batchSize, ...] below [n]. *)
Definition batch_offsets (n : nat) : list nat :=
  map (fun k => k * batchSize) (seq 0 ((n + (batchSize - 1)) / batchSize)).

(** [result.data?.records || []] *)
Definition records_of (r : ResponseBody) : list jsstring :=
  match data r with
  | Some d => match records d with Some l => l | None => [] end
  | None => []
  end.

Fixpoint batch_loop (token appToken : jsstring) (tableId : option jsstring)
    (all : list RecordFields) (offsets : list nat) (allResults : list jsstring)
  : M (list jsstring) :=
  match offsets with
  | [] => ret allResults
  | i :: rest =>
      let batch := firstn batchSize (skipn i all) in
      allResults' <-
        try_catch
          (result <- apiCall token (PathBatchCreate appToken tableId)
                       (BodyRecords batch) default_retries ;;
           match result with
           | None => throw TypeError                (* [result.data] on undefined *)
           | Some r =>
               (if i + batchSize <? length all then sleep 500 else ret tt) ;;
               ret (allResults ++ records_of r)
           end)
          (fun _ => ret allResults) ;;
      batch_loop token appToken tableId all rest allResults'
  end.

(** [addSampleRecords]; the result is the [data.records] array of the
    object it returns. *)
Definition addSampleRecords (token appToken : jsstring)
    (tableId : option jsstring) (fields : list Field.t) (count : Z)
  : M (list jsstring) :=
  if (count <=? 0)%Z || (length fields =? 0) then ret []
  else
    let records := rows_loop fields (seq 0 (Z.to_nat count)) [] in
    match records with
    | [] => ret []
    | _ :: _ =>
        batch_loop token appToken tableId records
          (batch_offsets (length records)) []
    end.

(** ** Schema generator: [generateSchemaFromAI] *)

Definition FENCE_OPEN : jsstring := #"```json".
Definition FENCE_CLOSE : jsstring := #"```".

(** Whether [\s*```] matches at the start of [s]. *)
Definition closes_here (s : jsstring) : bool :=
  starts_with FENCE_CLOSE (skip_ws s).

(** The lazy group [([\s\S]*?)] followed by [\s*```]: the shortest prefix
    of [s] after which the closing fence matches. *)
Fixpoint lazy_group (s : jsstring) : option jsstring :=
  match s with
  | [] => None
  | c :: s' =>
      if closes_here s then Some []
      else option_map (cons c) (lazy_group s')
  end.

(** The pattern anchored at the start of [s]; the greedy [\s*] after the
    opening fence takes every white-space unit. *)
Definition match_at (s : jsstring) : option jsstring :=
  if starts_with FENCE_OPEN s
  then lazy_group (skip_ws (skipn (length FENCE_OPEN) s))
  else None.

(** [rawText.match(/```json\s*([\s\S]*?)\s*```/)]: group 1 of the leftmost
    match, [None] when there is no match. *)
Fixpoint fence_match (s : jsstring) : option jsstring :=
  match match_at s with
  | Some g => Some g
  | None => match s with
            | [] => None
            | _ :: s' => fence_match s'
            end
  end.

(** The text from the first opening brace to the last closing brace, when
    both exist in that order. *)
Definition brace_span (rawText : jsstring) : option jsstring :=
  match indexOf 123 rawText, lastIndexOf 125 rawText with
  | Some firstBrace, Some lastBrace =>
      if firstBrace <? lastBrace
      then Some (substring firstBrace (lastBrace + 1) rawText)
      else None
  | _, _ => None
  end.

(** The nested [try] blocks that compute [parsedData]; [Returned None] is
    [parsedData] left [null]. *)
Definition parseRawText (rawText : jsstring) : outcome (option Parsed) :=
  match JSON_parse rawText with
  | Some v => Returned (Some v)
  | None =>                                             (* catch (e1) *)
      match fence_match rawText with
      | Some ((_ :: _) as group1) =>
          match JSON_parse group1 with
          | Some v => Returned (Some v)
          | None =>                                     (* catch (e2) *)
              match brace_span rawText with
              | Some jsonText =>
                  match JSON_parse jsonText with
                  | Some v => Returned (Some v)
                  | None => Thrown JsonParseFailed      (* catch (e3) *)
                  end
              | None => Returned None
              end
          end
      | _ => Returned None
      end
  end.

(** The checks that follow, up to [return parsedData]. *)
Definition validate (parsedData : option Parsed) : outcome Schema.t :=
  match parsedData with
  | None | Some ParsedFalsy => Thrown NoJsonExtracted
  | Some (ParsedValue (Some ((_ :: _) as baseName)) (Some tables)) =>
      match tables with
      | [] => Thrown NoTablesGenerated
      | _ :: _ => Returned (Schema.mk baseName tables)
      end
  | Some (ParsedValue _ _) => Thrown BadSchemaShape
  end.

(** What the [try] block of one attempt makes of the response, after
    [fetch] has answered. *)
Definition read_response (attempt : nat) (response : Response.t)
  : outcome Schema.t :=
  if negb (Response.ok response) then
    Thrown (GeminiHttpError (Response.status response) (Response.text response))
  else
    match Response.json response with
    | None => Thrown (Rejected #"invalid JSON body")
    | Some result =>
        match candidate_text result with
        | Some ((_ :: _) as rawText) =>
            match parseRawText rawText with
            | Returned parsedData => validate parsedData
            | Thrown e => Thrown e
            end
        | _ => Thrown (GeminiBadResponse attempt)
        end
    end.

(** The body of the [try] block of one attempt. *)
Definition generate_attempt (apiKey userPrompt : jsstring) (attempt : nat)
  : M Schema.t :=
  response <- fetch (GeminiRequest apiKey userPrompt) ;;
  lift (read_response attempt response).

Definition MAX_ATTEMPTS : nat := 5.

(** The iterations [attempt, attempt + 1, ...] of the retry loop, then the
    final [throw]. *)
Fixpoint generate_loop (apiKey userPrompt : jsstring) (lastError : option Error)
    (remaining attempt : nat) : M Schema.t :=
  match remaining with
  | 0 =>
      match lastError with
      | Some e => throw (AiFailed e)
      | None => throw TypeError                  (* [lastError.message] on null *)
      end
  | S k =>
      s <- try_catch
             (parsedData <- generate_attempt apiKey userPrompt attempt ;;
              ret (inl parsedData))
             (fun e =>
                (if attempt <? MAX_ATTEMPTS
                 then sleep (1000 * 2 ^ (Z.of_nat attempt - 1))
                 else ret tt) ;;
                ret (inr e)) ;;
      match s with
      | inl parsedData => ret parsedData
      | inr e => generate_loop apiKey userPrompt (Some e) k (S attempt)
      end
  end.

Definition generateSchemaFromAI (userPrompt : jsstring) (apiKey : option jsstring)
  : M Schema.t :=
  match apiKey with
  | Some ((_ :: _) as key) => generate_loop key userPrompt None MAX_ATTEMPTS 1
  | _ => throw ApiKeyMissing
  end.

(** ** Provisioning orchestrator: [handleApiPost] *)

Definition STATUS_SUCCESS : jsstring := #"Success".
Definition STATUS_FAILED : jsstring := #"Failed".

(** [createTableRes.data.table_id], [createBaseRes.data.app]: reading
    [.data] of [undefined], or a property of an absent [data], throws. *)
Definition data_of (res : option ResponseBody) : M LarkData :=
  match res with
  | Some r => match data r with
              | Some d => ret d
              | None => throw TypeError
              end
  | None => throw TypeError
  end.

(** The loop over [table.fields]; the result is [fieldsCreated]. *)
Fixpoint fields_loop (token appToken : jsstring) (tableId : option jsstring)
    (fields : list Field.t) (fieldsCreated : nat) : M nat :=
  match fields with
  | [] => ret fieldsCreated
  | field :: rest =>
      fieldsCreated' <-
        try_catch
          (let fieldPayload :=
             getFieldProperty (Field.type field) (options_or_empty field) in
           match fieldPayload with
           | Undefined => ret fieldsCreated               (* warn; continue *)
           | Own p =>
               apiCall token (PathFields appToken tableId)
                 (BodyField (Field.name field) (Some (type p)) (property p))
                 default_retries ;;
               sleep 300 ;;
               ret (S fieldsCreated)
           | Inherited _ =>
               apiCall token (PathFields appToken tableId)
                 (BodyField (Field.name field) None None)
                 default_retries ;;
               sleep 300 ;;
               ret (S fieldsCreated)
           end)
          (fun _ => ret fieldsCreated) ;;
      fields_loop token appToken tableId rest fieldsCreated'
  end.

(** The steps of one table up to the table identifier. *)
Definition create_table (token appToken : jsstring) (table : Table.t)
  : M (option jsstring) :=
  createTableRes <- apiCall token (PathTables appToken)
                      (BodyName (Table.name table)) default_retries ;;
  d <- data_of createTableRes ;;
  ret (table_id d).

(** One iteration of the loop over [tables]: the entry pushed to [results]. *)
Definition provision_table (token appToken : jsstring) (table : Table.t)
  : M ProvisioningResult :=
  try_catch
    (tableId <- create_table token appToken table ;;
     sleep 500 ;;
     fieldsCreated <- fields_loop token appToken tableId (Table.fields table) 0 ;;
     recordsAdded <-
       (if (0 <? Table.sampleDataCount table)%Z && (0 <? fieldsCreated)
        then
          try_catch
            (addRecordsRes <-
               addSampleRecords token appToken tableId (Table.fields table)
                 (Z.min (Table.sampleDataCount table) 20) ;;
             ret (length addRecordsRes))
            (fun _ => ret 0)
        else ret 0) ;;
     ret (mkResult (Table.name table) STATUS_SUCCESS tableId
            (Some fieldsCreated) (Some recordsAdded) None))
    (fun tableError =>
       ret (mkResult (Table.name table) STATUS_FAILED None None None
              (Some tableError))).

Fixpoint tables_loop (token appToken : jsstring) (tables : list Table.t)
    (results : list ProvisioningResult) : M (list ProvisioningResult) :=
  match tables with
  | [] => ret results
  | table :: rest =>
      r <- provision_table token appToken table ;;
      tables_loop token appToken rest (results ++ [r])
  end.

(** [results.filter(r => r.status === s).length] *)
Definition count_status (s : jsstring) (results : list ProvisioningResult) : nat :=
  length (filter (fun r => JsString.eqb (status r) s) results).

(** [handleApiPost] for a request whose JSON body carries [prompt]
    ([None]: no such property). *)
Definition handleApiPost (prompt : option jsstring) (env : Env) : M Reply :=
  try_catch
    (match prompt with
     | Some ((_ :: _) as prompt) =>
         if length (trim prompt) =? 0 then throw PromptMissing
         else if 2000 <? length prompt then throw PromptTooLong
         else
           aiResponse <- generateSchemaFromAI prompt (GEMINI_API_KEY env) ;;
           let baseName := Schema.baseName aiResponse in
           let tables := Schema.tables aiResponse in
           if JsString.eqb baseName [] || (length tables =? 0)
           then throw SchemaRejected
           else if 10 <? length tables then throw TooManyTables
           else
             tenantAccessToken <- getTenantAccessToken env ;;
             createBaseRes <- createBaseApp tenantAccessToken baseName ;;
             d <- data_of createBaseRes ;;
             match app d with
             | None => throw TypeError
             | Some a =>
                 let newAppToken := app_token a in
                 let newBaseUrl := url a in
                 results <- tables_loop tenantAccessToken newAppToken tables [] ;;
                 ret (Reply200
                        (mkSuccess baseName newBaseUrl
                           (mkSummary (length tables)
                              (count_status STATUS_SUCCESS results)
                              (count_status STATUS_FAILED results))
                           results))
             end
     | _ => throw PromptMissing
     end)
    (fun error => ret (Reply500 error)).

End Program.

(* ===================================================================== *)
(** * The table loop on what the validation lets through *)
(* ===================================================================== *)

(** [generateSchemaFromAI] checks that [tables] is a non-empty array and
    [handleApiPost] checks its length; neither looks at the elements.  The
    loop of [handleApiPost] therefore also runs on elements that are not of
    the shape [Table.t], and three such shapes decide what it records: an
    element that is [null], an element whose [fields] is not an array, and
    a [fields] array that holds a [null]. *)
Module Entry.
Record t := mk {
  name : jsstring;
  fields : option (list (option Field.t));
    (* [None]: absent, [null], a number, a boolean or an object, on which
       [for ... of] throws; an element [None]: [null] *)
  sampleDataCount : Z
}.
End Entry.

(** The elements of [fields] when none of them is [null]. *)
Fixpoint all_fields (fields : list (option Field.t)) : option (list Field.t) :=
  match fields with
  | [] => Some []
  | None :: _ => None
  | Some field :: rest => option_map (cons field) (all_fields rest)
  end.

Section EntryLoop.

Variable net : nat -> FetchResult.
Variable timestamp : nat -> nat -> Z.

(** The loop over [table.fields]; the result is [fieldsCreated].  On a
    [null] element [field.type] throws inside the [try] and [field.name]
    throws inside the [catch], so the error leaves the loop. *)
Fixpoint entry_fields_loop (token appToken : jsstring)
    (tableId : option jsstring) (fields : list (option Field.t))
    (fieldsCreated : nat) : M nat :=
  match fields with
  | [] => ret fieldsCreated
  | None :: _ => throw TypeError
  | Some field :: rest =>
      fieldsCreated' <-
        try_catch
          (let fieldPayload :=
             getFieldProperty (Field.type field) (options_or_empty field) in
           match fieldPayload with
           | Undefined => ret fieldsCreated               (* warn; continue *)
           | Own p =>
               apiCall net token (PathFields appToken tableId)
                 (BodyField (Field.name field) (Some (type p)) (property p))
                 default_retries ;;
               sleep 300 ;;
               ret (S fieldsCreated)
           | Inherited _ =>
               apiCall net token (PathFields appToken tableId)
                 (BodyField (Field.name field) None None)
                 default_retries ;;
               sleep 300 ;;
               ret (S fieldsCreated)
           end)
          (fun _ => ret fieldsCreated) ;;
      entry_fields_loop token appToken tableId rest fieldsCreated'
  end.

(** [addSampleRecords] on an array that may hold [null]: after the guard,
    the first row reads [field.type] of every element. *)
Definition entry_addSampleRecords (token appToken : jsstring)
    (tableId : option jsstring) (fields : list (option Field.t)) (count : Z)
  : M (list jsstring) :=
  if (count <=? 0)%Z || (length fields =? 0) then ret []
  else
    match all_fields fields with
    | Some typed =>
        addSampleRecords net timestamp token appToken tableId typed count
    | None => throw TypeError
    end.

(** One iteration of the loop over [tables], for the element [entry]
    ([None]: [null]).  On [null], [table.name] throws inside the [try],
    before any request, and again inside the [catch]: the error leaves the
    loop. *)
Definition provision_entry (token appToken : jsstring)
    (entry : option Entry.t) : M ProvisioningResult :=
  match entry with
  | None => throw TypeError
  | Some table =>
      try_catch
        (createTableRes <- apiCall net token (PathTables appToken)
                             (BodyName (Entry.name table)) default_retries ;;
         d <- data_of createTableRes ;;
         let tableId := table_id d in
         sleep 500 ;;
         fieldsCreated <-
           match Entry.fields table with
           | Some fields => entry_fields_loop token appToken tableId fields 0
           | None => throw TypeError       (* [table.fields] is not iterable *)
           end ;;
         recordsAdded <-
           (if (0 <? Entry.sampleDataCount table)%Z && (0 <? fieldsCreated)
            then
              try_catch
                (addRecordsRes <-
                   entry_addSampleRecords token appToken tableId
                     (match Entry.fields table with
                      | Some fields => fields
                      | None => []
                      end)
                     (Z.min (Entry.sampleDataCount table) 20) ;;
                 ret (length addRecordsRes))
                (fun _ => ret 0)
            else ret 0) ;;
         ret (mkResult (Entry.name table) STATUS_SUCCESS tableId
                (Some fieldsCreated) (Some recordsAdded) None))
        (fun tableError =>
           ret (mkResult (Entry.name table) STATUS_FAILED None None None
                  (Some tableError)))
  end.

Fixpoint entries_loop (token appToken : jsstring)
    (tables : list (option Entry.t)) (results : list ProvisioningResult)
  : M (list ProvisioningResult) :=
  match tables with
  | [] => ret results
  | entry :: rest =>
      r <- provision_entry token appToken entry ;;
      entries_loop token appToken rest (results ++ [r])
  end.

End EntryLoop.

(** A table of the declared shape, as an element of [tables]. *)
Definition entry_of (table : Table.t) : option Entry.t :=
  Some (Entry.mk (Table.name table) (Some (map Some (Table.fields table)))
          (Table.sampleDataCount table)).

(* ===================================================================== *)
(** * Vocabulary of the properties *)
(* ===================================================================== *)

(** ** Field types and options *)

(** The thirteen supported names and their codes, as the specification
    enumerates them. *)
Definition type_codes : list (jsstring * Z) :=
  [ (#"text", 1); (#"number", 2); (#"single_select", 3); (#"multi_select", 4);
    (#"date", 5); (#"date_time", 5); (#"checkbox", 7); (#"member", 11);
    (#"phone", 13); (#"url", 15); (#"email", 23); (#"currency", 25);
    (#"rating", 26) ]%Z.

(** The options declared for a choice field: the string under the key
    ['オプション'], split on commas, each part trimmed, empty parts
    dropped. *)
Definition declared_options (options : JsObject) : list jsstring :=
  filter (fun s => negb (JsString.eqb s []))
    (map trim (split 44 (match own_property options OPTION_KEY with
                         | Some s => s
                         | None => []
                         end))).

(** ** Logs *)

Definition is_sleep (e : event) : Prop := exists ms, e = Sleep ms.

(** The pauses of a log, in order. *)
Definition pauses (log : list event) : list Z :=
  flat_map (fun e => match e with Sleep ms => [ms] | Fetch _ => [] end) log.

(** The batches submitted to [records/batch_create], in order. *)
Definition submitted_batches (log : list event) : list (list RecordFields) :=
  flat_map (fun e => match e with
                     | Fetch (ApiRequest _ (PathBatchCreate _ _) (BodyRecords b)) => [b]
                     | _ => []
                     end) log.

(** [w'] is [w] followed by events that all satisfy [P]. *)
Definition extends_with (P : event -> Prop) (w w' : world) : Prop :=
  exists log, w' = w ++ log /\ Forall P log.

(** Whatever its result, [m] only appends events that satisfy [P]. *)
Definition emits {A} (P : event -> Prop) (m : M A) : Prop :=
  forall w, extends_with P w (snd (m w)).

(** [m] never throws. *)
Definition returns {A} (m : M A) : Prop :=
  forall w, exists a w', m w = (Returned a, w').

(** The events of the schema generator: pauses and requests to the AI
    endpoint. *)
Definition generator_event (e : event) : Prop :=
  is_sleep e \/ exists apiKey userPrompt, e = Fetch (GeminiRequest apiKey userPrompt).

(** No request went to the workspace API: neither a token request nor an
    API call. *)
Definition no_workspace_request (log : list event) : Prop :=
  Forall generator_event log.

(** ** Answers to [apiCall] *)

(** An answer with HTTP status 429. *)
Definition rate_limited (answer : FetchResult) : Prop :=
  exists r, answer = Responded r /\ Response.status r = 429%Z.

(** The log of attempts at [request] that were all answered 429: each
    request is followed by a pause of [1000 * 2 ^ attempt] ms. *)
Definition rate_limited_log (request : Request) (attempts : list nat)
  : list event :=
  flat_map (fun a => [Fetch request; Sleep (1000 * 2 ^ Z.of_nat a)]) attempts.

(** The error that an answer makes the [try] block of [apiCall] throw when
    it is neither a success nor a rate-limit answer. *)
Definition failure_of (path : ApiPath) (answer : FetchResult) : option Error :=
  match answer with
  | NetworkFailure reason => Some (Rejected reason)
  | Responded r =>
      if negb (Response.ok r) then
        if (Response.status r =? 429)%Z then None
        else Some (HttpError (Response.status r) (Response.statusText r))
      else
        match Response.json r with
        | None => Some (Rejected #"invalid JSON body")
        | Some d =>
            if (code d =? 0)%Z || (code d =? 99991400)%Z then None
            else Some (LarkApiError (msg d) (code d) path)
        end
  end.

(** The log of attempts that failed that way: the requests, separated by
    pauses of [1000 * attempt] ms. *)
Fixpoint failure_log (request : Request) (remaining attempt : nat)
  : list event :=
  match remaining with
  | 0 => []
  | 1 => [Fetch request]
  | S k => Fetch request :: Sleep (1000 * Z.of_nat attempt)
             :: failure_log request k (S attempt)
  end.

(** ** Answers to the schema generator *)

(** How the [try] block of attempt number [attempt] ends when its [fetch]
    is answered [answer]. *)
Definition attempt_outcome (JSON_parse : jsstring -> option Parsed)
    (answer : FetchResult) (attempt : nat) : outcome Schema.t :=
  match answer with
  | NetworkFailure reason => Thrown (Rejected reason)
  | Responded r => read_response JSON_parse attempt r
  end.

Definition attempt_fails (JSON_parse : jsstring -> option Parsed)
    (answer : FetchResult) (attempt : nat) : Prop :=
  exists e, attempt_outcome JSON_parse answer attempt = Thrown e.

(** The log of the failed attempts [attempt, attempt + 1, ...]: each
    request, followed while [attempt < 5] by a pause of
    [1000 * 2 ^ (attempt - 1)] ms. *)
Fixpoint retry_log (request : Request) (failed attempt : nat) : list event :=
  match failed with
  | 0 => []
  | S k =>
      Fetch request
        :: (if attempt <? MAX_ATTEMPTS
            then [Sleep (1000 * 2 ^ (Z.of_nat attempt - 1))] else [])
        ++ retry_log request k (S attempt)
  end.

(** ** Sample records *)

(** Every field of row [i] is synthesized as [null]. *)
Definition row_is_null (timestamp : nat -> nat -> Z) (fields : list Field.t)
    (i : nat) : Prop :=
  forall (j : nat) (field : Field.t),
    nth_error fields j = Some field ->
    generateDummyData (Field.type field) (options_or_empty field) i
      (timestamp i j) = None.

Definition is_empty_record (r : RecordFields) : bool :=
  match r with [] => true | _ :: _ => false end.

(** The events of the batch loop over the record list [all]: pauses, and
    [batch_create] requests whose batch is a slice of [all]. *)
Definition batch_event (token appToken : jsstring) (tableId : option jsstring)
    (all : list RecordFields) (e : event) : Prop :=
  is_sleep e
  \/ exists i, e = Fetch (ApiRequest token (PathBatchCreate appToken tableId)
                            (BodyRecords (firstn batchSize (skipn i all)))).

(** ** Table outcomes *)

(** The entry recorded for [table] when its iteration starts in world [w]:
    it carries the table's name; it is [Success], with the identifier and
    the two counts, when the table-creation step returned, and [Failed],
    with the error, when that step threw. *)
Definition table_outcome (net : nat -> FetchResult)
    (token appToken : jsstring) (table : Table.t)
    (w : world) (r : ProvisioningResult) : Prop :=
  tableName r = Table.name table
  /\ match create_table net token appToken table w with
     | (Returned id, _) =>
         status r = STATUS_SUCCESS /\ tableId r = id
         /\ (exists n, fieldsCreated r = Some n)
         /\ (exists n, recordsAdded r = Some n)
         /\ error r = None
     | (Thrown e, _) =>
         status r = STATUS_FAILED /\ error r = Some e
         /\ fieldsCreated r = None /\ recordsAdded r = None
     end.

(** The entries recorded for the tables [tables], the first iteration
    starting in world [w] and the last one ending in [w']: one entry per
    table, in order, each determined by its own table-creation step. *)
Inductive table_outcomes (net : nat -> FetchResult)
    (timestamp : nat -> nat -> Z) (token appToken : jsstring)
  : list Table.t -> world -> list ProvisioningResult -> world -> Prop :=
| outcomes_nil (w : world) :
    table_outcomes net timestamp token appToken [] w [] w
| outcomes_cons (table : Table.t) (rest : list Table.t) (w w1 w2 : world)
    (r : ProvisioningResult) (rs : list ProvisioningResult) :
    provision_table net timestamp token appToken table w = (Returned r, w1) ->
    table_outcome net token appToken table w r ->
    table_outcomes net timestamp token appToken rest w1 rs w2 ->
    table_outcomes net timestamp token appToken (table :: rest) w (r :: rs) w2.

(** [table.fields] when it is an array without [null]: the fields the
    loops go through. *)
Definition typed_fields (table : Entry.t) : option (list Field.t) :=
  match Entry.fields table with
  | Some fields => all_fields fields
  | None => None
  end.

(** The entry recorded for the element [table] (not [null]) when its
    iteration starts in world [w], by what the table-creation call gives in
    that world.  When the call throws, the entry is [Failed] with its
    error.  When it returns nothing (the end of the retries on HTTP 429),
    or a body without [data], or when [table.fields] is not an array
    without [null], the entry is [Failed] with a [TypeError].  Otherwise it
    is [Success], with the identifier of the body and the two counts. *)
Definition entry_outcome (net : nat -> FetchResult)
    (token appToken : jsstring) (table : Entry.t)
    (w : world) (r : ProvisioningResult) : Prop :=
  tableName r = Entry.name table
  /\ match apiCall net token (PathTables appToken)
             (BodyName (Entry.name table)) default_retries w with
     | (Returned (Some res), _) =>
         match data res, typed_fields table with
         | Some d, Some fields =>
             status r = STATUS_SUCCESS /\ tableId r = table_id d
             /\ (exists n, fieldsCreated r = Some n /\ n <= length fields)
             /\ (exists n, recordsAdded r = Some n)
             /\ error r = None
         | _, _ =>
             status r = STATUS_FAILED /\ error r = Some TypeError
             /\ tableId r = None
             /\ fieldsCreated r = None /\ recordsAdded r = None
         end
     | (Returned None, _) =>
         status r = STATUS_FAILED /\ error r = Some TypeError
         /\ tableId r = None
         /\ fieldsCreated r = None /\ recordsAdded r = None
     | (Thrown e, _) =>
         status r = STATUS_FAILED /\ error r = Some e
         /\ tableId r = None
         /\ fieldsCreated r = None /\ recordsAdded r = None
     end.

(** The entries recorded for the elements [tables], none of them [null],
    the first iteration starting in world [w] and the last one ending in
    [w']: one entry per element, in order. *)
Inductive entry_outcomes (net : nat -> FetchResult)
    (timestamp : nat -> nat -> Z) (token appToken : jsstring)
  : list Entry.t -> world -> list ProvisioningResult -> world -> Prop :=
| entry_outcomes_nil (w : world) :
    entry_outcomes net timestamp token appToken [] w [] w
| entry_outcomes_cons (table : Entry.t) (rest : list Entry.t)
    (w w1 w2 : world) (r : ProvisioningResult) (rs : list ProvisioningResult) :
    provision_entry net timestamp token appToken (Some table) w
      = (Returned r, w1) ->
    entry_outcome net token appToken table w r ->
    entry_outcomes net timestamp token appToken rest w1 rs w2 ->
    entry_outcomes net timestamp token appToken (table :: rest) w (r :: rs) w2.

(** ** Sample data *)

Module Sample.

(** [JSON.stringify] of a schema whose strings need no escape. *)
Definition quoted (s : jsstring) : jsstring := [34%N] ++ s ++ [34%N].

Definition member (name value : jsstring) : jsstring :=
  quoted name ++ #":" ++ value.

Fixpoint joined (parts : list jsstring) : jsstring :=
  match parts with
  | [] => []
  | [p] => p
  | p :: rest => p ++ #"," ++ joined rest
  end.

Definition json_object (members : list jsstring) : jsstring :=
  #"{" ++ joined members ++ #"}".

Definition json_array (items : list jsstring) : jsstring :=
  #"[" ++ joined items ++ #"]".

Definition json_field (f : Field.t) : jsstring :=
  json_object
    ([ member #"name" (quoted (Field.name f));
       member #"type" (quoted (Field.type f)) ]
     ++ match Field.options f with
        | Some o =>
            [ member #"options"
                (json_object (map (fun kv => member (fst kv) (quoted (snd kv))) o)) ]
        | None => []
        end).

Definition json_table (t : Table.t) : jsstring :=
  json_object
    [ member #"name" (quoted (Table.name t));
      member #"fields" (json_array (map json_field (Table.fields t)));
      member #"sampleDataCount" (decimal (Z.to_nat (Table.sampleDataCount t))) ].

Definition json_schema (s : Schema.t) : jsstring :=
  json_object
    [ member #"baseName" (quoted (Schema.baseName s));
      member #"tables" (json_array (map json_table (Schema.tables s))) ].

(** A [JSON.parse] that reads the serialization of [s] and throws on every
    other text. *)
Definition parse_only (s : Schema.t) (text : jsstring) : option Parsed :=
  if JsString.eqb text (json_schema s)
  then Some (ParsedValue (Some (Schema.baseName s)) (Some (Schema.tables s)))
  else None.

Definition customers : Table.t :=
  Table.mk #"Customers"
    [ Field.mk #"Name" #"text" None;
      Field.mk #"Rank" #"single_select" (Some [(OPTION_KEY, #"A,B,C")]);
      Field.mk #"Total" #"formula" None ]
    2.

Definition orders : Table.t :=
  Table.mk #"Orders" [ Field.mk #"Paid" #"checkbox" None ] 0.

Definition crm : Schema.t := Schema.mk #"CRM" [customers; orders].

(** The model's answer: the schema, after a sentence of prose. *)
Definition chatty_text : jsstring := #"Here is the schema: " ++ json_schema crm.

(** The model's answer: the schema in a fenced block. *)
Definition fenced_text : jsstring :=
  #"```json" ++ [10%N] ++ json_schema crm ++ [10%N] ++ #"```".

Definition http (status : Z) (statusText : jsstring) (body : option ResponseBody)
  : FetchResult :=
  Responded (Response.mk status statusText [] body).

Definition ai_answer (text : jsstring) : FetchResult :=
  http 200 #"OK" (Some (mkBody (Some text) 0 [] [] None)).

Definition api_ok (d : option LarkData) : FetchResult :=
  http 200 #"OK" (Some (mkBody None 0 #"success" [] d)).

Definition token_ok : FetchResult :=
  http 200 #"OK" (Some (mkBody None 0 #"ok" #"t-1" None)).

Definition too_many_requests : FetchResult := http 429 #"Too Many Requests" None.

Definition server_error : FetchResult := http 500 #"Internal Server Error" None.

(** A network that answers the [n]-th fetch with the [n]-th element of
    [answers], and fails afterwards. *)
Definition scripted (answers : list FetchResult) (n : nat) : FetchResult :=
  nth n answers (NetworkFailure #"unreachable").

Definition env : Env := mkEnv (Some #"key") (Some #"app") (Some #"secret").

Definition noon (i j : nat) : Z := 1700000000000.

(** A run in which the first table is created with two of its three fields
    (the third type is unknown) and two records, and the creation of the
    second table fails three times. *)
Definition crm_network : nat -> FetchResult :=
  scripted
    [ ai_answer fenced_text;
      token_ok;
      api_ok (Some (mkData (Some (mkApp #"app1" #"https://base.example/app1"))
                      None None));
      api_ok (Some (mkData None (Some #"tbl1") None));
      api_ok None;
      api_ok None;
      api_ok (Some (mkData None None (Some [#"rec1"; #"rec2"])));
      server_error; server_error; server_error ].

Definition crm_prompt : jsstring := #"customer management with name and rank".

Definition crm_reply : SuccessBody :=
  mkSuccess #"CRM" #"https://base.example/app1" (mkSummary 2 1 1)
    [ mkResult #"Customers" STATUS_SUCCESS (Some #"tbl1") (Some 2) (Some 2) None;
      mkResult #"Orders" STATUS_FAILED None None None
        (Some (HttpError 500 #"Internal Server Error")) ].

End Sample.

(** ** Further vocabulary *)

(** The [case] labels of [generateDummyData]. *)
Definition sample_types : list jsstring :=
  [ #"text"; #"email"; #"phone"; #"number"; #"currency"; #"single_select";
    #"multi_select"; #"date"; #"date_time"; #"checkbox"; #"url"; #"rating" ].

(** The option names with which a field of this type and these options is
    created: the [property.options] of the mapper's payload. *)
Definition field_options (type_name : jsstring) (options : JsObject)
  : option (list jsstring) :=
  match getFieldProperty type_name options with
  | Own p => match property p with
             | Some (PropOptions l) => Some l
             | _ => None
             end
  | _ => None
  end.

(** The option names that a sample value selects. *)
Definition chosen (v : option JsValue) : list jsstring :=
  match v with
  | Some (VString s) => [s]
  | Some (VArray a) => a
  | _ => []
  end.

(** A type name of a choice field, in any letter case. *)
Definition select_type (type_name : jsstring) : Prop :=
  toLowerCase type_name = #"single_select"
  \/ toLowerCase type_name = #"multi_select".

(** [Object.keys(recordFields)] *)
Definition record_keys (r : RecordFields) : list jsstring := map fst r.

(** [k] is the name of a field whose type the synthesizer supports, and is
    not [__proto__]. *)
Definition key_of_field (fields : list Field.t) (k : jsstring) : Prop :=
  k <> #"__proto__"
  /\ exists field, In field fields /\ Field.name field = k
                   /\ In (toLowerCase (Field.type field)) sample_types.

(** How one attempt of [apiCall] reads the answer to its request. *)
Inductive verdict :=
| Accepted (d : ResponseBody)      (* HTTP ok, JSON body, [code === 0] *)
| TooManyRequests                  (* HTTP 429 *)
| AppLimited (d : ResponseBody)    (* HTTP ok, [code === 99991400] *)
| Refused (e : Error).             (* anything else: [e] is thrown *)

Definition classify (path : ApiPath) (answer : FetchResult) : verdict :=
  match answer with
  | NetworkFailure reason => Refused (Rejected reason)
  | Responded r =>
      if negb (Response.ok r) then
        if (Response.status r =? 429)%Z then TooManyRequests
        else Refused (HttpError (Response.status r) (Response.statusText r))
      else
        match Response.json r with
        | None => Refused (Rejected #"invalid JSON body")
        | Some d =>
            if (code d =? 0)%Z then Accepted d
            else if (code d =? 99991400)%Z then AppLimited d
            else Refused (LarkApiError (msg d) (code d) path)
        end
  end.

(** The pause before the next attempt. *)
Definition wait_after (v : verdict) (attempt : nat) : Z :=
  match v with
  | TooManyRequests => 1000 * 2 ^ Z.of_nat attempt
  | _ => 1000 * Z.of_nat attempt
  end.

(** The error thrown when the last attempt ends with this verdict. *)
Definition error_of (path : ApiPath) (v : verdict) : option Error :=
  match v with
  | Refused e => Some e
  | AppLimited d => Some (LarkApiError (msg d) (code d) path)
  | Accepted _ | TooManyRequests => None
  end.

(** The log of [n] attempts at [request] that were not accepted, the first
    one numbered [attempt], each followed by its pause; [verdicts k] is the
    verdict of the [k]-th of them. *)
Fixpoint retried_log (request : Request) (verdicts : nat -> verdict)
    (n attempt : nat) : list event :=
  match n with
  | 0 => []
  | S k =>
      Fetch request :: Sleep (wait_after (verdicts 0) attempt)
        :: retried_log request (fun j => verdicts (S j)) k (S attempt)
  end.

(** What a run of [remaining] iterations of the loop of [apiCall], started
    in [w], that sent [n] requests and ended with [o] says about the
    answers. *)
Definition api_postcondition (net : nat -> FetchResult) (path : ApiPath)
    (w : world) (remaining n : nat)
    (o : outcome (option ResponseBody)) : Prop :=
  match o with
  | Returned (Some d) =>
      1 <= n /\ classify path (net (fetch_count w + (n - 1))) = Accepted d
  | Returned None =>
      remaining = 0
      \/ (n = remaining
          /\ classify path (net (fetch_count w + (n - 1))) = TooManyRequests)
  | Thrown e =>
      n = remaining /\ 1 <= n
      /\ error_of path (classify path (net (fetch_count w + (n - 1)))) = Some e
  end.


Definition is_accepted (v : verdict) : bool :=
  match v with Accepted _ => true | _ => false end.

(** ** Further sample data *)

Module Sample2.

Definition app_limited : FetchResult :=
  Sample.http 200 #"OK"
    (Some (mkBody None 99991400 #"request trigger frequency limit" [] None)).

Definition table_created : ResponseBody :=
  mkBody None 0 #"success" [] (Some (mkData None (Some #"tbl1") None)).

Definition create_table_request : Request :=
  ApiRequest #"t-1" (PathTables #"app1") (BodyName #"Customers").

(** A 429, a server error, then the table is created. *)
Definition flaky_network : nat -> FetchResult :=
  Sample.scripted
    [ Sample.too_many_requests; Sample.server_error;
      Responded (Response.mk 200 #"OK" [] (Some table_created)) ].

(** A 429, then the application-level rate limit twice. *)
Definition limited_network : nat -> FetchResult :=
  Sample.scripted [ Sample.too_many_requests; app_limited; app_limited ].

(** Every record request is accepted and answered with one record. *)
Definition records_created : ResponseBody :=
  mkBody None 0 #"success" [] (Some (mkData None None (Some [#"rec1"]))).

Definition accepting_network : nat -> FetchResult :=
  fun _ => Responded (Response.mk 200 #"OK" [] (Some records_created)).

End Sample2.

(** An answer that [getTenantAccessToken] accepts, and the token it carries. *)
Definition grants (answer : FetchResult) (t : jsstring) : Prop :=
  exists r d, answer = Responded r /\ Response.ok r = true
              /\ Response.json r = Some d /\ code d = 0%Z
              /\ tenant_access_token d = t.

(** [!s] for an environment variable. *)
Definition unset (s : option jsstring) : Prop := s = None \/ s = Some [].

(** ** Fenced answers *)

Definition BACKTICK : N := 96.

Definition no_backtick (s : jsstring) : Prop := ~ In BACKTICK s.

Definition all_whitespace (s : jsstring) : Prop :=
  forallb is_whitespace s = true.

(** [payload], with white space around it, in a block fenced as json,
    after the text [before] and before the text [after]. *)
Definition fenced (before ws1 payload ws2 after : jsstring) : jsstring :=
  before ++ FENCE_OPEN ++ ws1 ++ payload ++ ws2 ++ FENCE_CLOSE ++ after.

(** Whether an opening fence starts at some position of [before], in a
    text where [before] is followed by [rest]. *)
Fixpoint fence_opens_in (before rest : jsstring) : bool :=
  match before with
  | [] => false
  | _ :: before' =>
      starts_with FENCE_OPEN (before ++ rest) || fence_opens_in before' rest
  end.

(** What the brace scan (the third way) makes of [rawText]. *)
Definition brace_scan (JSON_parse : jsstring -> option Parsed)
    (rawText : jsstring) : outcome (option Parsed) :=
  match brace_span rawText with
  | Some jsonText =>
      match JSON_parse jsonText with
      | Some v => Returned (Some v)
      | None => Thrown JsonParseFailed
      end
  | None => Returned None
  end.

(** A payload that the fence pattern can give back: it is not empty, holds
    no backquote and neither starts nor ends with white space. *)
Definition fenceable (payload : jsstring) : Prop :=
  payload <> []
  /\ no_backtick payload
  /\ is_whitespace (hd 0%N payload) = false
  /\ is_whitespace (last payload 0%N) = false.

Definition OPEN_BRACE : N := 123.
Definition CLOSE_BRACE : N := 125.

(** ** Requests of the orchestrator *)

(** If [e] is a [batch_create] request, its batch has between 1 and
    [batchSize] records and each of them was synthesized for [fields] from a row index
    below [limit] and has at least one property. *)
Definition batches_within (timestamp : nat -> nat -> Z)
    (fields : list Field.t) (limit : nat) (e : event) : Prop :=
  forall b, In b (submitted_batches [e]) ->
            1 <= length b <= batchSize
            /\ forall r, In r b ->
                         exists i, i < limit
                                   /\ r = record_loop timestamp fields i 0 []
                                   /\ r <> [].

(** The events of the table loop for the base [appToken]: pauses, and
    requests that carry [token] and address the tables of that base, the
    fields of one of its tables or the records of one of its tables. *)
Definition table_request (token appToken : jsstring) (e : event) : Prop :=
  is_sleep e
  \/ exists body,
       e = Fetch (ApiRequest token (PathTables appToken) body)
       \/ (exists id, e = Fetch (ApiRequest token (PathFields appToken id) body))
       \/ (exists id, e = Fetch (ApiRequest token (PathBatchCreate appToken id) body)).

(** The events of the base creation. *)
Definition base_request (token baseName : jsstring) (e : event) : Prop :=
  is_sleep e \/ e = Fetch (ApiRequest token PathApps (BodyName baseName)).

(** The mapper has no mapping for the type of any of the fields. *)
Definition all_unmapped (fields : list Field.t) : Prop :=
  forall field, In field fields ->
                getFieldProperty (Field.type field) (options_or_empty field)
                = Undefined.

(** The events of the batch loop over the record list [all]: pauses, and
    [batch_create] requests for the slice of [all] that starts at a
    multiple of [batchSize] inside [all]. *)
Definition slice_event (token appToken : jsstring) (tableId : option jsstring)
    (all : list RecordFields) (e : event) : Prop :=
  is_sleep e
  \/ exists k,
       k * batchSize < length all
       /\ e = Fetch (ApiRequest token (PathBatchCreate appToken tableId)
                       (BodyRecords (firstn batchSize
                                       (skipn (k * batchSize) all)))).

(** The next [n] answers after [w] are accepted as answers to a request for
    [path]; [answers k] is the body of the [k]-th of them. *)
Definition accepted_at_once (net : nat -> FetchResult) (path : ApiPath)
    (w : world) (n : nat) (answers : nat -> ResponseBody) : Prop :=
  forall k, k < n ->
            classify path (net (fetch_count w + k)) = Accepted (answers k).

(** [Math.ceil(n / batchSize)], the number of batches for [n] records. *)
Definition batch_count (n : nat) : nat := (n + (batchSize - 1)) / batchSize.

(** The events of the [k]-th batch of [rows] when its request is accepted
    at once: the request for the rows [k * batchSize, ...], at most
    [batchSize] of them, followed by a pause of 500 ms unless it is the
    last batch. *)
Definition accepted_batch_events (token appToken : jsstring)
    (tableId : option jsstring) (rows : list RecordFields) (k : nat)
  : list event :=
  Fetch (ApiRequest token (PathBatchCreate appToken tableId)
           (BodyRecords (firstn batchSize (skipn (k * batchSize) rows))))
  :: (if S k <? batch_count (length rows) then [Sleep 500] else []).

(** The log of the batch loop over [rows] when every request is accepted
    at once. *)
Definition accepted_batches_log (token appToken : jsstring)
    (tableId : option jsstring) (rows : list RecordFields) : list event :=
  flat_map (accepted_batch_events token appToken tableId rows)
    (seq 0 (batch_count (length rows))).

(** The phases of the log of one call of the handler: requests to the AI
    endpoint and pauses of the generator; then, if the handler got that
    far with both credentials, one token request carrying them, the
    attempts to create the base, all with one token and one base name, and
    the requests of the table loop, all with that token and addressed to
    one base. *)
Definition handler_phases (env : Env) (log : list event) : Prop :=
  exists gen tok base tables,
    log = gen ++ tok ++ base ++ tables
    /\ Forall generator_event gen
    /\ ((tok = [] /\ base = [] /\ tables = [])
        \/ exists app_id app_secret token baseName appToken,
             LARK_APP_ID env = Some app_id
             /\ LARK_APP_SECRET env = Some app_secret
             /\ tok = [Fetch (TokenRequest app_id app_secret)]
             /\ Forall (base_request token baseName) base
             /\ Forall (table_request token appToken) tables).

(* ===================================================================== *)
(** * The endpoint [functions/api/create-lark-base.js] *)
(* ===================================================================== *)

(** [onRequestPost] and its helpers.  The file shares no function with the
    program above: its [apiCall] sends one request and looks at the JSON
    body only, the loop over the tables has no [try], the AI endpoint is
    asked once, the mapper has no fallback and the synthesizer has no
    [multi_select] case.  Its helpers [apiCall], [getTenantAccessToken],
    [createBaseApp], [addSampleRecords], [getFieldProperty] and
    [generateDummyData] are also, letter for letter, those at the end of
    [functions/[[path]].js] (lines 1647-1733).  The schema and the response
    bodies are typed as above; requests, errors, the log and the monad are
    those of this file. *)

Module Legacy.

(** One constructor for each [throw] site and each operation that can
    throw or reject. *)
Inductive Error :=
| PromptRequired                   (* 'Prompt is required' *)
| ApiKeyMissing                    (* "GEMINI_API_KEY is not configured." *)
| GeminiFailed                     (* [!response.ok || !...text] *)
| SyntaxError                      (* [JSON.parse] threw *)
| SchemaRejected                   (* after the AI call *)
| TokenFailed                      (* 'Failed to get tenant access token' *)
| LarkApiError (msg : jsstring) (code : Z) (path : ApiPath)
| TypeError                        (* a property read on undefined or null *)
| Rejected (reason : jsstring).    (* fetch() or response.json() rejected *)

(** What [JSON.parse] returns, seen through the destructuring
    [const { baseName, tables } = aiResponse]. *)
Inductive Parsed :=
| ParsedNull                                    (* destructuring throws *)
| ParsedValue (baseName : option jsstring)      (* [None]: absent *)
              (tables : option (list Table.t)). (* [None]: absent *)

Inductive Request :=
| GeminiRequest (apiKey userPrompt : jsstring)
| TokenRequest (app_id app_secret : option jsstring)   (* [env.LARK_APP_ID], ... *)
| ApiRequest (token : jsstring) (path : ApiPath) (body : RequestBody).

Inductive event :=
| Fetch (r : Request)
| Sleep (ms : Z).

Definition world := list event.

Definition is_fetch (e : event) : bool :=
  match e with Fetch _ => true | Sleep _ => false end.

Definition fetch_count (w : world) : nat := length (filter is_fetch w).

Inductive outcome (A : Type) :=
| Returned (a : A)
| Thrown (e : Error).
Arguments Returned {A} a.
Arguments Thrown {A} e.

Definition M (A : Type) := world -> outcome A * world.

Definition ret {A} (a : A) : M A := fun w => (Returned a, w).

Definition throw {A} (e : Error) : M A := fun w => (Thrown e, w).

Definition bind {A B} (m : M A) (k : A -> M B) : M B :=
  fun w => match m w with
           | (Returned a, w') => k a w'
           | (Thrown e, w') => (Thrown e, w')
           end.

Definition try_catch {A} (m : M A) (handler : Error -> M A) : M A :=
  fun w => match m w with
           | (Returned a, w') => (Returned a, w')
           | (Thrown e, w') => handler e w'
           end.

Declare Scope legacy_scope.
Notation "x <- m ;; k" := (bind m (fun x => k))
  (at level 61, m at next level, right associativity) : legacy_scope.
Notation "m ;; k" := (bind m (fun _ => k))
  (at level 61, right associativity) : legacy_scope.
Local Open Scope legacy_scope.

(** [await new Promise(resolve => setTimeout(resolve, ms))] *)
Definition sleep (ms : Z) : M unit := fun w => (Returned tt, w ++ [Sleep ms]).

(** ** [getFieldProperty] *)

(** [(options[key] || '').split(',').map(o => ({ name: o.trim() }))] *)
Definition getOptions (options : JsObject) : list jsstring :=
  map trim (split 44 (match own_property options OPTION_KEY with
                      | Some s => s
                      | None => []
                      end)).

(** The object literal [map] of [getFieldProperty]. *)
Definition map_ (options : JsObject) : list (jsstring * FieldPayload) :=
  [ (#"text",          mkPayload 1 None);
    (#"number",        mkPayload 2 (Some (PropFormatter #"0")));
    (#"single_select", mkPayload 3 (Some (PropOptions (getOptions options))));
    (#"multi_select",  mkPayload 4 (Some (PropOptions (getOptions options))));
    (#"date",          mkPayload 5 (Some (PropDateFormatter #"yyyy/MM/dd")));
    (#"date_time",     mkPayload 5 (Some (PropDateFormatter #"yyyy/MM/dd HH:mm")));
    (#"checkbox",      mkPayload 7 None);
    (#"member",        mkPayload 11 (Some (PropMultiple false)));
    (#"phone",         mkPayload 13 None);
    (#"url",           mkPayload 15 None);
    (#"email",         mkPayload 23 None);
    (#"currency",      mkPayload 25 (Some (PropCurrency #"JPY" #"#,##0")));
    (#"rating",        mkPayload 26 (Some (PropSymbol #"star"))) ].

Definition getFieldProperty (type_name : jsstring) (options : JsObject) : Lookup :=
  js_get (map_ options) (toLowerCase type_name).

(** ** [generateDummyData] *)

(** [now] is the value of [Date.now()]. *)
Definition generateDummyData (type_name : jsstring) (options : JsObject)
    (index : nat) (now : Z) : option JsValue :=
  let i := index + 1 in
  let selectOptions :=
    split 44 (match own_property options OPTION_KEY with
              | Some s => s
              | None => []
              end) in
  let t := toLowerCase type_name in
  if JsString.eqb t #"text" then
    Some (VString (SAMPLE_PREFIX ++ #" " ++ decimal i))
  else if JsString.eqb t #"email" then
    Some (VString (#"sample" ++ decimal i ++ #"@example.com"))
  else if JsString.eqb t #"phone" then
    Some (VString (#"090-1234-567" ++ decimal (index mod 10)))
  else if JsString.eqb t #"number" then Some (VNumber (123 * Z.of_nat i))
  else if JsString.eqb t #"currency" then Some (VNumber (5000 * Z.of_nat i))
  else if JsString.eqb t #"single_select" then
    match selectOptions with
    | (_ :: _) :: _ =>          (* [length > 0 && selectOptions[0]] *)
        Some (VString (trim (nth (index mod length selectOptions)
                               selectOptions [])))
    | _ => None
    end
  else if JsString.eqb t #"date" then Some (VNumber now)
  else if JsString.eqb t #"date_time" then Some (VNumber now)
  else if JsString.eqb t #"checkbox" then Some (VBoolean (Nat.eqb (i mod 2) 0))
  else if JsString.eqb t #"url" then
    Some (VString (#"https://example.com/item/" ++ decimal i))
  else if JsString.eqb t #"rating" then Some (VNumber (Z.of_nat (index mod 5 + 1)))
  else None.

(** ** The handler's reply *)

(** An entry of [results]; its [status] is always ['Success']. *)
Record Result := mkResult {
  tableName : jsstring;
  tableId : option jsstring;
  recordsAdded : nat
}.

Record SuccessBody := mkSuccess {
  baseName : jsstring;
  baseUrl : jsstring;
  details : list Result
}.

Inductive Reply :=
| Reply200 (body : SuccessBody)
| Reply500 (error : Error).          (* [{ error: error.message }] *)

Section Program.

Variable net : nat -> FetchResult.
Variable JSON_parse : jsstring -> option Parsed.
Variable timestamp : nat -> nat -> Z.

Definition fetch (r : Request) : M Response.t :=
  fun w => match net (fetch_count w) with
           | NetworkFailure reason => (Thrown (Rejected reason), w ++ [Fetch r])
           | Responded resp => (Returned resp, w ++ [Fetch r])
           end.

Definition response_json (r : Response.t) : M ResponseBody :=
  match Response.json r with
  | Some b => ret b
  | None => throw (Rejected #"invalid JSON body")
  end.

(** [generateSchemaFromAI(userPrompt, apiKey)] *)
Definition generateSchemaFromAI (userPrompt : jsstring)
    (apiKey : option jsstring) : M Parsed :=
  match apiKey with
  | Some ((_ :: _) as apiKey) =>
      response <- fetch (GeminiRequest apiKey userPrompt) ;;
      result <- response_json response ;;
      match Response.ok response, candidate_text result with
      | true, Some ((_ :: _) as text) =>
          match JSON_parse text with
          | Some v => ret v
          | None => throw SyntaxError
          end
      | _, _ => throw GeminiFailed
      end
  | _ => throw ApiKeyMissing
  end.

(** [apiCall(token, path, { method: 'POST', body })] *)
Definition apiCall (token : jsstring) (path : ApiPath) (body : RequestBody)
  : M ResponseBody :=
  response <- fetch (ApiRequest token path body) ;;
  data <- response_json response ;;
  if negb (code data =? 0)%Z then
    throw (LarkApiError (msg data) (code data) path)
  else ret data.

Definition getTenantAccessToken (env : Env) : M jsstring :=
  response <- fetch (TokenRequest (LARK_APP_ID env) (LARK_APP_SECRET env)) ;;
  data <- response_json response ;;
  if negb (code data =? 0)%Z then throw TokenFailed
  else ret (tenant_access_token data).

Definition createBaseApp (token baseName : jsstring) : M ResponseBody :=
  apiCall token PathApps (BodyName baseName).

(** The inner loop of [addSampleRecords] over the fields, from position [j]
    on, for row [i]. *)
Fixpoint record_loop (fields : list Field.t) (i j : nat)
    (recordFields : RecordFields) : RecordFields :=
  match fields with
  | [] => recordFields
  | field :: rest =>
      let dummyData :=
        generateDummyData (Field.type field) (options_or_empty field) i
          (timestamp i j) in
      record_loop rest i (S j)
        (match dummyData with
         | Some v => set_property recordFields (Field.name field) v
         | None => recordFields
         end)
  end.

(** The outer loop over the row indices. *)
Fixpoint rows_loop (fields : list Field.t) (rows : list nat)
    (records : list RecordFields) : list RecordFields :=
  match rows with
  | [] => records
  | i :: rest =>
      let recordFields := record_loop fields i 0 [] in
      rows_loop fields rest
        (match recordFields with
         | [] => records
         | _ :: _ => records ++ [recordFields]
         end)
  end.

(** [addSampleRecords]; the result is the [data] property of the object it
    returns. *)
Definition addSampleRecords (token appToken : jsstring)
    (tableId : option jsstring) (fields : list Field.t) (count : Z)
  : M (option LarkData) :=
  let records := rows_loop fields (seq 0 (Z.to_nat count)) [] in
  match records with
  | [] => ret (Some (mkData None None (Some [])))
  | _ :: _ =>
      res <- apiCall token (PathBatchCreate appToken tableId)
               (BodyRecords records) ;;
      ret (data res)
  end.

(** [addRecordsRes.data?.records?.length || 0] *)
Definition records_length (d : option LarkData) : nat :=
  match d with
  | Some d => match records d with Some l => length l | None => 0 end
  | None => 0
  end.

(** [res.data], read for one of its properties. *)
Definition data_of (res : ResponseBody) : M LarkData :=
  match data res with
  | Some d => ret d
  | None => throw TypeError
  end.

(** The loop over [table.fields]. *)
Fixpoint fields_loop (token appToken : jsstring) (tableId : option jsstring)
    (fields : list Field.t) : M unit :=
  match fields with
  | [] => ret tt
  | field :: rest =>
      match getFieldProperty (Field.type field) (options_or_empty field) with
      | Undefined => fields_loop token appToken tableId rest  (* warn; continue *)
      | Own p =>
          apiCall token (PathFields appToken tableId)
            (BodyField (Field.name field) (Some (type p)) (property p)) ;;
          sleep 200 ;;
          fields_loop token appToken tableId rest
      | Inherited _ =>
          apiCall token (PathFields appToken tableId)
            (BodyField (Field.name field) None None) ;;
          sleep 200 ;;
          fields_loop token appToken tableId rest
      end
  end.

(** One iteration of the loop over [tables]: the entry pushed to [results]. *)
Definition provision_table (token appToken : jsstring) (table : Table.t)
  : M Result :=
  createTableRes <- apiCall token (PathTables appToken)
                      (BodyName (Table.name table)) ;;
  d <- data_of createTableRes ;;
  let tableId := table_id d in
  sleep 500 ;;
  fields_loop token appToken tableId (Table.fields table) ;;
  recordsAdded <-
    (if (0 <? Table.sampleDataCount table)%Z then
       addRecordsRes <-
         addSampleRecords token appToken tableId (Table.fields table)
           (Table.sampleDataCount table) ;;
       ret (records_length addRecordsRes)
     else ret 0) ;;
  ret (mkResult (Table.name table) tableId recordsAdded).

Fixpoint tables_loop (token appToken : jsstring) (tables : list Table.t)
    (results : list Result) : M (list Result) :=
  match tables with
  | [] => ret results
  | table :: rest =>
      r <- provision_table token appToken table ;;
      tables_loop token appToken rest (results ++ [r])
  end.

(** [onRequestPost] for a request whose JSON body carries [prompt]
    ([None]: no such property). *)
Definition onRequestPost (prompt : option jsstring) (env : Env) : M Reply :=
  try_catch
    (match prompt with
     | Some ((_ :: _) as prompt) =>
         aiResponse <- generateSchemaFromAI prompt (GEMINI_API_KEY env) ;;
         match aiResponse with
         | ParsedNull => throw TypeError
         | ParsedValue (Some ((_ :: _) as baseName)) (Some ((_ :: _) as tables)) =>
             tenantAccessToken <- getTenantAccessToken env ;;
             createBaseRes <- createBaseApp tenantAccessToken baseName ;;
             d <- data_of createBaseRes ;;
             match app d with
             | None => throw TypeError
             | Some a =>
                 let newAppToken := app_token a in
                 let newBaseUrl := url a in
                 results <- tables_loop tenantAccessToken newAppToken tables [] ;;
                 ret (Reply200 (mkSuccess baseName newBaseUrl results))
             end
         | ParsedValue _ _ => throw SchemaRejected
         end
     | _ => throw PromptRequired
     end)
    (fun error => ret (Reply500 error)).

End Program.

(** ** Vocabulary *)

(** An answer that [apiCall] and [getTenantAccessToken] take as a success:
    a JSON body with [code] 0, whatever the HTTP status. *)
Definition accepted (answer : FetchResult) (d : ResponseBody) : Prop :=
  exists r, answer = Responded r /\ Response.json r = Some d
            /\ code d = 0%Z.

(** The requests number [first], [first + 1], ... of the run, below
    [last], were all accepted. *)
Definition all_accepted (net : nat -> FetchResult) (first last : nat) : Prop :=
  forall k, first <= k -> k < last -> exists d, accepted (net k) d.

(** [m] sends its requests one after the other and ends at the first one
    that is not accepted: all its requests but the last were accepted, and
    the last one too when [m] returns. *)
Definition stops_at_refusal {A} (net : nat -> FetchResult) (m : M A) : Prop :=
  forall w,
    fetch_count w <= fetch_count (snd (m w))
    /\ all_accepted net (fetch_count w) (fetch_count (snd (m w)) - 1)
    /\ ((exists a, fst (m w) = Returned a) ->
        all_accepted net (fetch_count w) (fetch_count (snd (m w)))).

(** [options['オプション'] || ''] *)
Definition option_string (options : JsObject) : jsstring :=
  match own_property options OPTION_KEY with
  | Some s => s
  | None => []
  end.

(** The number of commas of a string. *)
Definition commas (s : jsstring) : nat :=
  length (filter (N.eqb 44) s).

(** The [case] labels of [generateDummyData]. *)
Definition sample_types : list jsstring :=
  [ #"text"; #"email"; #"phone"; #"number"; #"currency"; #"single_select";
    #"date"; #"date_time"; #"checkbox"; #"url"; #"rating" ].

(** A type for which [generateDummyData] has a value in every row,
    whatever the options. *)
Definition always_valued (type_name : jsstring) : Prop :=
  In (toLowerCase type_name) sample_types
  /\ toLowerCase type_name <> #"single_select".

End Legacy.

(** ** Sample data for the endpoint *)

Module LegacySample.

Definition parse_only (s : Schema.t) (text : jsstring) : option Legacy.Parsed :=
  if JsString.eqb text (Sample.json_schema s)
  then Some (Legacy.ParsedValue (Some (Schema.baseName s))
               (Some (Schema.tables s)))
  else None.

Definition refused : FetchResult :=
  Sample.http 200 #"OK"
    (Some (mkBody None 1254001 #"WrongRequestBody" [] None)).

(** The base and the first table are created, the first field is
    refused. *)
Definition field_refused_network : nat -> FetchResult :=
  Sample.scripted
    [ Sample.ai_answer (Sample.json_schema Sample.crm);
      Sample.token_ok;
      Sample.api_ok (Some (mkData (Some (mkApp #"app1" #"https://base.example/app1"))
                             None None));
      Sample.api_ok (Some (mkData None (Some #"tbl1") None));
      refused;
      Sample.api_ok None ].

End LegacySample.

(* ===================================================================== *)
(** * Properties of the field-type mapper *)
(* ===================================================================== *)

Lemma jsstring_eqb_eq (a b : jsstring) : JsString.eqb a b = true <-> a = b.
Proof.
  revert b; induction a as [|x a IH]; intros [|y b]; simpl;
    try (split; [discriminate | congruence]); try tauto.
  rewrite andb_true_iff, N.eqb_eq, IH. split.
  - intros [-> ->]; reflexivity.
  - intros H; inversion H; auto.
Qed.

Lemma jsstring_eqb_refl (a : jsstring) : JsString.eqb a a = true.
Proof. apply jsstring_eqb_eq; reflexivity. Qed.

(** Every supported name, in any letter case, is mapped to its code. *)
Lemma getFieldProperty_type_code (type_name : jsstring) (options : JsObject)
    (name : jsstring) (c : Z) :
  In (name, c) type_codes ->
  toLowerCase type_name = name ->
  exists p, getFieldProperty type_name options = Own p /\ type p = c.
Proof.
  intros Hin Hlow. unfold getFieldProperty. rewrite Hlow.
  simpl in Hin.
  repeat (destruct Hin as [Hin | Hin];
          [ injection Hin as <- <-;
            destruct (JsString.eqb type_name _ || JsString.eqb type_name _);
            simpl; try destruct (getOptions options); eexists; split;
            reflexivity
          | ]).
  contradiction.
Qed.

(** [date] and [date_time] share the code 5 and differ in the format string
    only. *)
Lemma getFieldProperty_date_formats (options : JsObject) :
  getFieldProperty #"date" options
    = Own (mkPayload 5 (Some (PropDateFormatter #"yyyy/MM/dd")))
  /\ getFieldProperty #"date_time" options
    = Own (mkPayload 5 (Some (PropDateFormatter #"yyyy/MM/dd HH:mm"))).
Proof. split; reflexivity. Qed.

(** A name that is neither a key of [typeMap] nor a member of
    [Object.prototype] has no mapping. *)
Lemma getFieldProperty_unknown (type_name : jsstring) (options : JsObject) :
  own_property (typeMap options) (toLowerCase type_name) = None ->
  includes (toLowerCase type_name) object_prototype_names = false ->
  getFieldProperty type_name options = Undefined.
Proof.
  intros Hown Hproto. unfold getFieldProperty, js_get.
  rewrite Hown, Hproto.
  destruct (JsString.eqb type_name _ || JsString.eqb type_name _); reflexivity.
Qed.

(** With the exact lower-case names the empty option list is replaced by the
    three placeholders. *)
Lemma getFieldProperty_fallback_exact (options : JsObject) :
  getOptions options = [] ->
  getFieldProperty #"single_select" options
    = Own (mkPayload 3 (Some (PropOptions fallback_options)))
  /\ getFieldProperty #"multi_select" options
    = Own (mkPayload 4 (Some (PropOptions fallback_options))).
Proof.
  intros H. unfold getFieldProperty. simpl. rewrite H. split; reflexivity.
Qed.

(** In any other letter case the lookup succeeds but the guard of the
    fallback is false: an empty option list is returned as it is. *)
Lemma getFieldProperty_no_fallback_other_case (type_name : jsstring)
    (options : JsObject) :
  toLowerCase type_name = #"single_select" ->
  type_name <> #"single_select" ->
  getOptions options = [] ->
  getFieldProperty type_name options = Own (mkPayload 3 (Some (PropOptions []))).
Proof.
  intros Hlow Hne Hopts. unfold getFieldProperty. rewrite Hlow.
  destruct (JsString.eqb type_name #"single_select") eqn:E1.
  { apply jsstring_eqb_eq in E1. contradiction. }
  destruct (JsString.eqb type_name #"multi_select") eqn:E2.
  { apply jsstring_eqb_eq in E2. rewrite E2 in Hlow. discriminate Hlow. }
  unfold typeMap. rewrite Hopts. reflexivity.
Qed.

(** C5.  The fallback is guarded by a comparison of the raw [type] with the
    lower-case names, while the lookup lower-cases it: for [SINGLE_SELECT]
    and [Multi_Select] with no options the mapping found has code 3
    (resp. 4) and an empty option list; the three placeholders are not
    supplied. *)
Theorem getFieldProperty_fallback_is_case_sensitive :
  getFieldProperty #"SINGLE_SELECT" []
    = Own (mkPayload 3 (Some (PropOptions [])))
  /\ getFieldProperty #"Multi_Select" [(OPTION_KEY, #"")]
    = Own (mkPayload 4 (Some (PropOptions []))).
Proof. split; reflexivity. Qed.

(** C6.  [constructor] and [__proto__] are outside the enumeration, yet
    the lookup in the object literal [typeMap] finds them on
    [Object.prototype]: the result is not [undefined], so the caller's
    [!fieldPayload] test does not skip the field. *)
Theorem getFieldProperty_inherited_name_is_not_skipped :
  getFieldProperty #"constructor" [] = Inherited #"constructor"
  /\ getFieldProperty #"__proto__" [] = Inherited #"__proto__"
  /\ is_falsy (getFieldProperty #"constructor" []) = false
  /\ ~ In #"constructor" (map fst type_codes).
Proof.
  repeat split; try reflexivity.
  simpl. intros H.
  repeat (destruct H as [H | H]; [discriminate H | ]). exact H.
Qed.

(* ===================================================================== *)
(** * Properties of the sample-data synthesizer *)
(* ===================================================================== *)

Lemma generateDummyData_single_select (type_name : jsstring)
    (options : JsObject) (index : nat) (ts : Z) :
  toLowerCase type_name = #"single_select" ->
  generateDummyData type_name options index ts =
    match declared_options options with
    | (_ :: _) as opts => Some (VString (nth (index mod length opts) opts []))
    | [] => Some (VString (OPTION_KEY ++ decimal (index mod 3 + 1)))
    end.
Proof.
  intros H. unfold generateDummyData. rewrite H.
  fold (declared_options options).
  destruct (declared_options options); reflexivity.
Qed.

(** C3, as the specification words it.  With the option string stored under
    the key ['選択肢文字列'] the synthesizer finds no options: row 0 gets the
    placeholder ['オプション1'], not [A]. *)
Lemma single_select_spec_key_counterexample :
  generateDummyData #"single_select" [(SPEC_OPTION_KEY, #"A,B,C")] 0 0
    = Some (VString (OPTION_KEY ++ #"1"))
  /\ generateDummyData #"single_select" [(SPEC_OPTION_KEY, #"A,B,C")] 0 0
    <> Some (VString #"A").
Proof. split; [reflexivity | discriminate]. Qed.

(** C3, amended.  With the option string ["A,B,C"] stored under the key
    ['オプション'] that the code reads, the [single_select] value of row [i]
    is the option at position [i mod 3]: A, B, C, A, ... with period 3.  In
    general, for a type name that lower-cases to [single_select], the value
    is the declared option at position [i] modulo the number of declared
    options, or the placeholder ['オプション' (i mod 3 + 1)] when none is
    declared. *)
Theorem single_select_cycles_declared_options :
  (forall (i : nat) (ts : Z),
      generateDummyData #"single_select" [(OPTION_KEY, #"A,B,C")] i ts
        = Some (VString (nth (i mod 3) [#"A"; #"B"; #"C"] []))
      /\ generateDummyData #"single_select" [(OPTION_KEY, #"A,B,C")] (i + 3) ts
        = generateDummyData #"single_select" [(OPTION_KEY, #"A,B,C")] i ts)
  /\ (forall (type_name : jsstring) (options : JsObject) (i : nat) (ts : Z),
        toLowerCase type_name = #"single_select" ->
        (declared_options options <> [] ->
         generateDummyData type_name options i ts =
           Some (VString (nth (i mod length (declared_options options))
                            (declared_options options) [])))
        /\ (declared_options options = [] ->
            generateDummyData type_name options i ts =
              Some (VString (OPTION_KEY ++ decimal (i mod 3 + 1))))).
Proof.
  split.
  - intros i ts.
    assert (E : forall k, generateDummyData #"single_select"
                            [(OPTION_KEY, #"A,B,C")] k ts
                          = Some (VString (nth (k mod 3) [#"A"; #"B"; #"C"] []))).
    { intros k. rewrite generateDummyData_single_select by reflexivity.
      reflexivity. }
    split; [apply E|].
    rewrite !E. replace (i + 3) with (i + 1 * 3) by lia.
    rewrite Nat.Div0.mod_add. reflexivity.
  - intros type_name options i ts H.
    rewrite (generateDummyData_single_select _ options i ts H).
    destruct (declared_options options) eqn:E; split; intros H'; congruence.
Qed.

Lemma single_select_cycles_witness :
  generateDummyData #"Single_Select" [(OPTION_KEY, #" x , ,y")] 3 0
    = Some (VString #"y").
Proof.
  pose proof (proj2 single_select_cycles_declared_options
                #"Single_Select" [(OPTION_KEY, #" x , ,y")] 3 0%Z eq_refl) as [H _].
  rewrite H by discriminate. reflexivity.
Defined.

(* ===================================================================== *)
(** * Properties of the runs *)
(* ===================================================================== *)

Lemma fetch_count_app (w evs : world) :
  fetch_count (w ++ evs) = fetch_count w + fetch_count evs.
Proof. unfold fetch_count. rewrite filter_app, length_app. reflexivity. Qed.

Lemma fetch_count_nil : fetch_count [] = 0.
Proof. reflexivity. Qed.

Lemma fetch_count_cons_fetch (r : Request) (evs : world) :
  fetch_count (Fetch r :: evs) = S (fetch_count evs).
Proof. reflexivity. Qed.

Lemma fetch_count_cons_sleep (ms : Z) (evs : world) :
  fetch_count (Sleep ms :: evs) = fetch_count evs.
Proof. reflexivity. Qed.

Create Rewrite HintDb world_log.
#[export] Hint Rewrite fetch_count_app fetch_count_nil fetch_count_cons_fetch
  fetch_count_cons_sleep : world_log.

Section RemoteApiClient.

Variable net : nat -> FetchResult.
Variables (token : jsstring) (path : ApiPath) (body : RequestBody).

Local Abbreviation request := (ApiRequest token path body).

Lemma apiCall_attempt_rate_limited (retries attempt : nat) (w : world) :
  rate_limited (net (fetch_count w)) ->
  apiCall_attempt net token path body retries attempt w
  = (Returned Continue,
     w ++ [Fetch request; Sleep (1000 * 2 ^ Z.of_nat attempt)]).
Proof.
  intros (r & Hr & Hs).
  unfold apiCall_attempt, try_catch, bind, fetch. rewrite Hr.
  unfold Response.ok. rewrite Hs. simpl.
  unfold sleep, ret. rewrite <- app_assoc. reflexivity.
Qed.

Lemma apiCall_loop_rate_limited (retries remaining : nat) :
  forall (attempt : nat) (w : world),
    (forall k, k < remaining -> rate_limited (net (fetch_count w + k))) ->
    apiCall_loop net token path body retries remaining attempt w
    = (Returned None, w ++ rate_limited_log request (seq attempt remaining)).
Proof.
  induction remaining as [|k IH]; intros attempt w H.
  - simpl. unfold ret. rewrite app_nil_r. reflexivity.
  - simpl. unfold bind at 1.
    rewrite apiCall_attempt_rate_limited
      by (specialize (H 0); rewrite Nat.add_0_r in H; apply H; lia).
    rewrite IH.
    + rewrite <- app_assoc. reflexivity.
    + intros j Hj. autorewrite with world_log.
      replace (fetch_count w + 1 + j) with (fetch_count w + S j) by lia.
      apply H. lia.
Qed.

(** C2.  When each of the [retries] attempts is answered with HTTP 429,
    [apiCall] pauses [1000 * 2 ^ attempt] ms after every one of them, the
    last included, leaves the loop and returns [undefined]: no error is
    thrown.  (The pauses do double from one attempt to the next.) *)
Theorem apiCall_rate_limit_exhaustion_returns_undefined (retries : nat)
    (w : world) :
  (forall k, k < retries -> rate_limited (net (fetch_count w + k))) ->
  apiCall net token path body retries w
  = (Returned None, w ++ rate_limited_log request (seq 1 retries)).
Proof. intros H. unfold apiCall. apply apiCall_loop_rate_limited, H. Qed.

Lemma apiCall_attempt_failure (retries attempt : nat) (w : world) (e : Error) :
  failure_of path (net (fetch_count w)) = Some e ->
  apiCall_attempt net token path body retries attempt w
  = if attempt =? retries
    then (Thrown e, w ++ [Fetch request])
    else (Returned Continue,
          w ++ [Fetch request; Sleep (1000 * Z.of_nat attempt)]).
Proof.
  intros H. unfold failure_of in H.
  unfold apiCall_attempt, try_catch, bind, fetch, response_json.
  destruct (net (fetch_count w)) as [reason | r].
  - injection H as <-.
    destruct (attempt =? retries); unfold throw, sleep, ret; simpl;
      rewrite <- ?app_assoc; reflexivity.
  - destruct (negb (Response.ok r)).
    + destruct (Response.status r =? 429)%Z; [discriminate|].
      injection H as <-.
      destruct (attempt =? retries); unfold throw, sleep, ret; simpl;
        rewrite <- ?app_assoc; reflexivity.
    + destruct (Response.json r) as [d|].
      * unfold ret at 1.
        destruct (code d =? 0)%Z; [discriminate|].
        destruct (code d =? 99991400)%Z; [discriminate|].
        injection H as <-. simpl.
        destruct (attempt =? retries); unfold throw, sleep, ret; simpl;
          rewrite <- ?app_assoc; reflexivity.
      * injection H as <-.
        destruct (attempt =? retries); unfold throw, sleep, ret; simpl;
          rewrite <- ?app_assoc; reflexivity.
Qed.

(** When every attempt fails otherwise (network failure, another HTTP
    error, an unreadable body, another application code), [apiCall] pauses
    [1000 * attempt] ms between attempts and throws the error of the last
    one. *)
Lemma apiCall_loop_failures (retries remaining : nat) :
  forall (attempt : nat) (w : world) (errors : nat -> Error),
    attempt + remaining = S retries ->
    0 < remaining ->
    (forall k, k < remaining ->
               failure_of path (net (fetch_count w + k)) = Some (errors k)) ->
    apiCall_loop net token path body retries remaining attempt w
    = (Thrown (errors (remaining - 1)), w ++ failure_log request remaining attempt).
Proof.
  induction remaining as [|k IH]; intros attempt w errors Hsum Hpos H; [lia|].
  simpl apiCall_loop. unfold bind at 1.
  rewrite (apiCall_attempt_failure retries attempt w (e := errors 0))
    by (rewrite <- (H 0) by lia; rewrite Nat.add_0_r; reflexivity).
  destruct k as [|k].
  - replace (attempt =? retries) with true
      by (symmetry; apply Nat.eqb_eq; lia).
    reflexivity.
  - replace (attempt =? retries) with false
      by (symmetry; apply Nat.eqb_neq; lia).
    rewrite (IH (S attempt) _ (fun j => errors (S j))).
    + simpl failure_log. rewrite <- app_assoc.
      replace (S (S k) - 1) with (S (S k - 1)) by lia. reflexivity.
    + lia.
    + lia.
    + intros j Hj. autorewrite with world_log.
      replace (fetch_count w + 1 + j) with (fetch_count w + S j) by lia.
      apply H. lia.
Qed.

Lemma apiCall_failures_throw_last (retries : nat) (w : world)
    (errors : nat -> Error) :
  0 < retries ->
  (forall k, k < retries ->
             failure_of path (net (fetch_count w + k)) = Some (errors k)) ->
  apiCall net token path body retries w
  = (Thrown (errors (retries - 1)), w ++ failure_log request retries 1).
Proof.
  intros Hpos H. unfold apiCall. apply apiCall_loop_failures; auto; lia.
Qed.

End RemoteApiClient.

Section SchemaGenerator.

Variable net : nat -> FetchResult.
Variable JSON_parse : jsstring -> option Parsed.
Variables (apiKey userPrompt : jsstring).

Local Abbreviation request := (GeminiRequest apiKey userPrompt).

Lemma generate_attempt_run (attempt : nat) (w : world) :
  generate_attempt net JSON_parse apiKey userPrompt attempt w
  = (attempt_outcome JSON_parse (net (fetch_count w)) attempt, w ++ [Fetch request]).
Proof.
  unfold generate_attempt, bind, fetch, attempt_outcome, lift.
  destruct (net (fetch_count w)); reflexivity.
Qed.

Lemma generate_loop_step_failure (lastError : option Error)
    (k attempt : nat) (w : world) (e : Error) :
  attempt_outcome JSON_parse (net (fetch_count w)) attempt = Thrown e ->
  generate_loop net JSON_parse apiKey userPrompt lastError (S k) attempt w
  = generate_loop net JSON_parse apiKey userPrompt (Some e) k (S attempt)
      (w ++ retry_log request 1 attempt).
Proof.
  intros H. simpl generate_loop. unfold bind at 1, try_catch, bind at 1.
  rewrite generate_attempt_run, H. simpl retry_log. rewrite app_nil_r.
  destruct (attempt <? MAX_ATTEMPTS); unfold bind, sleep, ret; simpl;
    rewrite <- ?app_assoc; reflexivity.
Qed.

Lemma retry_log_S (failed attempt : nat) :
  retry_log request (S failed) attempt
  = retry_log request 1 attempt ++ retry_log request failed (S attempt).
Proof. simpl. rewrite app_nil_r. reflexivity. Qed.

Lemma fetch_count_retry_log (failed attempt : nat) :
  fetch_count (retry_log request failed attempt) = failed.
Proof.
  revert attempt; induction failed as [|k IH]; intros attempt; [reflexivity|].
  rewrite retry_log_S, fetch_count_app, IH. simpl.
  destruct (attempt <? MAX_ATTEMPTS); reflexivity.
Qed.

Lemma generate_loop_all_fail (remaining : nat) :
  forall (attempt : nat) (w : world) (lastError : option Error),
    0 < remaining ->
    (forall k, k < remaining ->
               attempt_fails JSON_parse (net (fetch_count w + k)) (attempt + k)) ->
    exists e,
      attempt_outcome JSON_parse (net (fetch_count w + (remaining - 1)))
        (attempt + (remaining - 1)) = Thrown e
      /\ generate_loop net JSON_parse apiKey userPrompt lastError remaining
           attempt w
         = (Thrown (AiFailed e), w ++ retry_log request remaining attempt).
Proof.
  induction remaining as [|k IH]; intros attempt w lastError Hpos H; [lia|].
  destruct (H 0 ltac:(lia)) as [e0 He0].
  rewrite !Nat.add_0_r in He0.
  rewrite (generate_loop_step_failure lastError k attempt w He0).
  destruct k as [|k].
  - exists e0. simpl. rewrite !Nat.add_0_r. split; [exact He0 | reflexivity].
  - destruct (IH (S attempt) (w ++ retry_log request 1 attempt) (Some e0)
                ltac:(lia)) as [e [He Hrun]].
    + intros j Hj. rewrite fetch_count_app, fetch_count_retry_log.
      replace (fetch_count w + 1 + j) with (fetch_count w + S j) by lia.
      replace (S attempt + j) with (attempt + S j) by lia.
      apply H. lia.
    + exists e. split.
      * rewrite fetch_count_app, fetch_count_retry_log in He.
        replace (fetch_count w + (S (S k) - 1))
          with (fetch_count w + 1 + (S k - 1)) by lia.
        replace (attempt + (S (S k) - 1))
          with (S attempt + (S k - 1)) by lia.
        exact He.
      * rewrite Hrun, (retry_log_S (S k)), <- app_assoc. reflexivity.
Qed.

Lemma generate_loop_first_success (failed : nat) :
  forall (remaining attempt : nat) (w : world) (lastError : option Error)
         (s : Schema.t),
    failed < remaining ->
    (forall k, k < failed ->
               attempt_fails JSON_parse (net (fetch_count w + k)) (attempt + k)) ->
    attempt_outcome JSON_parse (net (fetch_count w + failed)) (attempt + failed)
      = Returned s ->
    generate_loop net JSON_parse apiKey userPrompt lastError remaining
      attempt w
    = (Returned s, w ++ retry_log request failed attempt ++ [Fetch request]).
Proof.
  induction failed as [|n IH]; intros remaining attempt w lastError s Hlt H Hs.
  - destruct remaining as [|k]; [lia|].
    rewrite !Nat.add_0_r in Hs.
    simpl generate_loop. unfold bind at 1, try_catch, bind at 1.
    rewrite generate_attempt_run, Hs. reflexivity.
  - destruct remaining as [|k]; [lia|].
    destruct (H 0 ltac:(lia)) as [e0 He0].
    rewrite !Nat.add_0_r in He0.
    rewrite (generate_loop_step_failure lastError k attempt w He0).
    rewrite (IH k (S attempt) _ (Some e0) s).
    + rewrite (retry_log_S n), <- !app_assoc. reflexivity.
    + lia.
    + intros j Hj. rewrite fetch_count_app, fetch_count_retry_log.
      replace (fetch_count w + 1 + j) with (fetch_count w + S j) by lia.
      replace (S attempt + j) with (attempt + S j) by lia.
      apply H. lia.
    + rewrite fetch_count_app, fetch_count_retry_log.
      replace (fetch_count w + 1 + n) with (fetch_count w + S n) by lia.
      replace (S attempt + n) with (attempt + S n) by lia.
      exact Hs.
Qed.

(** C7.  With an API key configured: when each of the five attempts fails,
    [generateSchemaFromAI] sends exactly five requests, pausing 1000, 2000,
    4000 and 8000 ms between them (each pause twice the previous one, none
    after the fifth), and then throws its final error, which wraps the error
    of the fifth attempt; and when attempt [failed + 1] is the first that
    yields a valid schema, that schema is returned after exactly
    [failed + 1] requests, with the pauses 1000, 2000, ... between them and
    nothing after the successful request. *)
Theorem generateSchemaFromAI_attempts (w : world) :
  apiKey <> [] ->
  ((forall k, k < 5 -> attempt_fails JSON_parse (net (fetch_count w + k)) (S k)) ->
   exists e,
     attempt_outcome JSON_parse (net (fetch_count w + 4)) 5 = Thrown e
     /\ generateSchemaFromAI net JSON_parse userPrompt (Some apiKey) w
        = (Thrown (AiFailed e),
           w ++ [Fetch request; Sleep 1000; Fetch request; Sleep 2000;
                 Fetch request; Sleep 4000; Fetch request; Sleep 8000;
                 Fetch request]))
  /\ (forall (failed : nat) (s : Schema.t),
        failed < 5 ->
        (forall k, k < failed ->
                   attempt_fails JSON_parse (net (fetch_count w + k)) (S k)) ->
        attempt_outcome JSON_parse (net (fetch_count w + failed)) (S failed)
          = Returned s ->
        exists log,
          generateSchemaFromAI net JSON_parse userPrompt (Some apiKey) w
            = (Returned s, w ++ log ++ [Fetch request])
          /\ fetch_count log = failed
          /\ pauses log = map (fun k => 1000 * 2 ^ Z.of_nat k)%Z (seq 0 failed)).
Proof.
  intros Hkey.
  assert (Hgen : generateSchemaFromAI net JSON_parse userPrompt (Some apiKey)
                 = generate_loop net JSON_parse apiKey userPrompt None
                     MAX_ATTEMPTS 1).
  { unfold generateSchemaFromAI. destruct apiKey; [congruence | reflexivity]. }
  rewrite Hgen. split.
  - intros H.
    destruct (generate_loop_all_fail (remaining := MAX_ATTEMPTS) 1 w None
                ltac:(unfold MAX_ATTEMPTS; lia)) as [e [He Hrun]].
    + intros k Hk. apply (H k Hk).
    + exists e. split; [exact He | exact Hrun].
  - intros failed s Hlt H Hs.
    exists (retry_log request failed 1). split; [|split].
    + apply generate_loop_first_success; auto.
    + apply fetch_count_retry_log.
    + clear - Hlt. unfold MAX_ATTEMPTS in *.
      do 5 (destruct failed as [|failed]; [reflexivity|]). lia.
Qed.

End SchemaGenerator.

(** ** Recovery of the JSON text *)

Section JsonRecovery.

Variable JSON_parse : jsstring -> option Parsed.

(** Where the code does what the three strategies promise: the whole text
    parses; or it does not and the fenced block does; or the fenced block
    does not parse and the brace span does. *)
Lemma parseRawText_succeeds (rawText : jsstring) (v : Parsed) :
  JSON_parse rawText = Some v
  \/ (JSON_parse rawText = None
      /\ exists group1, group1 <> []
           /\ fence_match rawText = Some group1
           /\ (JSON_parse group1 = Some v
               \/ (JSON_parse group1 = None
                   /\ exists jsonText, brace_span rawText = Some jsonText
                                       /\ JSON_parse jsonText = Some v))) ->
  parseRawText JSON_parse rawText = Returned (Some v).
Proof.
  unfold parseRawText.
  intros [-> | (-> & g & Hg & -> & H)]; [reflexivity|].
  destruct g as [|c g]; [congruence|].
  destruct H as [-> | (-> & t & -> & ->)]; reflexivity.
Qed.

Lemma lazy_group_unfold (c : N) (s : jsstring) :
  lazy_group (c :: s)
  = if closes_here (c :: s) then Some []
    else option_map (cons c) (lazy_group s).
Proof. reflexivity. Qed.

Lemma lazy_group_none_closes (s : jsstring) :
  lazy_group s = None -> closes_here s = false.
Proof.
  destruct s as [|d s']; [reflexivity|].
  rewrite lazy_group_unfold.
  destruct (closes_here (d :: s')); [discriminate | reflexivity].
Qed.

(** Giving the greedy [\s*] back some of its white space cannot make the
    rest of the pattern match. *)
Lemma lazy_group_whitespace (c : N) (s : jsstring) :
  is_whitespace c = true ->
  lazy_group s = None -> lazy_group (c :: s) = None.
Proof.
  intros Hc Hs. rewrite lazy_group_unfold, Hs.
  assert (E : closes_here (c :: s) = closes_here s).
  { unfold closes_here. simpl skip_ws. rewrite Hc. reflexivity. }
  rewrite E, (lazy_group_none_closes s Hs). reflexivity.
Qed.

(** C1.  The brace scan sits in the [catch] of the fenced-block attempt, so
    it runs only when a fenced block was found and [JSON.parse] threw on
    its contents.  When the whole text does not parse and it holds no
    fenced block (or an empty one), nothing is thrown, [parsedData] stays
    [null] and the attempt ends in the parse error
    [NoJsonExtracted], whatever the brace span would have parsed to. *)
Theorem parseRawText_skips_brace_scan_without_fence (rawText : jsstring) :
  JSON_parse rawText = None ->
  fence_match rawText = None \/ fence_match rawText = Some [] ->
  parseRawText JSON_parse rawText = Returned None
  /\ validate None = Thrown NoJsonExtracted
  /\ forall (attempt : nat) (r : Response.t) (result : ResponseBody),
       Response.ok r = true ->
       Response.json r = Some result ->
       candidate_text result = Some rawText ->
       rawText <> [] ->
       read_response JSON_parse attempt r = Thrown NoJsonExtracted.
Proof.
  intros Hparse Hfence.
  assert (E : parseRawText JSON_parse rawText = Returned None).
  { unfold parseRawText. rewrite Hparse.
    destruct Hfence as [-> | ->]; reflexivity. }
  split; [exact E | split; [reflexivity|]].
  intros attempt r result Hok Hjson Htext Hne.
  unfold read_response. rewrite Hok, Hjson, Htext. simpl.
  destruct rawText; [congruence|]. rewrite E. reflexivity.
Qed.

End JsonRecovery.

(** ** What a computation adds to the log *)

Lemma extends_with_refl (P : event -> Prop) (w : world) : extends_with P w w.
Proof. exists []. rewrite app_nil_r. auto. Qed.

Lemma extends_with_trans (P : event -> Prop) (w1 w2 w3 : world) :
  extends_with P w1 w2 -> extends_with P w2 w3 -> extends_with P w1 w3.
Proof.
  intros (l1 & -> & H1) (l2 & -> & H2). exists (l1 ++ l2).
  rewrite app_assoc. split; [reflexivity | apply Forall_app; auto].
Qed.

Lemma emits_ret {A} (P : event -> Prop) (a : A) : emits P (ret a).
Proof. intros w. apply extends_with_refl. Qed.

Lemma emits_throw {A} (P : event -> Prop) (e : Error) : emits P (@throw A e).
Proof. intros w. apply extends_with_refl. Qed.

Lemma emits_lift {A} (P : event -> Prop) (o : outcome A) : emits P (lift o).
Proof. intros w. apply extends_with_refl. Qed.

Lemma emits_sleep (P : event -> Prop) (ms : Z) :
  P (Sleep ms) -> emits P (sleep ms).
Proof. intros H w. exists [Sleep ms]. simpl. auto. Qed.

Lemma emits_fetch (P : event -> Prop) (net : nat -> FetchResult) (r : Request) :
  P (Fetch r) -> emits P (fetch net r).
Proof.
  intros H w. exists [Fetch r]. unfold fetch.
  destruct (net (fetch_count w)); simpl; auto.
Qed.

Lemma emits_bind {A B} (P : event -> Prop) (m : M A) (k : A -> M B) :
  emits P m -> (forall a, emits P (k a)) -> emits P (bind m k).
Proof.
  intros Hm Hk w. unfold bind. specialize (Hm w).
  destruct (m w) as [[a | e] w1]; simpl in *.
  - eapply extends_with_trans; [exact Hm | apply Hk].
  - exact Hm.
Qed.

Lemma emits_try_catch {A} (P : event -> Prop) (m : M A) (h : Error -> M A) :
  emits P m -> (forall e, emits P (h e)) -> emits P (try_catch m h).
Proof.
  intros Hm Hh w. unfold try_catch. specialize (Hm w).
  destruct (m w) as [[a | e] w1]; simpl in *.
  - exact Hm.
  - eapply extends_with_trans; [exact Hm | apply Hh].
Qed.

Lemma emits_weaken {A} (P Q : event -> Prop) (m : M A) :
  (forall e, P e -> Q e) -> emits P m -> emits Q m.
Proof.
  intros HPQ Hm w. destruct (Hm w) as (log & E & H).
  exists log. split; [exact E | eapply Forall_impl; eauto].
Qed.

Lemma returns_ret {A} (a : A) : returns (ret a).
Proof. intros w. exists a, w. reflexivity. Qed.

Lemma returns_sleep (ms : Z) : returns (sleep ms).
Proof. intros w. eexists _, _. reflexivity. Qed.

Lemma returns_bind {A B} (m : M A) (k : A -> M B) :
  returns m -> (forall a, returns (k a)) -> returns (bind m k).
Proof.
  intros Hm Hk w. destruct (Hm w) as (a & w1 & E).
  unfold bind. rewrite E. apply Hk.
Qed.

Lemma returns_try_catch {A} (m : M A) (h : Error -> M A) :
  (forall e, returns (h e)) -> returns (try_catch m h).
Proof.
  intros Hh w. unfold try_catch.
  destruct (m w) as [[a | e] w1]; [eexists _, _; reflexivity | apply Hh].
Qed.

Create HintDb run.
#[export] Hint Resolve emits_ret emits_throw emits_lift emits_sleep emits_fetch
  emits_bind emits_try_catch returns_ret returns_sleep returns_bind
  returns_try_catch : run.

Lemma is_sleep_intro (ms : Z) : is_sleep (Sleep ms).
Proof. exists ms. reflexivity. Qed.

#[export] Hint Resolve is_sleep_intro : run.

(** [apiCall] sends one request, possibly several times, and pauses. *)
Lemma emits_apiCall (P : event -> Prop) (net : nat -> FetchResult)
    (token : jsstring) (path : ApiPath) (body : RequestBody) (retries : nat) :
  P (Fetch (ApiRequest token path body)) ->
  (forall ms, P (Sleep ms)) ->
  emits P (apiCall net token path body retries).
Proof.
  intros Hf Hs. unfold apiCall. generalize 1 as attempt.
  generalize retries at 2 as remaining.
  induction remaining as [|k IH]; intros attempt; simpl; auto with run.
  apply emits_bind.
  - unfold apiCall_attempt. apply emits_try_catch.
    + apply emits_bind; auto with run. intros response.
      destruct (negb (Response.ok response)).
      * destruct (Response.status response =? 429)%Z; auto with run.
      * apply emits_bind.
        { unfold response_json. destruct (Response.json response);
            auto with run. }
        intros d. destruct (negb (code d =? 0)%Z); auto with run.
        destruct ((code d =? 99991400)%Z && (attempt <? retries));
          auto with run.
    + intros e. destruct (attempt =? retries); auto with run.
  - intros [d|]; auto with run.
Qed.

(** ** Sample records *)

Lemma In_firstn {A} (n : nat) (l : list A) (x : A) :
  In x (firstn n l) -> In x l.
Proof.
  intros H. rewrite <- (firstn_skipn n l). apply in_or_app. auto.
Qed.

Lemma In_skipn {A} (n : nat) (l : list A) (x : A) :
  In x (skipn n l) -> In x l.
Proof.
  intros H. rewrite <- (firstn_skipn n l). apply in_or_app. auto.
Qed.

Section SampleRecords.

Variable net : nat -> FetchResult.
Variable timestamp : nat -> nat -> Z.
Variables (token appToken : jsstring) (tableId : option jsstring).

Lemma record_loop_null (fields : list Field.t) (i : nat) :
  forall (j : nat) (recordFields : RecordFields),
    (forall k field, nth_error fields k = Some field ->
                     generateDummyData (Field.type field)
                       (options_or_empty field) i (timestamp i (j + k)) = None) ->
    record_loop timestamp fields i j recordFields = recordFields.
Proof.
  induction fields as [|field rest IH]; intros j recordFields H; [reflexivity|].
  simpl. pose proof (H 0 field eq_refl) as H0.
  rewrite Nat.add_0_r in H0. rewrite H0.
  apply IH. intros k f Hk.
  replace (S j + k) with (j + S k) by lia. apply H. exact Hk.
Qed.

Lemma row_is_null_empty (fields : list Field.t) (i : nat) :
  row_is_null timestamp fields i -> record_loop timestamp fields i 0 [] = [].
Proof. intros H. apply record_loop_null. exact H. Qed.

(** The rows kept by the outer loop: the synthesized rows that have at
    least one property, in order. *)
Lemma rows_loop_filter (fields : list Field.t) (rows : list nat) :
  forall records,
    rows_loop timestamp fields rows records
    = records ++ filter (fun r => negb (is_empty_record r))
                   (map (fun i => record_loop timestamp fields i 0 []) rows).
Proof.
  induction rows as [|i rest IH]; intros records; simpl.
  - rewrite app_nil_r. reflexivity.
  - rewrite IH. destruct (record_loop timestamp fields i 0 []); simpl.
    + reflexivity.
    + rewrite <- app_assoc. reflexivity.
Qed.

Lemma rows_loop_In (fields : list Field.t) (rows : list nat) (r : RecordFields) :
  In r (rows_loop timestamp fields rows []) ->
  exists i, In i rows
            /\ r = record_loop timestamp fields i 0 []
            /\ r <> []
            /\ ~ row_is_null timestamp fields i.
Proof.
  rewrite rows_loop_filter. simpl. intros H.
  apply filter_In in H. destruct H as [H Hne].
  apply in_map_iff in H. destruct H as (i & <- & Hi).
  exists i. repeat split; auto.
  - intros E. rewrite E in Hne. discriminate.
  - intros Hnull. rewrite (row_is_null_empty Hnull) in Hne. discriminate.
Qed.

Lemma emits_batch_loop (all : list RecordFields) (offsets : list nat) :
  forall allResults,
    emits (batch_event token appToken tableId all)
      (batch_loop net token appToken tableId all offsets allResults).
Proof.
  induction offsets as [|i rest IH]; intros allResults; simpl; auto with run.
  apply emits_bind; [|intros a; apply IH].
  apply emits_try_catch; [|auto with run].
  apply emits_bind.
  - apply emits_apiCall.
    + right. exists i. reflexivity.
    + intros ms. left. auto with run.
  - intros [r|]; auto with run.
    apply emits_bind; auto with run.
    destruct (i + batchSize <? length all); auto with run.
    apply emits_sleep. left. auto with run.
Qed.

Lemma submitted_batches_slices (all : list RecordFields) (log : list event) :
  Forall (batch_event token appToken tableId all) log ->
  forall batch, In batch (submitted_batches log) ->
                exists i, batch = firstn batchSize (skipn i all).
Proof.
  intros H batch Hin. unfold submitted_batches in Hin.
  apply in_flat_map in Hin. destruct Hin as (e & He & Hb).
  rewrite Forall_forall in H. destruct (H e He) as [[ms ->] | [i ->]].
  - destruct Hb.
  - simpl in Hb. destruct Hb as [<- | []]. exists i. reflexivity.
Qed.

(** C8.  Whatever [addSampleRecords] submits was synthesized from a row
    index below [count] in which at least one field is not [null], and has
    at least one property: a row whose fields are all [null] is in no
    submitted batch.  When no row is left after the filtering, nothing is
    added to the log (no request is sent) and the records list returned is
    empty. *)
Theorem addSampleRecords_drops_null_rows (fields : list Field.t) (count : Z)
    (w : world) :
  exists log,
    snd (addSampleRecords net timestamp token appToken tableId fields count w)
      = w ++ log
    /\ (forall batch r,
          In batch (submitted_batches log) -> In r batch ->
          exists i, i < Z.to_nat count
                    /\ r = record_loop timestamp fields i 0 []
                    /\ r <> []
                    /\ ~ row_is_null timestamp fields i)
    /\ (rows_loop timestamp fields (seq 0 (Z.to_nat count)) [] = [] ->
        addSampleRecords net timestamp token appToken tableId fields count w
          = (Returned [], w)
        /\ log = []).
Proof.
  unfold addSampleRecords.
  destruct ((count <=? 0)%Z || (length fields =? 0)) eqn:Hguard.
  - exists []. simpl. rewrite app_nil_r. repeat split; auto.
    intros batch r [].
  - remember (rows_loop timestamp fields (seq 0 (Z.to_nat count)) []) as all
      eqn:Hall.
    destruct all as [|r0 all'].
    + exists []. simpl. rewrite app_nil_r. repeat split; auto.
      intros batch r [].
    + destruct (emits_batch_loop (r0 :: all')
                  (batch_offsets (length (r0 :: all'))) [] w)
        as (log & Hlog & Hevents).
      exists log. split; [exact Hlog | split].
      * intros batch r Hbatch Hr.
        destruct (submitted_batches_slices Hevents batch Hbatch) as [i ->].
        apply In_firstn, In_skipn in Hr. rewrite Hall in Hr.
        destruct (rows_loop_In _ _ _ Hr) as (k & Hk & Hrec & Hne & Hnn).
        exists k. apply in_seq in Hk. repeat split; auto. lia.
      * discriminate.
Qed.

End SampleRecords.

(** ** The orchestrator *)

Lemma bind_returned {A B} (m : M A) (k : A -> M B) (w w' : world) (a : A) :
  m w = (Returned a, w') -> bind m k w = k a w'.
Proof. intros H. unfold bind. rewrite H. reflexivity. Qed.

Lemma bind_thrown {A B} (m : M A) (k : A -> M B) (w w' : world) (e : Error) :
  m w = (Thrown e, w') -> bind m k w = (Thrown e, w').
Proof. intros H. unfold bind. rewrite H. reflexivity. Qed.

Lemma bind_inv {A B} (m : M A) (k : A -> M B) (w w' : world) (b : B) :
  bind m k w = (Returned b, w') ->
  exists a w1, m w = (Returned a, w1) /\ k a w1 = (Returned b, w').
Proof.
  unfold bind. destruct (m w) as [[a | e] w1]; intros H; [eauto | discriminate].
Qed.

Lemma status_success_not_failed : STATUS_SUCCESS <> STATUS_FAILED.
Proof. discriminate. Qed.

Section Orchestrator.

Variable net : nat -> FetchResult.
Variable JSON_parse : jsstring -> option Parsed.
Variable timestamp : nat -> nat -> Z.

Lemma returns_fields_loop (token appToken : jsstring) (tableId : option jsstring)
    (fields : list Field.t) :
  forall fieldsCreated,
    returns (fields_loop net token appToken tableId fields fieldsCreated).
Proof.
  induction fields as [|field rest IH]; intros fieldsCreated; simpl;
    auto with run.
Qed.

Lemma provision_table_outcome (token appToken : jsstring) (table : Table.t)
    (w : world) :
  exists r w',
    provision_table net timestamp token appToken table w = (Returned r, w')
    /\ table_outcome net token appToken table w r.
Proof.
  unfold provision_table, try_catch, table_outcome.
  destruct (create_table net token appToken table w) as [[id | e] w1] eqn:E.
  - rewrite (bind_returned _ _ _ E).
    rewrite (bind_returned (sleep 500) _ w1 (a := tt) (w' := w1 ++ [Sleep 500]) eq_refl).
    destruct (returns_fields_loop token appToken id (Table.fields table) 0
                (w1 ++ [Sleep 500])) as (n & w2 & Efields).
    rewrite (bind_returned _ _ _ Efields).
    match goal with
    | |- context [bind ?m _ w2] =>
        assert (Hrec : returns m)
          by (destruct ((0 <? Table.sampleDataCount table)%Z && (0 <? n));
              [apply returns_try_catch; intros e; apply returns_ret
              | apply returns_ret]);
        destruct (Hrec w2) as (k & w3 & Erecords);
        rewrite (bind_returned _ _ _ Erecords)
    end.
    eexists _, _. split; [reflexivity|]. simpl. eauto 10.
  - rewrite (bind_thrown _ _ _ E).
    eexists _, _. split; [reflexivity|]. simpl. auto.
Qed.

Lemma tables_loop_outcomes (token appToken : jsstring) (tables : list Table.t) :
  forall (results : list ProvisioningResult) (w : world),
  exists rs w',
    tables_loop net timestamp token appToken tables results w
      = (Returned (results ++ rs), w')
    /\ table_outcomes net timestamp token appToken tables w rs w'.
Proof.
  induction tables as [|table rest IH]; intros results w.
  - exists [], w. simpl. rewrite app_nil_r. split; [reflexivity | constructor].
  - destruct (provision_table_outcome token appToken table w)
      as (r & w1 & Erun & Hout).
    destruct (IH (results ++ [r]) w1) as (rs & w2 & Eloop & Hrest).
    exists (r :: rs), w2. split.
    + simpl. rewrite (bind_returned _ _ _ Erun), Eloop, <- app_assoc. reflexivity.
    + econstructor; eauto.
Qed.

Lemma table_outcomes_names (token appToken : jsstring) (tables : list Table.t)
    (w w' : world) (rs : list ProvisioningResult) :
  table_outcomes net timestamp token appToken tables w rs w' ->
  map tableName rs = map Table.name tables.
Proof.
  induction 1 as [|table rest w w1 w2 r rs _ [Hname _] _ IH]; simpl;
    [reflexivity | congruence].
Qed.

Lemma table_outcomes_statuses (token appToken : jsstring)
    (tables : list Table.t) (w w' : world) (rs : list ProvisioningResult) :
  table_outcomes net timestamp token appToken tables w rs w' ->
  Forall (fun r => status r = STATUS_SUCCESS \/ status r = STATUS_FAILED) rs.
Proof.
  induction 1 as [|table rest w w1 w2 r rs _ [_ Hst] _ IH]; constructor; auto.
  destruct (create_table net token appToken table w) as [[id | e] w0];
    [left | right]; apply Hst.
Qed.

Lemma count_status_partition (rs : list ProvisioningResult) :
  Forall (fun r => status r = STATUS_SUCCESS \/ status r = STATUS_FAILED) rs ->
  count_status STATUS_SUCCESS rs + count_status STATUS_FAILED rs = length rs.
Proof.
  unfold count_status.
  induction 1 as [|r rs [Hs | Hs] _ IH]; simpl; [reflexivity | |];
    rewrite Hs; simpl; lia.
Qed.

(** On tables of the declared shape the loop never throws and records
    exactly one entry per table, in the order of the schema, each decided
    by the creation step of its table. *)
Lemma tables_loop_records_every_table (token appToken : jsstring)
    (tables : list Table.t) (w : world) :
  exists rs w',
    tables_loop net timestamp token appToken tables [] w = (Returned rs, w')
    /\ table_outcomes net timestamp token appToken tables w rs w'
    /\ map tableName rs = map Table.name tables
    /\ length rs = length tables.
Proof.
  destruct (tables_loop_outcomes token appToken tables [] w)
    as (rs & w' & Eloop & Hout).
  exists rs, w'. repeat split; auto.
  - eapply table_outcomes_names; eauto.
  - rewrite <- (length_map tableName rs), <- (length_map Table.name tables).
    f_equal. eapply table_outcomes_names; eauto.
Qed.

(** ** The loop on the elements the validation lets through *)

Lemma bind_unfold {A B} (m : M A) (k : A -> M B) (w : world) :
  bind m k w = match m w with
               | (Returned a, w') => k a w'
               | (Thrown e, w') => (Thrown e, w')
               end.
Proof. reflexivity. Qed.

Lemma try_catch_unfold {A} (m : M A) (h : Error -> M A) (w : world) :
  try_catch m h w = match m w with
                    | (Returned a, w') => (Returned a, w')
                    | (Thrown e, w') => h e w'
                    end.
Proof. reflexivity. Qed.

Lemma all_fields_typed (fields : list Field.t) :
  all_fields (map Some fields) = Some fields.
Proof.
  induction fields as [|f rest IH]; [reflexivity|].
  simpl. rewrite IH. reflexivity.
Qed.

(** One field: the [try] block with its [catch] returns, having counted
    the field or not. *)
Lemma field_step_returns (token appToken : jsstring)
    (tableId : option jsstring) (field : Field.t) (n : nat) (w : world) :
  exists n1 w1,
    try_catch
      (match getFieldProperty (Field.type field) (options_or_empty field) with
       | Undefined => ret n
       | Own p =>
           apiCall net token (PathFields appToken tableId)
             (BodyField (Field.name field) (Some (type p)) (property p))
             default_retries ;;
           sleep 300 ;;
           ret (S n)
       | Inherited _ =>
           apiCall net token (PathFields appToken tableId)
             (BodyField (Field.name field) None None)
             default_retries ;;
           sleep 300 ;;
           ret (S n)
       end)
      (fun _ => ret n) w
    = (Returned n1, w1)
    /\ n <= n1 <= S n.
Proof.
  unfold try_catch.
  destruct (getFieldProperty (Field.type field) (options_or_empty field))
    as [|p|name].
  - eexists _, _. split; [reflexivity | lia].
  - rewrite bind_unfold.
    destruct (apiCall net token (PathFields appToken tableId)
                (BodyField (Field.name field) (Some (type p)) (property p))
                default_retries w) as [[r | e] w1];
      eexists _, _; (split; [reflexivity | lia]).
  - rewrite bind_unfold.
    destruct (apiCall net token (PathFields appToken tableId)
                (BodyField (Field.name field) None None)
                default_retries w) as [[r | e] w1];
      eexists _, _; (split; [reflexivity | lia]).
Qed.

(** The field loop returns a count between its start and the number of
    fields when the array holds no [null], and throws otherwise. *)
Lemma entry_fields_loop_run (token appToken : jsstring)
    (tableId : option jsstring) (fields : list (option Field.t)) :
  forall (n : nat) (w : world),
    match all_fields fields with
    | Some typed =>
        exists n' w',
          entry_fields_loop net token appToken tableId fields n w
            = (Returned n', w')
          /\ n <= n' <= n + length typed
    | None =>
        exists w',
          entry_fields_loop net token appToken tableId fields n w
            = (Thrown TypeError, w')
    end.
Proof.
  induction fields as [|[field|] rest IH]; intros n w.
  - simpl. eexists _, _. split; [reflexivity | lia].
  - cbn [all_fields entry_fields_loop]. rewrite bind_unfold. cbv zeta.
    destruct (field_step_returns token appToken tableId field n w)
      as (n1 & w1 & E & Hn1).
    rewrite E. specialize (IH n1 w1).
    destruct (all_fields rest) as [typed|]; cbn [option_map].
    + destruct IH as (n' & w' & E' & Hn').
      exists n', w'. split; [exact E'|]. cbn [length]. lia.
    + exact IH.
  - simpl. eexists. reflexivity.
Qed.

Lemma entry_fields_loop_typed (token appToken : jsstring)
    (tableId : option jsstring) (fields : list Field.t) :
  forall (n : nat) (w : world),
    entry_fields_loop net token appToken tableId (map Some fields) n w
    = fields_loop net token appToken tableId fields n w.
Proof.
  induction fields as [|field rest IH]; intros n w; [reflexivity|].
  cbn [map entry_fields_loop fields_loop]. rewrite !bind_unfold. cbv zeta.
  destruct (field_step_returns token appToken tableId field n w)
    as (n1 & w1 & E & _).
  rewrite E. apply IH.
Qed.

Lemma entry_addSampleRecords_typed (token appToken : jsstring)
    (tableId : option jsstring) (fields : list Field.t) (count : Z)
    (w : world) :
  entry_addSampleRecords net timestamp token appToken tableId
    (map Some fields) count w
  = addSampleRecords net timestamp token appToken tableId fields count w.
Proof.
  unfold entry_addSampleRecords, addSampleRecords.
  rewrite length_map, all_fields_typed.
  destruct ((count <=? 0)%Z || (length fields =? 0)); reflexivity.
Qed.

(** The record step of a table returns. *)
Lemma records_step_returns (token appToken : jsstring)
    (tableId : option jsstring) (fields : list (option Field.t))
    (count : Z) (n : nat) (w : world) :
  exists k w',
    (if (0 <? count)%Z && (0 <? n)
     then
       try_catch
         (addRecordsRes <-
            entry_addSampleRecords net timestamp token appToken tableId
              fields (Z.min count 20) ;;
          ret (length addRecordsRes))
         (fun _ => ret 0)
     else ret 0) w
    = (Returned k, w').
Proof.
  destruct ((0 <? count)%Z && (0 <? n)); [|eexists _, _; reflexivity].
  unfold try_catch. rewrite bind_unfold.
  destruct (entry_addSampleRecords net timestamp token appToken tableId
              fields (Z.min count 20) w) as [[l | e] w1];
    eexists _, _; reflexivity.
Qed.

Lemma provision_entry_outcome (token appToken : jsstring) (table : Entry.t)
    (w : world) :
  exists r w',
    provision_entry net timestamp token appToken (Some table) w
      = (Returned r, w')
    /\ entry_outcome net token appToken table w r.
Proof.
  unfold provision_entry, entry_outcome, typed_fields.
  rewrite try_catch_unfold, bind_unfold.
  destruct (apiCall net token (PathTables appToken)
              (BodyName (Entry.name table)) default_retries w)
    as [[[res|] | e] w1].
  - rewrite bind_unfold. unfold data_of.
    destruct (data res) as [d|];
      [|eexists _, _; split; [reflexivity | simpl; auto 10]].
    unfold ret at 1. rewrite bind_unfold. unfold sleep at 1.
    rewrite bind_unfold.
    destruct (Entry.fields table) as [fields|];
      [|eexists _, _; split; [reflexivity | simpl; auto 10]].
    pose proof (entry_fields_loop_run token appToken (table_id d) fields 0
                  (w1 ++ [Sleep 500])) as Hloop.
    destruct (all_fields fields) as [typed|].
    + destruct Hloop as (n & w2 & E & Hn). rewrite E. rewrite bind_unfold.
      cbv beta iota zeta.
      destruct (records_step_returns token appToken (table_id d) fields
                  (Entry.sampleDataCount table) n w2) as (k & w3 & Erec).
      rewrite Erec.
      eexists _, _. split; [reflexivity|]. simpl.
      split; [reflexivity|]. split; [reflexivity|]. split; [reflexivity|].
      split; [exists n; split; [reflexivity | lia]|].
      split; [exists k; reflexivity | reflexivity].
    + destruct Hloop as (w2 & E). rewrite E.
      eexists _, _. split; [reflexivity | simpl; auto 10].
  - rewrite bind_unfold. unfold data_of, throw at 1.
    eexists _, _. split; [reflexivity | simpl; auto 10].
  - eexists _, _. split; [reflexivity | simpl; auto 10].
Qed.

Lemma entries_loop_outcomes (token appToken : jsstring)
    (tables : list Entry.t) :
  forall (results : list ProvisioningResult) (w : world),
  exists rs w',
    entries_loop net timestamp token appToken (map Some tables) results w
      = (Returned (results ++ rs), w')
    /\ entry_outcomes net timestamp token appToken tables w rs w'.
Proof.
  induction tables as [|table rest IH]; intros results w.
  - exists [], w. rewrite app_nil_r. split; [reflexivity | constructor].
  - destruct (provision_entry_outcome token appToken table w)
      as (r & w1 & E & Hr).
    destruct (IH (results ++ [r]) w1) as (rs & w' & Eloop & Hout).
    exists (r :: rs), w'. split.
    + cbn [map entries_loop]. rewrite bind_unfold, E, Eloop.
      rewrite <- app_assoc. reflexivity.
    + econstructor; eauto.
Qed.

Lemma entry_outcomes_names (token appToken : jsstring) (tables : list Entry.t)
    (w w' : world) (rs : list ProvisioningResult) :
  entry_outcomes net timestamp token appToken tables w rs w' ->
  map tableName rs = map Entry.name tables.
Proof.
  induction 1 as [|table rest w0 w1 w2 r rs _ [Hname _] _ IH];
    [reflexivity|].
  simpl. rewrite Hname, IH. reflexivity.
Qed.

(** A [null] element ends the loop: its error is thrown out of the loop in
    the world the elements before it have left, and no element after it is
    looked at. *)
Lemma entries_loop_null (token appToken : jsstring)
    (tables : list Entry.t) (rest : list (option Entry.t)) :
  forall (results : list ProvisioningResult) (w : world),
    entries_loop net timestamp token appToken (map Some tables ++ None :: rest)
      results w
    = (Thrown TypeError,
       snd (entries_loop net timestamp token appToken (map Some tables)
              results w)).
Proof.
  induction tables as [|table more IH]; intros results w; [reflexivity|].
  cbn [map]. rewrite <- app_comm_cons. cbn [entries_loop].
  rewrite !bind_unfold.
  destruct (provision_entry_outcome token appToken table w)
    as (r & w1 & E & _).
  rewrite E. cbv beta iota. apply IH.
Qed.

Lemma provision_entry_typed (token appToken : jsstring) (table : Table.t)
    (w : world) :
  provision_entry net timestamp token appToken (entry_of table) w
  = provision_table net timestamp token appToken table w.
Proof.
  unfold provision_entry, provision_table, entry_of, create_table.
  cbn [Entry.name Entry.fields Entry.sampleDataCount].
  unfold try_catch, bind, data_of, ret, sleep, throw.
  destruct (apiCall net token (PathTables appToken)
              (BodyName (Table.name table)) default_retries w)
    as [[[res|] | e] w1]; try reflexivity.
  destruct (data res) as [d|]; [|reflexivity].
  rewrite entry_fields_loop_typed.
  destruct (fields_loop net token appToken (table_id d) (Table.fields table)
              0 (w1 ++ [Sleep 500])) as [[n | e] w3]; [|reflexivity].
  destruct ((0 <? Table.sampleDataCount table)%Z && (0 <? n));
    [|reflexivity].
  rewrite entry_addSampleRecords_typed. reflexivity.
Qed.

Lemma entries_loop_typed (token appToken : jsstring) (tables : list Table.t) :
  forall (results : list ProvisioningResult) (w : world),
    entries_loop net timestamp token appToken (map entry_of tables) results w
    = tables_loop net timestamp token appToken tables results w.
Proof.
  induction tables as [|table rest IH]; intros results w; [reflexivity|].
  cbn [map entries_loop tables_loop]. rewrite !bind_unfold.
  rewrite provision_entry_typed.
  destruct (provision_table net timestamp token appToken table w)
    as [[r | e] w1]; [apply IH | reflexivity].
Qed.

(** The loop over [tables], on every array the validation lets through.
    When no element is [null], the loop never throws and records exactly
    one entry per element, in order, going on after a failure.  The entry
    of a table is decided by its table-creation call, run in the world its
    iteration starts in, and by the shape of the table: it is [Failed] with
    the error when the call threw, and [Failed] with a [TypeError] when the
    call returned nothing, when the body it returned has no [data], and
    when [table.fields] is not an array of objects, in the last two cases
    although the call succeeded; otherwise it is [Success], with the
    identifier of the answer, [fieldsCreated] (at most the number of
    fields, possibly 0) and [recordsAdded], whatever became of the field
    and record requests.  A [null] element ends the loop: a [TypeError] is
    thrown out of it in the world left by the elements before, and no later
    element is processed.  On tables of the declared shape the loop is
    [tables_loop]. *)
Lemma entries_loop_outcome_by_creation_call (token appToken : jsstring)
    (tables : list Entry.t) (w : world) :
  (exists rs w',
     entries_loop net timestamp token appToken (map Some tables) [] w
       = (Returned rs, w')
     /\ entry_outcomes net timestamp token appToken tables w rs w'
     /\ map tableName rs = map Entry.name tables
     /\ length rs = length tables)
  /\ (forall rest,
        entries_loop net timestamp token appToken
          (map Some tables ++ None :: rest) [] w
        = (Thrown TypeError,
           snd (entries_loop net timestamp token appToken (map Some tables)
                  [] w)))
  /\ (forall typed : list Table.t,
        entries_loop net timestamp token appToken (map entry_of typed) [] w
        = tables_loop net timestamp token appToken typed [] w).
Proof.
  split; [|split].
  - destruct (entries_loop_outcomes token appToken tables [] w)
      as (rs & w' & Eloop & Hout).
    exists rs, w'. repeat split; auto.
    + eapply entry_outcomes_names; eauto.
    + rewrite <- (length_map tableName rs),
        <- (length_map Entry.name tables).
      f_equal. eapply entry_outcomes_names; eauto.
  - intros rest. apply entries_loop_null.
  - intros typed. apply entries_loop_typed.
Qed.

(** C4.  A table whose creation call succeeded is not always recorded as
    [Success], and a failure can end the loop.  When the creation call of
    a table returns a body with [data] (the table exists) and
    [table.fields] is not an array of objects, the table is recorded as
    [Failed], with a [TypeError] and without identifier or counts; when
    [table.fields] is not an array at all, this happens right after the
    pause of 500 ms that follows the creation.  And when the next element
    of [tables] is [null], the loop throws a [TypeError] in the world that
    table has left: its entry is lost and no later element is processed. *)
Theorem created_table_recorded_failed (token appToken : jsstring)
    (table : Entry.t) (w w1 : world) (res : ResponseBody) (d : LarkData) :
  apiCall net token (PathTables appToken) (BodyName (Entry.name table))
    default_retries w = (Returned (Some res), w1) ->
  data res = Some d ->
  typed_fields table = None ->
  exists w',
    provision_entry net timestamp token appToken (Some table) w
    = (Returned (mkResult (Entry.name table) STATUS_FAILED None None None
                   (Some TypeError)),
       w')
    /\ (Entry.fields table = None -> w' = w1 ++ [Sleep 500])
    /\ (forall rest results,
          entries_loop net timestamp token appToken
            (Some table :: None :: rest) results w
          = (Thrown TypeError, w')).
Proof.
  intros Hcall Hdata Htyped.
  assert (Hrun : exists w',
    provision_entry net timestamp token appToken (Some table) w
    = (Returned (mkResult (Entry.name table) STATUS_FAILED None None None
                   (Some TypeError)),
       w')
    /\ (Entry.fields table = None -> w' = w1 ++ [Sleep 500])).
  { unfold provision_entry. rewrite try_catch_unfold, bind_unfold, Hcall.
    rewrite bind_unfold. unfold data_of. rewrite Hdata.
    unfold ret at 1. rewrite bind_unfold. unfold sleep at 1.
    rewrite bind_unfold. unfold typed_fields in Htyped.
    destruct (Entry.fields table) as [fields|].
    - pose proof (entry_fields_loop_run token appToken (table_id d) fields 0
                    (w1 ++ [Sleep 500])) as Hloop.
      rewrite Htyped in Hloop. destruct Hloop as (w2 & E). rewrite E.
      exists w2. split; [reflexivity | discriminate].
    - exists (w1 ++ [Sleep 500]). split; reflexivity. }
  destruct Hrun as (w' & E & Hw'). exists w'.
  split; [exact E|]. split; [exact Hw'|].
  intros rest results. cbn [entries_loop]. rewrite bind_unfold, E.
  reflexivity.
Qed.

Lemma skip_ws_whitespace (s : jsstring) :
  forallb is_whitespace s = true -> skip_ws s = [].
Proof.
  induction s as [|c s IH]; simpl; [reflexivity|].
  intros H. apply andb_true_iff in H. destruct H as [-> H]. auto.
Qed.

Lemma trim_whitespace (s : jsstring) :
  forallb is_whitespace s = true -> trim s = [].
Proof. intros H. unfold trim. rewrite (skip_ws_whitespace s H). reflexivity. Qed.

Lemma validate_returned (parsedData : option Parsed) (s : Schema.t) :
  validate parsedData = Returned s ->
  Schema.baseName s <> [] /\ Schema.tables s <> [].
Proof.
  unfold validate.
  destruct parsedData as [[|[[|c b]|] [[|t ts]|]]|]; try discriminate.
  intros H. injection H as <-. simpl. split; discriminate.
Qed.

Lemma read_response_returned (attempt : nat) (r : Response.t) (s : Schema.t) :
  read_response JSON_parse attempt r = Returned s ->
  Schema.baseName s <> [] /\ Schema.tables s <> [].
Proof.
  unfold read_response.
  destruct (negb (Response.ok r)); [discriminate|].
  destruct (Response.json r) as [result|]; [|discriminate].
  destruct (candidate_text result) as [[|c rawText]|]; try discriminate.
  destruct (parseRawText JSON_parse (c :: rawText)); [|discriminate].
  apply validate_returned.
Qed.

Lemma generate_loop_sound (apiKey userPrompt : jsstring) (remaining : nat) :
  forall (lastError : option Error) (attempt : nat) (w : world),
    extends_with generator_event w
      (snd (generate_loop net JSON_parse apiKey userPrompt lastError remaining
              attempt w))
    /\ forall s w',
        generate_loop net JSON_parse apiKey userPrompt lastError remaining
          attempt w = (Returned s, w') ->
        Schema.baseName s <> [] /\ Schema.tables s <> [].
Proof.
  induction remaining as [|k IH]; intros lastError attempt w.
  - simpl. destruct lastError; split;
      try apply extends_with_refl; discriminate.
  - pose proof (generate_attempt_run net JSON_parse apiKey userPrompt attempt w)
      as Hrun.
    assert (Hfetch : extends_with generator_event w
                       (w ++ [Fetch (GeminiRequest apiKey userPrompt)])).
    { eexists. split; [reflexivity|].
      constructor; [right; eauto | constructor]. }
    destruct (attempt_outcome JSON_parse (net (fetch_count w)) attempt)
      as [s | e] eqn:Hout.
    + assert (E : generate_loop net JSON_parse apiKey userPrompt lastError
                    (S k) attempt w
                  = (Returned s, w ++ [Fetch (GeminiRequest apiKey userPrompt)])).
      { simpl. unfold bind at 1, try_catch, bind at 1. rewrite Hrun.
        reflexivity. }
      rewrite E. split; [exact Hfetch|].
      intros s' w' H. injection H as <- <-.
      unfold attempt_outcome in Hout.
      destruct (net (fetch_count w)); [discriminate|].
      eapply read_response_returned; eauto.
    + rewrite (@generate_loop_step_failure net JSON_parse apiKey userPrompt
                 lastError k attempt w e Hout).
      destruct (IH (Some e) (S attempt)
                  (w ++ retry_log (GeminiRequest apiKey userPrompt) 1 attempt))
        as [Hext Hval].
      split; [|exact Hval].
      eapply extends_with_trans; [|exact Hext].
      eexists. split; [reflexivity|]. simpl.
      constructor; [right; eauto|].
      destruct (attempt <? MAX_ATTEMPTS);
        [constructor; [left; apply is_sleep_intro | constructor]
        | constructor].
Qed.

Lemma generateSchemaFromAI_sound (userPrompt : jsstring)
    (apiKey : option jsstring) (w : world) :
  extends_with generator_event w
    (snd (generateSchemaFromAI net JSON_parse userPrompt apiKey w))
  /\ forall s w',
      generateSchemaFromAI net JSON_parse userPrompt apiKey w = (Returned s, w') ->
      Schema.baseName s <> [] /\ Schema.tables s <> [].
Proof.
  unfold generateSchemaFromAI.
  destruct apiKey as [[|c key]|];
    try (split; [apply extends_with_refl | discriminate]).
  apply generate_loop_sound.
Qed.

(** C9.  [handleApiPost] answers HTTP 500 (a) to a prompt that is empty or
    made of white space only and (b) to a prompt of more than 2000 code
    units, in both cases leaving the log as it was: no request at all was
    sent; and (c) when the generated schema has more than 10 tables, with a
    log that holds, since the start of the call, only the requests to the
    AI endpoint and the pauses of the generator: no token request and no
    workspace API call were made. *)
Theorem handleApiPost_rejects_before_provisioning (env : Env) (w : world) :
  (forall prompt,
      forallb is_whitespace prompt = true ->
      handleApiPost net JSON_parse timestamp (Some prompt) env w
        = (Returned (Reply500 PromptMissing), w))
  /\ (forall prompt,
        2000 < length prompt ->
        exists e,
          (e = PromptTooLong \/ e = PromptMissing)
          /\ handleApiPost net JSON_parse timestamp (Some prompt) env w
             = (Returned (Reply500 e), w))
  /\ (forall prompt s w1,
        trim prompt <> [] ->
        length prompt <= 2000 ->
        generateSchemaFromAI net JSON_parse prompt (GEMINI_API_KEY env) w
          = (Returned s, w1) ->
        10 < length (Schema.tables s) ->
        handleApiPost net JSON_parse timestamp (Some prompt) env w
          = (Returned (Reply500 TooManyTables), w1)
        /\ exists log, w1 = w ++ log /\ no_workspace_request log).
Proof.
  split; [|split].
  - intros prompt Hws. unfold handleApiPost, try_catch.
    destruct prompt as [|c p]; [reflexivity|].
    rewrite (trim_whitespace _ Hws). reflexivity.
  - intros prompt Hlen. unfold handleApiPost, try_catch.
    destruct prompt as [|c p]; [simpl in Hlen; lia|].
    destruct (length (trim (c :: p)) =? 0).
    + exists PromptMissing. split; [auto | reflexivity].
    + apply Nat.ltb_lt in Hlen. rewrite Hlen.
      exists PromptTooLong. split; [auto | reflexivity].
  - intros prompt s w1 Htrim Hlen Hgen Htables.
    destruct (generateSchemaFromAI_sound prompt (GEMINI_API_KEY env) w)
      as [Hext Hvalid].
    rewrite Hgen in Hext. split; [|exact Hext].
    destruct (Hvalid s w1 Hgen) as [Hbase _].
    unfold handleApiPost, try_catch.
    destruct prompt as [|c p]; [elim Htrim; reflexivity|].
    replace (length (trim (c :: p)) =? 0) with false
      by (symmetry; apply Nat.eqb_neq; destruct (trim (c :: p));
          [congruence | discriminate]).
    replace (2000 <? length (c :: p)) with false
      by (symmetry; apply Nat.ltb_ge; exact Hlen).
    rewrite (bind_returned _ _ _ Hgen).
    replace (JsString.eqb (Schema.baseName s) []) with false
      by (destruct (Schema.baseName s); [congruence | reflexivity]).
    replace (length (Schema.tables s) =? 0) with false
      by (symmetry; apply Nat.eqb_neq; lia).
    replace (10 <? length (Schema.tables s)) with true
      by (symmetry; apply Nat.ltb_lt; exact Htables).
    reflexivity.
Qed.

(** What a 200 reply of [handleApiPost] was computed from. *)
Lemma handleApiPost_success (prompt : option jsstring) (env : Env)
    (w w' : world) (b : SuccessBody) :
  handleApiPost net JSON_parse timestamp prompt env w
    = (Returned (Reply200 b), w') ->
  exists p s w1 token w2 a,
    prompt = Some p
    /\ generateSchemaFromAI net JSON_parse p (GEMINI_API_KEY env) w
       = (Returned s, w1)
    /\ length (Schema.tables s) <= 10
    /\ tables_loop net timestamp token (app_token a) (Schema.tables s) [] w2
       = (Returned (details b), w')
    /\ baseName b = Schema.baseName s
    /\ baseUrl b = url a
    /\ summary b = mkSummary (length (Schema.tables s))
                     (count_status STATUS_SUCCESS (details b))
                     (count_status STATUS_FAILED (details b)).
Proof.
  unfold handleApiPost, try_catch. intros H.
  destruct prompt as [[|c p]|]; try discriminate.
  destruct (length (trim (c :: p)) =? 0); [discriminate|].
  destruct (2000 <? length (c :: p)); [discriminate|].
  destruct (generateSchemaFromAI net JSON_parse (c :: p) (GEMINI_API_KEY env) w)
    as [[s | e] w1] eqn:Egen;
    [rewrite (bind_returned _ _ _ Egen) in H
    | rewrite (bind_thrown _ _ _ Egen) in H; discriminate].
  destruct (JsString.eqb (Schema.baseName s) [] || (length (Schema.tables s) =? 0));
    [discriminate|].
  destruct (10 <? length (Schema.tables s)) eqn:Hten; [discriminate|].
  apply Nat.ltb_ge in Hten.
  destruct (getTenantAccessToken net env w1) as [[token | e] w2] eqn:Etok;
    [rewrite (bind_returned _ _ _ Etok) in H
    | rewrite (bind_thrown _ _ _ Etok) in H; discriminate].
  destruct (createBaseApp net token (Schema.baseName s) w2)
    as [[res | e] w3] eqn:Ebase;
    [rewrite (bind_returned _ _ _ Ebase) in H
    | rewrite (bind_thrown _ _ _ Ebase) in H; discriminate].
  destruct (data_of res w3) as [[d | e] w4] eqn:Edata;
    [rewrite (bind_returned _ _ _ Edata) in H
    | rewrite (bind_thrown _ _ _ Edata) in H; discriminate].
  destruct (app d) as [a|]; [|discriminate].
  destruct (tables_loop_outcomes token (app_token a) (Schema.tables s) [] w4)
    as (rs & w5 & Eloop & _).
  rewrite (bind_returned _ _ _ Eloop) in H.
  unfold ret in H. injection H as <- <-.
  exists (c :: p), s, w1, token, w4, a. simpl. repeat split; auto.
Qed.

(** Conversely, once the schema is accepted, the token obtained and the
    base created, the reply is 200 and lists the outcome of every table,
    whatever happened to the tables. *)
Lemma handleApiPost_after_base_creation (prompt : jsstring) (env : Env)
    (w w1 w2 w3 : world) (s : Schema.t) (token : jsstring)
    (res : ResponseBody) (d : LarkData) (a : AppInfo) :
  trim prompt <> [] ->
  length prompt <= 2000 ->
  generateSchemaFromAI net JSON_parse prompt (GEMINI_API_KEY env) w
    = (Returned s, w1) ->
  length (Schema.tables s) <= 10 ->
  getTenantAccessToken net env w1 = (Returned token, w2) ->
  createBaseApp net token (Schema.baseName s) w2 = (Returned (Some res), w3) ->
  data res = Some d ->
  app d = Some a ->
  exists rs w',
    handleApiPost net JSON_parse timestamp (Some prompt) env w
      = (Returned
           (Reply200
              (mkSuccess (Schema.baseName s) (url a)
                 (mkSummary (length (Schema.tables s))
                    (count_status STATUS_SUCCESS rs)
                    (count_status STATUS_FAILED rs))
                 rs)), w')
    /\ table_outcomes net timestamp token (app_token a) (Schema.tables s) w3 rs w'.
Proof.
  intros Htrim Hlen Hgen Hten Htok Hbase Hdata Happ.
  destruct (generateSchemaFromAI_sound prompt (GEMINI_API_KEY env) w)
    as [_ Hvalid].
  destruct (Hvalid s w1 Hgen) as [Hname Htables].
  destruct (tables_loop_outcomes token (app_token a) (Schema.tables s) [] w3)
    as (rs & w' & Eloop & Hout).
  exists rs, w'. split; [|exact Hout].
  unfold handleApiPost, try_catch.
  destruct prompt as [|c p]; [elim Htrim; reflexivity|].
  replace (length (trim (c :: p)) =? 0) with false
    by (symmetry; apply Nat.eqb_neq; destruct (trim (c :: p));
        [congruence | discriminate]).
  replace (2000 <? length (c :: p)) with false
    by (symmetry; apply Nat.ltb_ge; exact Hlen).
  rewrite (bind_returned _ _ _ Hgen). cbv beta zeta.
  replace (JsString.eqb (Schema.baseName s) []) with false
    by (destruct (Schema.baseName s); [congruence | reflexivity]).
  replace (length (Schema.tables s) =? 0) with false
    by (symmetry; apply Nat.eqb_neq; destruct (Schema.tables s);
        [congruence | discriminate]).
  replace (10 <? length (Schema.tables s)) with false
    by (symmetry; apply Nat.ltb_ge; exact Hten).
  cbn [orb].
  rewrite (bind_returned _ _ _ Htok), (bind_returned _ _ _ Hbase).
  unfold data_of at 1. rewrite Hdata.
  rewrite (bind_returned (ret d) _ w3 (a := d) (w' := w3) eq_refl).
  rewrite Happ. rewrite (bind_returned _ _ _ Eloop). reflexivity.
Qed.

(** C10.  When [handleApiPost] answers 200, its [details] hold exactly one
    entry per table of the schema that the generator returned, in order;
    the status of every entry is ['Success'] or ['Failed']; [totalTables]
    is the number of tables of the schema and [successfulTables] and
    [failedTables] add up to it. *)
Theorem handleApiPost_success_summary (prompt : option jsstring) (env : Env)
    (w w' : world) (b : SuccessBody) :
  handleApiPost net JSON_parse timestamp prompt env w
    = (Returned (Reply200 b), w') ->
  exists p s w1,
    prompt = Some p
    /\ generateSchemaFromAI net JSON_parse p (GEMINI_API_KEY env) w
       = (Returned s, w1)
    /\ length (details b) = length (Schema.tables s)
    /\ map tableName (details b) = map Table.name (Schema.tables s)
    /\ Forall (fun r => status r = STATUS_SUCCESS \/ status r = STATUS_FAILED)
         (details b)
    /\ totalTables (summary b) = length (Schema.tables s)
    /\ successfulTables (summary b) + failedTables (summary b)
       = totalTables (summary b).
Proof.
  intros H.
  destruct (handleApiPost_success _ _ _ H)
    as (p & s & w1 & token & w2 & a & -> & Egen & _ & Eloop & _ & _ & Esum).
  destruct (tables_loop_outcomes token (app_token a) (Schema.tables s) [] w2)
    as (rs & w3 & Eloop' & Hout).
  rewrite Eloop in Eloop'. simpl in Eloop'. injection Eloop' as Hd _.
  rewrite Hd in *.
  pose proof (table_outcomes_names Hout) as Hnames.
  pose proof (table_outcomes_statuses Hout) as Hst.
  exists p, s, w1. rewrite Esum.
  cbn [totalTables successfulTables failedTables]. repeat split; auto.
  - rewrite <- (length_map tableName rs),
      <- (length_map Table.name (Schema.tables s)). f_equal. exact Hnames.
  - rewrite (count_status_partition Hst).
    rewrite <- (length_map tableName rs),
      <- (length_map Table.name (Schema.tables s)). f_equal. exact Hnames.
Qed.

End Orchestrator.

Example fence_match_fenced_text :
  fence_match Sample.fenced_text = Some (Sample.json_schema Sample.crm).
Proof. vm_compute. reflexivity. Qed.

Example brace_span_chatty_text :
  brace_span Sample.chatty_text = Some (Sample.json_schema Sample.crm).
Proof. vm_compute. reflexivity. Qed.

(** The fenced answer parses to the same schema as the bare one. *)
Example parseRawText_fenced_as_unwrapped :
  parseRawText (Sample.parse_only Sample.crm) Sample.fenced_text
  = parseRawText (Sample.parse_only Sample.crm) (Sample.json_schema Sample.crm).
Proof. vm_compute. reflexivity. Qed.

Example handleApiPost_crm_run :
  fst (handleApiPost Sample.crm_network (Sample.parse_only Sample.crm)
         Sample.noon (Some Sample.crm_prompt) Sample.env [])
  = Returned (Reply200 Sample.crm_reply).
Proof. vm_compute. reflexivity. Qed.

(** The answer [chatty_text] does not parse as a whole and holds no fenced
    block; its brace span is the schema, yet the attempt fails. *)
Lemma parseRawText_skips_brace_scan_witness :
  (exists jsonText,
      brace_span Sample.chatty_text = Some jsonText
      /\ validate (Sample.parse_only Sample.crm jsonText) = Returned Sample.crm)
  /\ parseRawText (Sample.parse_only Sample.crm) Sample.chatty_text
     = Returned None
  /\ attempt_outcome (Sample.parse_only Sample.crm)
       (Sample.ai_answer Sample.chatty_text) 1
     = Thrown NoJsonExtracted.
Proof.
  destruct (@parseRawText_skips_brace_scan_without_fence
              (Sample.parse_only Sample.crm) Sample.chatty_text)
    as (Hparse & _ & Hattempt).
  - vm_compute. reflexivity.
  - left. vm_compute. reflexivity.
  - split; [|split].
    + eexists. split; vm_compute; reflexivity.
    + exact Hparse.
    + apply (Hattempt 1 _ (mkBody (Some Sample.chatty_text) 0 [] [] None));
        try reflexivity.
      discriminate.
Defined.

(** Three answers 429 in a row, with the default ceiling of three. *)
Lemma apiCall_rate_limit_exhaustion_witness :
  apiCall (fun _ => Sample.too_many_requests) #"t-1" PathApps (BodyName #"CRM")
    default_retries []
  = (Returned None,
     [ Fetch (ApiRequest #"t-1" PathApps (BodyName #"CRM")); Sleep 2000;
       Fetch (ApiRequest #"t-1" PathApps (BodyName #"CRM")); Sleep 4000;
       Fetch (ApiRequest #"t-1" PathApps (BodyName #"CRM")); Sleep 8000 ]).
Proof.
  apply (@apiCall_rate_limit_exhaustion_returns_undefined
           (fun _ => Sample.too_many_requests) #"t-1" PathApps (BodyName #"CRM")
           default_retries []).
  intros k _. eexists. split; reflexivity.
Defined.

(** Three server errors in a row: the last error is thrown, after pauses of
    1000 and 2000 ms. *)
Example apiCall_server_errors :
  apiCall (fun _ => Sample.server_error) #"t-1" PathApps (BodyName #"CRM")
    default_retries []
  = (Thrown (HttpError 500 #"Internal Server Error"),
     [ Fetch (ApiRequest #"t-1" PathApps (BodyName #"CRM")); Sleep 1000;
       Fetch (ApiRequest #"t-1" PathApps (BodyName #"CRM")); Sleep 2000;
       Fetch (ApiRequest #"t-1" PathApps (BodyName #"CRM")) ]).
Proof. vm_compute. reflexivity. Qed.

(** A base creation that is rate-limited three times ends in the
    [TypeError] of reading [.data] of [undefined]. *)
Example handleApiPost_rate_limited_base :
  fst (handleApiPost
         (Sample.scripted [ Sample.ai_answer Sample.fenced_text; Sample.token_ok;
                            Sample.too_many_requests; Sample.too_many_requests;
                            Sample.too_many_requests ])
         (Sample.parse_only Sample.crm) Sample.noon (Some Sample.crm_prompt)
         Sample.env [])
  = Returned (Reply500 TypeError).
Proof. vm_compute. reflexivity. Qed.

(** Five server errors; and one server error followed by a fenced answer. *)
Lemma generateSchemaFromAI_attempts_witness :
  generateSchemaFromAI (fun _ => Sample.server_error)
    (Sample.parse_only Sample.crm) Sample.crm_prompt (Some #"key") []
  = (Thrown (AiFailed (GeminiHttpError 500 [])),
     [ Fetch (GeminiRequest #"key" Sample.crm_prompt); Sleep 1000;
       Fetch (GeminiRequest #"key" Sample.crm_prompt); Sleep 2000;
       Fetch (GeminiRequest #"key" Sample.crm_prompt); Sleep 4000;
       Fetch (GeminiRequest #"key" Sample.crm_prompt); Sleep 8000;
       Fetch (GeminiRequest #"key" Sample.crm_prompt) ])
  /\ exists log,
       generateSchemaFromAI
         (Sample.scripted [Sample.server_error; Sample.ai_answer Sample.fenced_text])
         (Sample.parse_only Sample.crm) Sample.crm_prompt (Some #"key") []
       = (Returned Sample.crm,
          [] ++ log ++ [Fetch (GeminiRequest #"key" Sample.crm_prompt)])
       /\ fetch_count log = 1
       /\ pauses log = [1000%Z].
Proof.
  split.
  - destruct (@generateSchemaFromAI_attempts (fun _ => Sample.server_error)
                (Sample.parse_only Sample.crm) #"key" Sample.crm_prompt [])
      as [Hall _]; [discriminate|].
    destruct Hall as (e & He & Hrun).
    + intros k _. eexists. reflexivity.
    + injection He as <-. exact Hrun.
  - destruct (@generateSchemaFromAI_attempts
                (Sample.scripted
                   [Sample.server_error; Sample.ai_answer Sample.fenced_text])
                (Sample.parse_only Sample.crm) #"key" Sample.crm_prompt [])
      as [_ Hfirst]; [discriminate|].
    apply (Hfirst 1 Sample.crm).
    + lia.
    + intros k Hk. assert (k = 0) as -> by lia. eexists. reflexivity.
    + vm_compute. reflexivity.
Defined.

(** Rows of unknown type only: nothing is sent. *)
Lemma addSampleRecords_drops_null_rows_witness :
  addSampleRecords Sample.crm_network Sample.noon #"t-1" #"app1" (Some #"tbl1")
    [Field.mk #"Total" #"formula" None; Field.mk #"Owner" #"lookup" None] 3 []
  = (Returned [], []).
Proof.
  destruct (@addSampleRecords_drops_null_rows Sample.crm_network Sample.noon
              #"t-1" #"app1" (Some #"tbl1")
              [Field.mk #"Total" #"formula" None;
               Field.mk #"Owner" #"lookup" None] 3 [])
    as (log & _ & _ & Hnone).
  apply Hnone. reflexivity.
Defined.

(** The three rejections of [handleApiPost]. *)
Lemma handleApiPost_rejects_witness :
  handleApiPost Sample.crm_network (Sample.parse_only Sample.crm) Sample.noon
    (Some #"   ") Sample.env []
  = (Returned (Reply500 PromptMissing), [])
  /\ (exists e,
        (e = PromptTooLong \/ e = PromptMissing)
        /\ handleApiPost Sample.crm_network (Sample.parse_only Sample.crm)
             Sample.noon (Some (repeat 97%N 2001)) Sample.env []
           = (Returned (Reply500 e), []))
  /\ handleApiPost
       (Sample.scripted
          [Sample.ai_answer
             (Sample.json_schema (Schema.mk #"Big" (repeat Sample.orders 11)))])
       (Sample.parse_only (Schema.mk #"Big" (repeat Sample.orders 11)))
       Sample.noon (Some Sample.crm_prompt) Sample.env []
     = (Returned (Reply500 TooManyTables),
        [Fetch (GeminiRequest #"key" Sample.crm_prompt)]).
Proof.
  split; [|split].
  - apply (@handleApiPost_rejects_before_provisioning Sample.crm_network
             (Sample.parse_only Sample.crm) Sample.noon Sample.env []).
    reflexivity.
  - apply (@handleApiPost_rejects_before_provisioning Sample.crm_network
             (Sample.parse_only Sample.crm) Sample.noon Sample.env []).
    rewrite repeat_length. lia.
  - apply (proj2 (proj2 (@handleApiPost_rejects_before_provisioning
             (Sample.scripted
                [Sample.ai_answer
                   (Sample.json_schema
                      (Schema.mk #"Big" (repeat Sample.orders 11)))])
             (Sample.parse_only (Schema.mk #"Big" (repeat Sample.orders 11)))
             Sample.noon Sample.env []))
             Sample.crm_prompt (Schema.mk #"Big" (repeat Sample.orders 11))).
    + discriminate.
    + vm_compute. lia.
    + vm_compute. reflexivity.
    + vm_compute. lia.
Defined.

(** The run [crm_network]: one table created, one failed. *)
Lemma handleApiPost_success_summary_witness :
  exists p s w1,
    Some Sample.crm_prompt = Some p
    /\ generateSchemaFromAI Sample.crm_network (Sample.parse_only Sample.crm) p
         (GEMINI_API_KEY Sample.env) [] = (Returned s, w1)
    /\ length (details Sample.crm_reply) = length (Schema.tables s)
    /\ map tableName (details Sample.crm_reply) = map Table.name (Schema.tables s)
    /\ Forall (fun r => status r = STATUS_SUCCESS \/ status r = STATUS_FAILED)
         (details Sample.crm_reply)
    /\ totalTables (summary Sample.crm_reply) = length (Schema.tables s)
    /\ successfulTables (summary Sample.crm_reply)
       + failedTables (summary Sample.crm_reply)
       = totalTables (summary Sample.crm_reply).
Proof.
  apply (@handleApiPost_success_summary Sample.crm_network
           (Sample.parse_only Sample.crm) Sample.noon (Some Sample.crm_prompt)
           Sample.env []
           (snd (handleApiPost Sample.crm_network (Sample.parse_only Sample.crm)
                   Sample.noon (Some Sample.crm_prompt) Sample.env []))
           Sample.crm_reply).
  vm_compute. reflexivity.
Defined.

(** A field request that is answered 429 three times does not throw: the
    field is counted as created. *)
Example fields_loop_counts_rate_limited_field :
  fst (fields_loop (fun _ => Sample.too_many_requests) #"t-1" #"app1"
         (Some #"tbl1") [Field.mk #"A" #"text" None] 0 [])
  = Returned 1.
Proof. vm_compute. reflexivity. Qed.

(** Three tables; every field request of the second one fails.  All three
    are recorded as [Success], the second with [fieldsCreated] 0. *)
Example tables_loop_second_table_without_fields :
  fst (tables_loop
         (Sample.scripted
            [ Sample.api_ok (Some (mkData None (Some #"tbl1") None));
              Sample.api_ok None;
              Sample.api_ok (Some (mkData None (Some #"tbl2") None));
              Sample.server_error; Sample.server_error; Sample.server_error;
              Sample.api_ok (Some (mkData None (Some #"tbl3") None));
              Sample.api_ok None ])
         Sample.noon #"t-1" #"app1"
         [ Table.mk #"One" [Field.mk #"A" #"text" None] 0;
           Table.mk #"Two" [Field.mk #"B" #"number" None] 5;
           Table.mk #"Three" [Field.mk #"C" #"url" None] 0 ]
         [] [])
  = Returned
      [ mkResult #"One" STATUS_SUCCESS (Some #"tbl1") (Some 1) (Some 0) None;
        mkResult #"Two" STATUS_SUCCESS (Some #"tbl2") (Some 0) (Some 0) None;
        mkResult #"Three" STATUS_SUCCESS (Some #"tbl3") (Some 1) (Some 0) None ].
Proof. vm_compute. reflexivity. Qed.

(** A table without a [fields] array whose creation call returns the
    identifier of the new table, followed by [null]. *)
Lemma created_table_recorded_failed_witness :
  exists w',
    provision_entry
      (Sample.scripted
         [Sample.api_ok (Some (mkData None (Some #"tbl1") None))])
      Sample.noon #"t-1" #"app1" (Some (Entry.mk #"Customers" None 2)) []
    = (Returned (mkResult #"Customers" STATUS_FAILED None None None
                   (Some TypeError)),
       w')
    /\ (Entry.fields (Entry.mk #"Customers" None 2) = None ->
        w' = [Fetch (ApiRequest #"t-1" (PathTables #"app1")
                       (BodyName #"Customers"))] ++ [Sleep 500])
    /\ (forall rest results,
          entries_loop
            (Sample.scripted
               [Sample.api_ok (Some (mkData None (Some #"tbl1") None))])
            Sample.noon #"t-1" #"app1"
            (Some (Entry.mk #"Customers" None 2) :: None :: rest) results []
          = (Thrown TypeError, w')).
Proof.
  apply (@created_table_recorded_failed
           (Sample.scripted
              [Sample.api_ok (Some (mkData None (Some #"tbl1") None))])
           Sample.noon #"t-1" #"app1" (Entry.mk #"Customers" None 2) []
           [Fetch (ApiRequest #"t-1" (PathTables #"app1")
                     (BodyName #"Customers"))]
           (mkBody None 0 #"success" []
              (Some (mkData None (Some #"tbl1") None)))
           (mkData None (Some #"tbl1") None)).
  - vm_compute. reflexivity.
  - reflexivity.
  - reflexivity.
Defined.

(** Further cases.  (a) The creation call returns a body with [code] 0
    and no [data]: the table is recorded as [Failed].  (b) A [fields]
    array that holds [null] after a field: the table and the field are
    created, and the table is recorded as [Failed].  (c) The second
    element of [tables] is [null]: the loop throws after the first table,
    and the third is never requested. *)
Example created_table_recorded_failed_cases :
  (fst (apiCall (Sample.scripted [Sample.api_ok None]) #"t-1"
          (PathTables #"app1") (BodyName #"Orders") default_retries [])
   = Returned (Some (mkBody None 0 #"success" [] None))
   /\ provision_table (Sample.scripted [Sample.api_ok None]) Sample.noon
        #"t-1" #"app1" Sample.orders []
      = (Returned (mkResult #"Orders" STATUS_FAILED None None None
                     (Some TypeError)),
         [Fetch (ApiRequest #"t-1" (PathTables #"app1")
                   (BodyName #"Orders"))]))
  /\ provision_entry
       (Sample.scripted
          [ Sample.api_ok (Some (mkData None (Some #"tbl1") None));
            Sample.api_ok None ])
       Sample.noon #"t-1" #"app1"
       (Some (Entry.mk #"Customers"
                (Some [Some (Field.mk #"Name" #"text" None); None]) 2)) []
     = (Returned (mkResult #"Customers" STATUS_FAILED None None None
                    (Some TypeError)),
        [Fetch (ApiRequest #"t-1" (PathTables #"app1")
                  (BodyName #"Customers"));
         Sleep 500;
         Fetch (ApiRequest #"t-1" (PathFields #"app1" (Some #"tbl1"))
                  (BodyField #"Name" (Some 1%Z) None));
         Sleep 300])
  /\ entries_loop
       (Sample.scripted
          [ Sample.api_ok (Some (mkData None (Some #"tbl1") None));
            Sample.api_ok None;
            Sample.api_ok (Some (mkData None (Some #"tbl3") None)) ])
       Sample.noon #"t-1" #"app1"
       [ entry_of Sample.orders; None; entry_of Sample.customers ] [] []
     = (Thrown TypeError,
        [Fetch (ApiRequest #"t-1" (PathTables #"app1") (BodyName #"Orders"));
         Sleep 500;
         Fetch (ApiRequest #"t-1" (PathFields #"app1" (Some #"tbl1"))
                  (BodyField #"Paid" (Some 7%Z) None));
         Sleep 300]).
Proof. repeat split; vm_compute; reflexivity. Qed.

(** Three elements of [tables]: a table whose fields are all refused, a
    table without a [fields] array and a table whose creation is refused.
    None of them ends the loop; the first is recorded as [Success] with
    [fieldsCreated] 0, the other two as [Failed]. *)
Example entries_loop_three_tables :
  fst (entries_loop
         (Sample.scripted
            [ Sample.api_ok (Some (mkData None (Some #"tbl1") None));
              Sample.server_error; Sample.server_error; Sample.server_error;
              Sample.api_ok (Some (mkData None (Some #"tbl2") None));
              Sample.server_error; Sample.server_error; Sample.server_error ])
         Sample.noon #"t-1" #"app1"
         [ entry_of (Table.mk #"One" [Field.mk #"A" #"text" None] 3);
           Some (Entry.mk #"Two" None 0);
           entry_of (Table.mk #"Three" [Field.mk #"C" #"url" None] 0) ]
         [] [])
  = Returned
      [ mkResult #"One" STATUS_SUCCESS (Some #"tbl1") (Some 0) (Some 0) None;
        mkResult #"Two" STATUS_FAILED None None None (Some TypeError);
        mkResult #"Three" STATUS_FAILED None None None
          (Some (HttpError 500 #"Internal Server Error")) ].
Proof. vm_compute. reflexivity. Qed.

(* ===================================================================== *)
(** * Further properties of the synthesizer *)
(* ===================================================================== *)

Lemma includes_In (x : jsstring) (a : list jsstring) :
  includes x a = true <-> In x a.
Proof.
  unfold includes. rewrite existsb_exists. split.
  - intros (y & Hy & E). apply jsstring_eqb_eq in E. subst. exact Hy.
  - intros H. exists x. split; [exact H | apply jsstring_eqb_refl].
Qed.

Lemma includes_false_not_In (x : jsstring) (a : list jsstring) :
  includes x a = false -> ~ In x a.
Proof.
  intros H Hin. apply includes_In in Hin. congruence.
Qed.

Lemma generateDummyData_multi_select (type_name : jsstring)
    (options : JsObject) (index : nat) (ts : Z) :
  toLowerCase type_name = #"multi_select" ->
  generateDummyData type_name options index ts =
    match declared_options options with
    | (_ :: _) as opts =>
        Some (VArray (select_loop opts index (seq 0 (Nat.min 2 (length opts))) []))
    | [] => Some (VArray [OPTION_KEY ++ decimal (index mod 3 + 1)])
    end.
Proof.
  intros H. unfold generateDummyData. rewrite H.
  fold (declared_options options).
  destruct (declared_options options); reflexivity.
Qed.

Lemma select_loop_two (opts : list jsstring) (index : nat) :
  2 <= length opts ->
  let a := nth (index mod length opts) opts [] in
  let b := nth ((index + 1) mod length opts) opts [] in
  select_loop opts index (seq 0 (Nat.min 2 (length opts))) []
  = if JsString.eqb b a then [a] else [a; b].
Proof.
  intros Hlen. rewrite Nat.min_l by exact Hlen. simpl.
  rewrite Nat.add_0_r, orb_false_r. reflexivity.
Qed.

(** X1.  For a type name that lower-cases to [multi_select] the value is an
    array of one or two strings without duplicates; its first element is
    the declared option at position [index] modulo their number and every
    element is a declared option; with a single declared option, or two
    equal neighbours, the array has one element, and with no declared
    option it is the one placeholder ['オプション' (index mod 3 + 1)]. *)
Theorem multi_select_distinct_declared_options (type_name : jsstring)
    (options : JsObject) (index : nat) (ts : Z) :
  toLowerCase type_name = #"multi_select" ->
  exists selected,
    generateDummyData type_name options index ts = Some (VArray selected)
    /\ NoDup selected
    /\ 1 <= length selected <= 2
    /\ (declared_options options = [] ->
        selected = [OPTION_KEY ++ decimal (index mod 3 + 1)])
    /\ (declared_options options <> [] ->
        hd [] selected
          = nth (index mod length (declared_options options))
              (declared_options options) []
        /\ forall s, In s selected -> In s (declared_options options)).
Proof.
  intros H. rewrite (generateDummyData_multi_select _ options index ts H).
  assert (Hone : forall x : jsstring, NoDup [x])
    by (intros x; constructor; [intros [] | constructor]).
  destruct (declared_options options) as [|o1 [|o2 rest]] eqn:E.
  - eexists. split; [reflexivity|].
    split; [apply Hone|]. split; [simpl; lia|].
    split; [reflexivity | congruence].
  - eexists. split; [reflexivity|]. simpl.
    split; [apply Hone|]. split; [lia|].
    split; [discriminate|]. intros _. split; [reflexivity | auto].
  - cbv beta iota. set (opts := o1 :: o2 :: rest) in *.
    assert (Hlen : 2 <= length opts) by (simpl; lia).
    assert (Hne : length opts <> 0) by lia.
    cbv zeta. rewrite (select_loop_two opts index Hlen). cbv zeta.
    pose proof (Nat.mod_upper_bound index (length opts) Hne) as Ha.
    pose proof (Nat.mod_upper_bound (index + 1) (length opts) Hne) as Hb.
    destruct (JsString.eqb (nth ((index + 1) mod length opts) opts [])
                (nth (index mod length opts) opts [])) eqn:Eq;
      eexists; (split; [reflexivity|]).
    + split; [apply Hone|]. split; [simpl; lia|].
      split; [discriminate|]. intros _. split; [reflexivity|].
      intros s [<- | []]. apply nth_In. exact Ha.
    + split.
      { constructor; [|apply Hone].
        intros [Hin | []].
        rewrite Hin, jsstring_eqb_refl in Eq. discriminate. }
      split; [simpl; lia|].
      split; [discriminate|]. intros _. split; [reflexivity|].
      intros s [<- | [<- | []]]; apply nth_In; assumption.
Qed.

Lemma multi_select_distinct_witness :
  exists selected,
    generateDummyData #"Multi_Select" [(OPTION_KEY, #"A, B,A")] 2 0
      = Some (VArray selected)
    /\ NoDup selected
    /\ 1 <= length selected <= 2
    /\ (declared_options [(OPTION_KEY, #"A, B,A")] = [] ->
        selected = [OPTION_KEY ++ decimal (2 mod 3 + 1)])
    /\ (declared_options [(OPTION_KEY, #"A, B,A")] <> [] ->
        hd [] selected
          = nth (2 mod length (declared_options [(OPTION_KEY, #"A, B,A")]))
              (declared_options [(OPTION_KEY, #"A, B,A")]) []
        /\ forall s, In s selected ->
                     In s (declared_options [(OPTION_KEY, #"A, B,A")])).
Proof.
  apply (@multi_select_distinct_declared_options #"Multi_Select"
           [(OPTION_KEY, #"A, B,A")] 2 0%Z).
  reflexivity.
Defined.

Ltac case_label :=
  match goal with
  | |- context [if JsString.eqb ?a ?b then _ else _] =>
      let E := fresh "E" in destruct (JsString.eqb a b) eqn:E
  | |- context [if JsString.eqb ?a ?b || JsString.eqb ?a ?c then _ else _] =>
      let E := fresh "E" in
      let E' := fresh "E" in
      destruct (JsString.eqb a b) eqn:E; destruct (JsString.eqb a c) eqn:E';
      cbn [orb]
  end.

Lemma eqb_label_In (t label : jsstring) :
  JsString.eqb t label = true -> In label sample_types -> In t sample_types.
Proof. intros E H. apply jsstring_eqb_eq in E. subst. exact H. Qed.

(** The synthesizer answers [null] exactly for the type names that
    lower-case to none of its twelve [case] labels. *)
Lemma generateDummyData_null_iff (type_name : jsstring) (options : JsObject)
    (index : nat) (ts : Z) :
  generateDummyData type_name options index ts = None
  <-> ~ In (toLowerCase type_name) sample_types.
Proof.
  unfold generateDummyData. cbv zeta.
  set (t := toLowerCase type_name).
  set (selectOptions := filter _ _).
  repeat case_label;
    try (split; [discriminate |];
         intros Hn; exfalso; apply Hn;
         eapply eqb_label_In; [eassumption |];
         simpl; auto 20).
  - destruct selectOptions;
      (split; [discriminate |];
       intros Hn; exfalso; apply Hn;
       eapply eqb_label_In; [eassumption |]; simpl; auto 20).
  - destruct selectOptions;
      (split; [discriminate |];
       intros Hn; exfalso; apply Hn;
       eapply eqb_label_In; [eassumption |]; simpl; auto 20).
  - split; [|reflexivity]. intros _ Hin. simpl in Hin.
    repeat (destruct Hin as [Hin | Hin];
            [rewrite <- Hin in *;
             repeat match goal with
                    | H : JsString.eqb ?a ?a = false |- _ =>
                        rewrite jsstring_eqb_refl in H; discriminate H
                    end
            | ]).
    exact Hin.
Qed.

(** X2.  [generateDummyData] returns [null] exactly when the lower-cased
    type name is none of its twelve [case] labels.  [member] is not one of
    them: the mapper gives a [member] field the code 11, and the
    synthesizer gives it no sample value, in any letter case. *)
Theorem generateDummyData_null_exactly_for_unsupported_types :
  (forall type_name options index ts,
      generateDummyData type_name options index ts = None
      <-> ~ In (toLowerCase type_name) sample_types)
  /\ (forall type_name options index ts,
        toLowerCase type_name = #"member" ->
        generateDummyData type_name options index ts = None
        /\ exists p, getFieldProperty type_name options = Own p /\ type p = 11%Z).
Proof.
  split; [exact generateDummyData_null_iff|].
  intros type_name options index ts H. split.
  - apply generateDummyData_null_iff. rewrite H. simpl.
    intros Hin.
    repeat (destruct Hin as [Hin | Hin]; [discriminate Hin|]). exact Hin.
  - apply (@getFieldProperty_type_code type_name options #"member" 11%Z);
      [simpl; auto 20 | exact H].
Qed.

Lemma generateDummyData_null_witness :
  generateDummyData #"Member" [] 0 0 = None
  /\ exists p, getFieldProperty #"Member" [] = Own p /\ type p = 11%Z.
Proof.
  apply (proj2 generateDummyData_null_exactly_for_unsupported_types
           #"Member" [] 0 0%Z).
  reflexivity.
Defined.

(** ** The mapper and the synthesizer on choice fields *)

(** Both functions read the declared options in the same way. *)
Lemma getOptions_declared (options : JsObject) :
  getOptions options = declared_options options.
Proof.
  unfold getOptions, declared_options.
  destruct (own_property options OPTION_KEY) as [[|c s]|]; reflexivity.
Qed.

Lemma select_type_exact (type_name : jsstring) :
  select_type type_name ->
  JsString.eqb type_name #"single_select"
  || JsString.eqb type_name #"multi_select" = true
  <-> toLowerCase type_name = type_name.
Proof.
  intros Hsel. rewrite Bool.orb_true_iff, !jsstring_eqb_eq. split.
  - intros [-> | ->]; reflexivity.
  - intros E. unfold select_type in Hsel. rewrite E in Hsel. exact Hsel.
Qed.

Lemma field_options_select (type_name : jsstring) (options : JsObject) :
  select_type type_name ->
  field_options type_name options
  = Some (match declared_options options with
          | [] => if JsString.eqb type_name #"single_select"
                     || JsString.eqb type_name #"multi_select"
                  then fallback_options else []
          | (_ :: _) as l => l
          end).
Proof.
  intros [H | H]; unfold field_options, getFieldProperty; rewrite H;
    rewrite <- getOptions_declared.
  - change (js_get (typeMap options) #"single_select")
      with (Own (mkPayload 3 (Some (PropOptions (getOptions options))))).
    destruct (JsString.eqb type_name #"single_select"
              || JsString.eqb type_name #"multi_select");
      cbn [property type]; destruct (getOptions options); reflexivity.
  - change (js_get (typeMap options) #"multi_select")
      with (Own (mkPayload 4 (Some (PropOptions (getOptions options))))).
    destruct (JsString.eqb type_name #"single_select"
              || JsString.eqb type_name #"multi_select");
      cbn [property type]; destruct (getOptions options); reflexivity.
Qed.

Lemma placeholder_in_fallback (index : nat) :
  In (OPTION_KEY ++ decimal (index mod 3 + 1)) fallback_options.
Proof.
  pose proof (Nat.mod_upper_bound index 3 ltac:(lia)) as H.
  destruct (index mod 3) as [|[|[|k]]]; [left | right; left | right; right; left | lia];
    reflexivity.
Qed.

Lemma select_loop_subset (opts : list jsstring) (index : nat) (js_ : list nat) :
  opts <> [] ->
  forall selected,
    (forall s, In s selected -> In s opts) ->
    forall s, In s (select_loop opts index js_ selected) -> In s opts.
Proof.
  intros Hne. induction js_ as [|j rest IH]; intros selected Hsel s;
    [apply Hsel|].
  simpl. apply IH. intros x Hx.
  destruct (includes _ selected); [apply Hsel; exact Hx|].
  apply in_app_or in Hx. destruct Hx as [Hx | [<- | []]]; [apply Hsel; exact Hx|].
  apply nth_In. apply Nat.mod_upper_bound.
  destruct opts; [congruence | discriminate].
Qed.

Lemma select_loop_grows (opts : list jsstring) (index : nat) (js_ : list nat) :
  forall selected,
    length selected <= length (select_loop opts index js_ selected).
Proof.
  induction js_ as [|j rest IH]; intros selected; [apply Nat.le_refl|].
  simpl. destruct (includes _ selected); [apply IH|].
  eapply Nat.le_trans; [|apply IH]. rewrite length_app. lia.
Qed.

Lemma select_loop_nonempty (opts : list jsstring) (index j : nat)
    (rest : list nat) :
  select_loop opts index (j :: rest) [] <> [].
Proof.
  simpl.
  match goal with
  | |- select_loop _ _ _ ?sel <> [] =>
      pose proof (select_loop_grows opts index rest sel) as H
  end.
  intros Hnil. rewrite Hnil in H. simpl in H. lia.
Qed.

(** X15.  For a choice field ([single_select] or [multi_select] in any
    letter case) the mapper creates the field with a list of option names
    and the synthesizer always selects at least one name.  When options are
    declared, or the type name is written in lower case, every selected
    name is one of the options of the field, for every row.  When no option
    is declared and the type name is not in lower case, the field is created
    with no option at all while the rows still select the placeholder
    ['オプション' (index mod 3 + 1)]. *)
Theorem select_samples_and_field_options (type_name : jsstring)
    (options : JsObject) (index : nat) (ts : Z) :
  select_type type_name ->
  let selected := chosen (generateDummyData type_name options index ts) in
  exists opts,
    field_options type_name options = Some opts
    /\ selected <> []
    /\ (declared_options options <> [] \/ toLowerCase type_name = type_name ->
        opts <> [] /\ forall s, In s selected -> In s opts)
    /\ (declared_options options = [] ->
        toLowerCase type_name <> type_name ->
        opts = []
        /\ selected = [OPTION_KEY ++ decimal (index mod 3 + 1)]).
Proof.
  intros Hsel selected.
  rewrite (field_options_select options Hsel).
  pose proof (select_type_exact Hsel) as Hexact.
  eexists. split; [reflexivity|].
  assert (Hvalue :
    match declared_options options with
    | [] => selected = [OPTION_KEY ++ decimal (index mod 3 + 1)]
    | (_ :: _) as l => selected <> [] /\ forall s, In s selected -> In s l
    end).
  { subst selected. destruct Hsel as [H | H].
    - rewrite (generateDummyData_single_select _ options index ts H).
      destruct (declared_options options) as [|o l] eqn:E; [reflexivity|].
      cbn [chosen]. split; [discriminate|].
      intros s [<- | []]. apply nth_In. apply Nat.mod_upper_bound.
      discriminate.
    - rewrite (generateDummyData_multi_select _ options index ts H).
      destruct (declared_options options) as [|o l] eqn:E; [reflexivity|].
      cbn [chosen]. split.
      + change (seq 0 (Nat.min 2 (length (o :: l))))
          with (0 :: seq 1 (Nat.min 1 (length l))).
        apply select_loop_nonempty.
      + apply select_loop_subset; [discriminate | intros s []]. }
  destruct (declared_options options) as [|o l] eqn:E.
  - split; [rewrite Hvalue; discriminate|]. split.
    + intros [Hne | Hlow]; [congruence|].
      apply Hexact in Hlow. rewrite Hlow.
      split; [discriminate|]. rewrite Hvalue.
      intros s [<- | []]. apply placeholder_in_fallback.
    + intros _ Hlow.
      destruct (JsString.eqb type_name #"single_select"
                || JsString.eqb type_name #"multi_select") eqn:Eb;
        [elim Hlow; apply Hexact; reflexivity|].
      split; [reflexivity | exact Hvalue].
  - destruct Hvalue as [Hne Hin]. split; [exact Hne|]. split.
    + intros _. split; [discriminate | exact Hin].
    + intros Hnil. discriminate Hnil.
Qed.

Lemma select_samples_and_field_options_witness :
  exists opts,
    field_options #"Single_Select" [] = Some opts
    /\ chosen (generateDummyData #"Single_Select" [] 4 0) <> []
    /\ (declared_options [] <> []
        \/ toLowerCase #"Single_Select" = #"Single_Select" ->
        opts <> []
        /\ forall s, In s (chosen (generateDummyData #"Single_Select" [] 4 0)) ->
                     In s opts)
    /\ (declared_options [] = [] ->
        toLowerCase #"Single_Select" <> #"Single_Select" ->
        opts = []
        /\ chosen (generateDummyData #"Single_Select" [] 4 0)
           = [OPTION_KEY ++ decimal (4 mod 3 + 1)]).
Proof.
  apply (@select_samples_and_field_options #"Single_Select" [] 4 0%Z).
  left. reflexivity.
Defined.

(* ===================================================================== *)
(** * Further properties of the sample records *)
(* ===================================================================== *)

Lemma jsstring_eqb_sym (a b : jsstring) : JsString.eqb a b = JsString.eqb b a.
Proof.
  destruct (JsString.eqb a b) eqn:E1, (JsString.eqb b a) eqn:E2; auto.
  - apply jsstring_eqb_eq in E1. subst. rewrite jsstring_eqb_refl in E2.
    discriminate.
  - apply jsstring_eqb_eq in E2. subst. rewrite jsstring_eqb_refl in E1.
    discriminate.
Qed.

Lemma assign_keys (o : RecordFields) (name : jsstring) (v : JsValue) :
  (In name (record_keys o) -> record_keys (assign o name v) = record_keys o)
  /\ (~ In name (record_keys o) ->
      record_keys (assign o name v) = record_keys o ++ [name]).
Proof.
  induction o as [|[k x] o [IHin IHout]]; simpl.
  - split; [intros [] | reflexivity].
  - destruct (JsString.eqb k name) eqn:E; simpl.
    + apply jsstring_eqb_eq in E. subst. split; [reflexivity|].
      intros H. elim H. left. reflexivity.
    + assert (Hne : k <> name).
      { intros ->. rewrite jsstring_eqb_refl in E. discriminate. }
      split.
      * intros [H | H]; [contradiction|]. rewrite (IHin H). reflexivity.
      * intros H. rewrite IHout; [reflexivity|]. intros H'. apply H. right.
        exact H'.
Qed.

Lemma NoDup_snoc {A} (l : list A) (x : A) :
  NoDup l -> ~ In x l -> NoDup (l ++ [x]).
Proof.
  induction 1 as [|y l Hy Hl IH]; simpl; intros Hx.
  - constructor; [intros [] | constructor].
  - constructor.
    + rewrite in_app_iff. simpl. intros [H | [H | []]]; [contradiction|].
      apply Hx. left. symmetry. exact H.
    + apply IH. intros H. apply Hx. right. exact H.
Qed.

Section RecordKeys.

Variable timestamp : nat -> nat -> Z.

Lemma record_loop_keys_from (fields : list Field.t) (i : nat) :
  forall (j : nat) (acc : RecordFields),
    NoDup (record_keys acc) ->
    let r := record_loop timestamp fields i j acc in
    NoDup (record_keys r)
    /\ length r <= length acc + length fields
    /\ forall k, In k (record_keys r) ->
                 In k (record_keys acc) \/ key_of_field fields k.
Proof.
  induction fields as [|field rest IH]; intros j acc Hacc; cbv zeta.
  - simpl. split; [exact Hacc|]. split; [lia | auto].
  - simpl record_loop.
    destruct (generateDummyData (Field.type field) (options_or_empty field) i
                (timestamp i j)) as [v|] eqn:Ev.
    + assert (Hsup : In (toLowerCase (Field.type field)) sample_types).
      { destruct (in_dec (list_eq_dec N.eq_dec)
                    (toLowerCase (Field.type field)) sample_types) as [H|H];
          [exact H|].
        apply generateDummyData_null_iff
          with (options := options_or_empty field) (index := i)
               (ts := timestamp i j) in H.
        congruence. }
      unfold set_property.
      destruct (JsString.eqb (Field.name field) #"__proto__") eqn:Ep.
      * destruct (IH (S j) acc Hacc) as (Hnd & Hlen & Hkeys).
        split; [exact Hnd|]. split; [simpl; lia|].
        intros k Hk. destruct (Hkeys k Hk) as [H | (Hp & f & Hf & Hn & Ht)];
          [left; exact H|].
        right. split; [exact Hp|]. exists f. simpl. auto.
      * assert (Hp : Field.name field <> #"__proto__").
        { intros E. rewrite E in Ep. discriminate Ep. }
        destruct (assign_keys acc (Field.name field) v) as [Kin Kout].
        assert (Hacc' : NoDup (record_keys (assign acc (Field.name field) v))).
        { destruct (in_dec (list_eq_dec N.eq_dec) (Field.name field)
                      (record_keys acc)) as [H|H].
          - rewrite (Kin H). exact Hacc.
          - rewrite (Kout H). apply NoDup_snoc; assumption. }
        assert (Hlen' : length (assign acc (Field.name field) v)
                        <= S (length acc)).
        { rewrite <- !(length_map fst). fold (record_keys acc).
          fold (record_keys (assign acc (Field.name field) v)).
          destruct (in_dec (list_eq_dec N.eq_dec) (Field.name field)
                      (record_keys acc)) as [H|H].
          - rewrite (Kin H). lia.
          - rewrite (Kout H), length_app. simpl. lia. }
        destruct (IH (S j) _ Hacc') as (Hnd & Hlen & Hkeys).
        split; [exact Hnd|]. split; [simpl; lia|].
        intros k Hk. destruct (Hkeys k Hk) as [H | (Hq & f & Hf & Hn & Ht)].
        -- destruct (in_dec (list_eq_dec N.eq_dec) (Field.name field)
                       (record_keys acc)) as [H'|H'].
           ++ rewrite (Kin H') in H. left. exact H.
           ++ rewrite (Kout H'), in_app_iff in H.
              destruct H as [H | [<- | []]]; [left; exact H|].
              right. split; [exact Hp|]. exists field. simpl. auto.
        -- right. split; [exact Hq|]. exists f. simpl. auto.
    + destruct (IH (S j) acc Hacc) as (Hnd & Hlen & Hkeys).
      split; [exact Hnd|]. split; [simpl; lia|].
      intros k Hk. destruct (Hkeys k Hk) as [H | (Hp & f & Hf & Hn & Ht)];
        [left; exact H|].
      right. split; [exact Hp|]. exists f. simpl. auto.
Qed.

(** X3.  The properties of a synthesized record are pairwise distinct (a
    later field of the same name replaces the value of an earlier one),
    there are at most as many as fields, none is named [__proto__], and each
    carries the name of a field whose type the synthesizer supports. *)
Theorem record_loop_distinct_field_names (fields : list Field.t) (i : nat) :
  NoDup (record_keys (record_loop timestamp fields i 0 []))
  /\ length (record_loop timestamp fields i 0 []) <= length fields
  /\ forall k, In k (record_keys (record_loop timestamp fields i 0 [])) ->
               key_of_field fields k.
Proof.
  destruct (@record_loop_keys_from fields i 0 [])
    as (Hnd & Hlen & Hkeys); [constructor|].
  split; [exact Hnd|]. split; [exact Hlen|].
  intros k Hk. destruct (Hkeys k Hk) as [[] | H]. exact H.
Qed.

End RecordKeys.

(* ===================================================================== *)
(** * Further properties of the remote API client *)
(* ===================================================================== *)

Section ApiCallResults.

Variable net : nat -> FetchResult.
Variables (token : jsstring) (path : ApiPath) (body : RequestBody).

Local Abbreviation request := (ApiRequest token path body).

(** One iteration, by the verdict on its answer. *)
Lemma apiCall_attempt_run (retries attempt : nat) (w : world) :
  apiCall_attempt net token path body retries attempt w
  = match classify path (net (fetch_count w)) with
    | Accepted d => (Returned (Return d), w ++ [Fetch request])
    | TooManyRequests =>
        (Returned Continue,
         w ++ [Fetch request; Sleep (1000 * 2 ^ Z.of_nat attempt)])
    | AppLimited d =>
        if (attempt <? retries) || negb (attempt =? retries)
        then (Returned Continue,
              w ++ [Fetch request; Sleep (1000 * Z.of_nat attempt)])
        else (Thrown (LarkApiError (msg d) (code d) path),
              w ++ [Fetch request])
    | Refused e =>
        if attempt =? retries then (Thrown e, w ++ [Fetch request])
        else (Returned Continue,
              w ++ [Fetch request; Sleep (1000 * Z.of_nat attempt)])
    end.
Proof.
  unfold apiCall_attempt, try_catch, bind, fetch, response_json, classify.
  destruct (net (fetch_count w)) as [reason | r].
  - destruct (attempt =? retries); unfold throw, sleep, ret; simpl;
      rewrite <- ?app_assoc; reflexivity.
  - destruct (negb (Response.ok r)).
    + destruct (Response.status r =? 429)%Z.
      * unfold sleep, ret. simpl. rewrite <- app_assoc. reflexivity.
      * destruct (attempt =? retries); unfold throw, sleep, ret; simpl;
          rewrite <- ?app_assoc; reflexivity.
    + destruct (Response.json r) as [d|].
      * unfold ret at 1.
        destruct (code d =? 0)%Z; [reflexivity|].
        destruct (code d =? 99991400)%Z; simpl.
        -- destruct (attempt <? retries); simpl.
           ++ unfold sleep, ret. simpl. rewrite <- app_assoc. reflexivity.
           ++ destruct (attempt =? retries); unfold throw, sleep, ret; simpl;
                rewrite <- ?app_assoc; reflexivity.
        -- destruct (attempt =? retries); unfold throw, sleep, ret; simpl;
             rewrite <- ?app_assoc; reflexivity.
      * destruct (attempt =? retries); unfold throw, sleep, ret; simpl;
          rewrite <- ?app_assoc; reflexivity.
Qed.

Lemma api_postcondition_continue (w w1 : world) (k n : nat)
    (o : outcome (option ResponseBody)) (ms : Z) :
  0 < k ->
  w1 = w ++ [Fetch request; Sleep ms] ->
  n <= k ->
  api_postcondition net path w1 k n o ->
  api_postcondition net path w (S k) (S n) o.
Proof.
  intros Hk -> Hn H. unfold api_postcondition in *.
  autorewrite with world_log in H. simpl in H.
  destruct o as [[d|]|e].
  - destruct H as [H1 H2]. split; [lia|].
    replace (fetch_count w + (S n - 1)) with (fetch_count w + 1 + (n - 1))
      by lia. exact H2.
  - destruct H as [H | [H1 H2]]; [lia|]. right. split; [lia|].
    replace (fetch_count w + (S n - 1)) with (fetch_count w + 1 + (n - 1))
      by lia. exact H2.
  - destruct H as (H1 & H2 & H3). split; [lia|]. split; [lia|].
    replace (fetch_count w + (S n - 1)) with (fetch_count w + 1 + (n - 1))
      by lia. exact H3.
Qed.

Lemma apiCall_loop_result (retries remaining : nat) :
  forall (attempt : nat) (w w' : world) (o : outcome (option ResponseBody)),
    attempt + remaining = S retries ->
    apiCall_loop net token path body retries remaining attempt w = (o, w') ->
    exists n, n <= remaining
              /\ fetch_count w' = fetch_count w + n
              /\ api_postcondition net path w remaining n o.
Proof.
  induction remaining as [|k IH]; intros attempt w w' o Hsum Hrun.
  - simpl in Hrun. injection Hrun as <- <-. exists 0.
    split; [lia|]. split; [lia|]. left. reflexivity.
  - simpl in Hrun. unfold bind at 1 in Hrun.
    rewrite apiCall_attempt_run in Hrun.
    assert (Hcont : forall ms,
               apiCall_loop net token path body retries k (S attempt)
                 (w ++ [Fetch request; Sleep ms]) = (o, w') ->
               0 < k ->
               exists n, n <= S k /\ fetch_count w' = fetch_count w + n
                         /\ api_postcondition net path w (S k) n o).
    { intros ms Hloop Hk.
      destruct (IH (S attempt) _ w' o ltac:(lia) Hloop) as (n & Hn & Hfc & Hpost).
      exists (S n). split; [lia|]. split.
      - rewrite Hfc. autorewrite with world_log. lia.
      - eapply api_postcondition_continue; eauto. }
    assert (Hthrow : k = 0 -> (attempt =? retries) = true)
      by (intros ->; apply Nat.eqb_eq; lia).
    assert (Hgo : 0 < k -> (attempt =? retries) = false
                           /\ (attempt <? retries) = true)
      by (intros Hk; split; [apply Nat.eqb_neq | apply Nat.ltb_lt]; lia).
    destruct (classify path (net (fetch_count w))) as [d | | d | e] eqn:Ec.
    + injection Hrun as <- <-. exists 1. split; [lia|].
      split; [autorewrite with world_log; simpl; lia|].
      simpl. rewrite Nat.add_0_r. split; [lia | exact Ec].
    + destruct k as [|k].
      * simpl in Hrun. injection Hrun as <- <-. exists 1. split; [lia|].
        split; [autorewrite with world_log; simpl; lia|].
        right. simpl. rewrite Nat.add_0_r. split; [reflexivity | exact Ec].
      * eapply Hcont; [exact Hrun | lia].
    + destruct k as [|k].
      * rewrite (Hthrow eq_refl) in Hrun.
        replace (attempt <? retries) with false in Hrun
          by (symmetry; apply Nat.ltb_ge; lia).
        simpl in Hrun. injection Hrun as <- <-. exists 1. split; [lia|].
        split; [autorewrite with world_log; simpl; lia|].
        simpl. rewrite Nat.add_0_r, Ec. simpl. auto.
      * destruct (Hgo ltac:(lia)) as [_ Hlt]. rewrite Hlt in Hrun.
        simpl in Hrun. eapply Hcont; [exact Hrun | lia].
    + destruct k as [|k].
      * rewrite (Hthrow eq_refl) in Hrun.
        injection Hrun as <- <-. exists 1. split; [lia|].
        split; [autorewrite with world_log; simpl; lia|].
        simpl. rewrite Nat.add_0_r, Ec. simpl. auto.
      * destruct (Hgo ltac:(lia)) as [Hne _]. rewrite Hne in Hrun.
        eapply Hcont; [exact Hrun | lia].
Qed.

(** X4.  Whatever the network answers, [apiCall] sends between 1 and
    [retries] requests (none when [retries] is 0) and its result is decided
    by the answer to the last one: a body is returned only when that
    answer is HTTP-ok JSON with [code] 0, and it is that body; [undefined]
    is returned only when [retries] is 0 or all [retries] requests were
    sent and the last answer was HTTP 429; an error is thrown only after
    all [retries] requests, and it is the error of the last answer. *)
Theorem apiCall_result_by_last_answer (retries : nat) (w w' : world)
    (o : outcome (option ResponseBody)) :
  apiCall net token path body retries w = (o, w') ->
  exists n,
    n <= retries
    /\ fetch_count w' = fetch_count w + n
    /\ match o with
       | Returned (Some d) =>
           1 <= n
           /\ classify path (net (fetch_count w + (n - 1))) = Accepted d
           /\ code d = 0%Z
       | Returned None =>
           retries = 0
           \/ (n = retries
               /\ classify path (net (fetch_count w + (n - 1)))
                  = TooManyRequests)
       | Thrown e =>
           n = retries /\ 1 <= n
           /\ error_of path (classify path (net (fetch_count w + (n - 1))))
              = Some e
       end.
Proof.
  intros Hrun. unfold apiCall in Hrun.
  destruct (@apiCall_loop_result retries retries 1 w w' o
              ltac:(lia) Hrun) as (n & Hn & Hfc & Hpost).
  exists n. split; [exact Hn|]. split; [exact Hfc|].
  destruct o as [[d|]|e]; try exact Hpost.
  destruct Hpost as [H1 H2]. split; [exact H1|]. split; [exact H2|].
  unfold classify in H2.
  destruct (net (fetch_count w + (n - 1))) as [|r]; [discriminate|].
  destruct (negb (Response.ok r));
    [destruct (Response.status r =? 429)%Z; discriminate|].
  destruct (Response.json r) as [d'|]; [|discriminate].
  destruct (code d' =? 0)%Z eqn:Ecode;
    [|destruct (code d' =? 99991400)%Z; discriminate].
  injection H2 as ->. apply Z.eqb_eq. exact Ecode.
Qed.

(** The verdict on the [k]-th answer after world [w]. *)
Local Abbreviation verdict_at w := (fun k => classify path (net (fetch_count w + k))).

Lemma retried_log_ext (f g : nat -> verdict) (n : nat) :
  forall attempt,
    (forall k, k < n -> f k = g k) ->
    retried_log request f n attempt = retried_log request g n attempt.
Proof.
  revert f g. induction n as [|n IH]; intros f g attempt H; [reflexivity|].
  simpl. rewrite (H 0) by lia. do 2 f_equal.
  apply IH. intros k Hk. apply H. lia.
Qed.

Lemma fetch_count_retried_log (f : nat -> verdict) (n attempt : nat) :
  fetch_count (retried_log request f n attempt) = n.
Proof.
  revert f attempt. induction n as [|n IH]; intros f attempt; [reflexivity|].
  simpl retried_log. rewrite fetch_count_cons_fetch, fetch_count_cons_sleep, IH.
  reflexivity.
Qed.

(** Attempts that are not accepted and are not the last one are followed by
    their pause and by the next attempt. *)
Lemma apiCall_loop_retries (retries n : nat) :
  forall (remaining attempt : nat) (w : world),
    n < remaining ->
    attempt + remaining = S retries ->
    (forall k, k < n -> is_accepted (verdict_at w k) = false) ->
    apiCall_loop net token path body retries remaining attempt w
    = apiCall_loop net token path body retries (remaining - n) (attempt + n)
        (w ++ retried_log request (verdict_at w) n attempt).
Proof.
  induction n as [|n IH]; intros remaining attempt w Hlt Hsum H.
  - simpl. rewrite app_nil_r, Nat.sub_0_r, Nat.add_0_r. reflexivity.
  - destruct remaining as [|k]; [lia|].
    simpl apiCall_loop at 1. unfold bind at 1. rewrite apiCall_attempt_run.
    pose proof (H 0 ltac:(lia)) as H0. cbv beta in H0.
    rewrite Nat.add_0_r in H0.
    assert (Hne : (attempt =? retries) = false) by (apply Nat.eqb_neq; lia).
    assert (Hlt' : (attempt <? retries) = true) by (apply Nat.ltb_lt; lia).
    assert (Hstep :
      apiCall_loop net token path body retries k (S attempt)
        (w ++ [Fetch request;
               Sleep (wait_after (classify path (net (fetch_count w))) attempt)])
      = apiCall_loop net token path body retries (S k - S n) (attempt + S n)
          (w ++ retried_log request (verdict_at w) (S n) attempt)).
    { rewrite (IH k (S attempt)) by
        (try lia; intros j Hj; autorewrite with world_log;
         replace (fetch_count w + 1 + j) with (fetch_count w + S j) by lia;
         apply (H (S j)); lia).
      replace (S attempt + n) with (attempt + S n) by lia.
      replace (k - n) with (S k - S n) by lia.
      f_equal. rewrite <- app_assoc. f_equal. simpl.
      rewrite Nat.add_0_r. do 2 f_equal.
      apply retried_log_ext. intros j Hj. autorewrite with world_log.
      f_equal. f_equal. lia. }
    destruct (classify path (net (fetch_count w))) as [d | | d | e] eqn:Ec.
    + discriminate H0.
    + exact Hstep.
    + rewrite Hlt'. exact Hstep.
    + rewrite Hne. exact Hstep.
Qed.

(** X5.  When none of the first [n] answers is accepted, with [n] below
    [retries], and the next answer is, [apiCall] returns the body of that
    answer after [n + 1] requests; each request that was not accepted is
    followed by its pause: [1000 * 2 ^ attempt] ms after an HTTP 429 and
    [1000 * attempt] ms after any other failure. *)
Theorem apiCall_returns_first_accepted (retries n : nat) (w : world)
    (d : ResponseBody) :
  n < retries ->
  (forall k, k < n -> is_accepted (verdict_at w k) = false) ->
  verdict_at w n = Accepted d ->
  apiCall net token path body retries w
  = (Returned (Some d),
     w ++ retried_log request (verdict_at w) n 1 ++ [Fetch request]).
Proof.
  intros Hn H Hd. unfold apiCall.
  rewrite (@apiCall_loop_retries retries n retries 1 w)
    by (auto; lia).
  destruct (retries - n) as [|k] eqn:Ek; [lia|].
  simpl apiCall_loop. unfold bind at 1. rewrite apiCall_attempt_run.
  rewrite fetch_count_app, fetch_count_retried_log. cbv beta in Hd.
  rewrite Hd. rewrite <- app_assoc. reflexivity.
Qed.

(** X6.  When none of the first [retries - 1] answers is accepted and the
    last answer is a failure other than HTTP 429 (a network failure,
    another HTTP status, an unreadable body, a non-zero [code], the
    rate-limit code 99991400 included), [apiCall] throws the error of that
    last answer after exactly [retries] requests, without a pause after the
    last one. *)
Theorem apiCall_throws_error_of_last_answer (retries : nat) (w : world)
    (e : Error) :
  0 < retries ->
  (forall k, k < retries - 1 -> is_accepted (verdict_at w k) = false) ->
  error_of path (verdict_at w (retries - 1)) = Some e ->
  apiCall net token path body retries w
  = (Thrown e,
     w ++ retried_log request (verdict_at w) (retries - 1) 1 ++ [Fetch request]).
Proof.
  intros Hpos H He. unfold apiCall.
  rewrite (@apiCall_loop_retries retries (retries - 1) retries 1 w)
    by (auto; lia).
  replace (retries - (retries - 1)) with 1 by lia.
  replace (1 + (retries - 1)) with retries by lia.
  simpl apiCall_loop. unfold bind at 1. rewrite apiCall_attempt_run.
  rewrite fetch_count_app, fetch_count_retried_log. cbv beta in He.
  rewrite Nat.eqb_refl, Nat.ltb_irrefl. simpl orb.
  destruct (classify path (net (fetch_count w + (retries - 1))))
    as [d | | d | e'] eqn:Ec; simpl in He; try discriminate He;
    injection He as <-; rewrite <- app_assoc; reflexivity.
Qed.

End ApiCallResults.

Lemma apiCall_result_by_last_answer_witness :
  exists n,
    n <= 3
    /\ fetch_count
         [ Fetch Sample2.create_table_request; Sleep 2000;
           Fetch Sample2.create_table_request; Sleep 2000;
           Fetch Sample2.create_table_request ]
       = fetch_count [] + n
    /\ 1 <= n
    /\ classify (PathTables #"app1")
         (Sample2.flaky_network (fetch_count [] + (n - 1)))
       = Accepted Sample2.table_created
    /\ code Sample2.table_created = 0%Z.
Proof.
  apply (@apiCall_result_by_last_answer Sample2.flaky_network #"t-1"
           (PathTables #"app1") (BodyName #"Customers") 3 []
           [ Fetch Sample2.create_table_request; Sleep 2000;
             Fetch Sample2.create_table_request; Sleep 2000;
             Fetch Sample2.create_table_request ]
           (Returned (Some Sample2.table_created))).
  vm_compute. reflexivity.
Defined.

Lemma apiCall_returns_first_accepted_witness :
  apiCall Sample2.flaky_network #"t-1" (PathTables #"app1")
    (BodyName #"Customers") default_retries []
  = (Returned (Some Sample2.table_created),
     [ Fetch Sample2.create_table_request; Sleep 2000;
       Fetch Sample2.create_table_request; Sleep 2000;
       Fetch Sample2.create_table_request ]).
Proof.
  apply (@apiCall_returns_first_accepted Sample2.flaky_network #"t-1"
           (PathTables #"app1") (BodyName #"Customers") default_retries 2 []
           Sample2.table_created).
  - unfold default_retries. lia.
  - intros k Hk. destruct k as [|[|k]]; [reflexivity | reflexivity | lia].
  - reflexivity.
Defined.

Lemma apiCall_throws_error_of_last_answer_witness :
  apiCall Sample2.limited_network #"t-1" (PathTables #"app1")
    (BodyName #"Customers") default_retries []
  = (Thrown (LarkApiError #"request trigger frequency limit" 99991400
               (PathTables #"app1")),
     [ Fetch Sample2.create_table_request; Sleep 2000;
       Fetch Sample2.create_table_request; Sleep 2000;
       Fetch Sample2.create_table_request ]).
Proof.
  apply (@apiCall_throws_error_of_last_answer Sample2.limited_network #"t-1"
           (PathTables #"app1") (BodyName #"Customers") default_retries []).
  - unfold default_retries. lia.
  - intros k Hk. destruct k as [|[|k]];
      [reflexivity | reflexivity | unfold default_retries in Hk; lia].
  - reflexivity.
Defined.

(* ===================================================================== *)
(** * Properties of the token acquirer *)
(* ===================================================================== *)

(** X7.  Without both credentials [getTenantAccessToken] throws at once and
    sends nothing.  With them it sends exactly one request, carrying the
    two credentials, and never retries or pauses, whatever the answer (a
    429 included); it returns a token exactly when that answer is HTTP-ok
    JSON with [code] 0, and the token is the one of that answer. *)
Theorem getTenantAccessToken_single_request (net : nat -> FetchResult)
    (env : Env) (w : world) :
  (unset (LARK_APP_ID env) \/ unset (LARK_APP_SECRET env) ->
   getTenantAccessToken net env w = (Thrown CredentialsMissing, w))
  /\ (forall app_id app_secret,
        LARK_APP_ID env = Some app_id -> app_id <> [] ->
        LARK_APP_SECRET env = Some app_secret -> app_secret <> [] ->
        snd (getTenantAccessToken net env w)
          = w ++ [Fetch (TokenRequest app_id app_secret)]
        /\ forall t,
             fst (getTenantAccessToken net env w) = Returned t
             <-> grants (net (fetch_count w)) t).
Proof.
  unfold getTenantAccessToken. split.
  - intros [[H | H] | [H | H]]; rewrite H;
      try reflexivity; destruct (LARK_APP_ID env) as [[|c s]|]; reflexivity.
  - intros app_id app_secret Hid Hid' Hsec Hsec'. rewrite Hid, Hsec.
    destruct app_id as [|c1 id]; [congruence|].
    destruct app_secret as [|c2 sec]; [congruence|].
    unfold bind, fetch, response_json, grants.
    destruct (net (fetch_count w)) as [reason | r].
    + split; [reflexivity|]. intros t. simpl. split; [discriminate|].
      intros (r & d & H & _). discriminate H.
    + destruct (Response.ok r) eqn:Hok; simpl.
      * destruct (Response.json r) as [d|] eqn:Hjson; simpl.
        -- destruct (code d =? 0)%Z eqn:Hcode; simpl.
           ++ split; [reflexivity|]. intros t. split.
              ** intros H. injection H as <-. exists r, d.
                 apply Z.eqb_eq in Hcode. auto.
              ** intros (r' & d' & Hr & _ & Hj & _ & Ht).
                 injection Hr as <-. rewrite Hjson in Hj.
                 injection Hj as <-. rewrite Ht. reflexivity.
           ++ split; [reflexivity|]. intros t. split; [discriminate|].
              intros (r' & d' & Hr & _ & Hj & Hc & _).
              injection Hr as <-. rewrite Hjson in Hj. injection Hj as <-.
              apply Z.eqb_neq in Hcode. contradiction.
        -- split; [reflexivity|]. intros t. split; [discriminate|].
           intros (r' & d' & Hr & _ & Hj & _).
           injection Hr as <-. rewrite Hjson in Hj. discriminate Hj.
      * split; [reflexivity|]. intros t. split; [discriminate|].
        intros (r' & d' & Hr & Hok' & _).
        injection Hr as <-. rewrite Hok in Hok'. discriminate Hok'.
Qed.

Lemma getTenantAccessToken_witness :
  getTenantAccessToken (fun _ => Sample.token_ok)
    (mkEnv (Some #"key") (Some #"app") None) []
  = (Thrown CredentialsMissing, [])
  /\ snd (getTenantAccessToken (fun _ => Sample.too_many_requests) Sample.env [])
     = [] ++ [Fetch (TokenRequest #"app" #"secret")].
Proof.
  split.
  - apply (proj1 (getTenantAccessToken_single_request (fun _ => Sample.token_ok)
                    (mkEnv (Some #"key") (Some #"app") None) [])).
    right. left. reflexivity.
  - apply (proj2 (getTenantAccessToken_single_request
                    (fun _ => Sample.too_many_requests) Sample.env [])
             #"app" #"secret"); try reflexivity; discriminate.
Defined.

(* ===================================================================== *)
(** * Further properties of the schema generator *)
(* ===================================================================== *)

Section GeneratorResults.

Variable net : nat -> FetchResult.
Variable JSON_parse : jsstring -> option Parsed.

Lemma generate_loop_result (apiKey userPrompt : jsstring) (k : nat) :
  forall (attempt : nat) (w w' : world) (lastError : option Error)
         (o : outcome Schema.t),
    generate_loop net JSON_parse apiKey userPrompt lastError (S k) attempt w
      = (o, w') ->
    exists n,
      1 <= n <= S k
      /\ fetch_count w' = fetch_count w + n
      /\ match o with
         | Returned s =>
             attempt_outcome JSON_parse (net (fetch_count w + (n - 1)))
               (attempt + (n - 1)) = Returned s
         | Thrown e =>
             n = S k
             /\ exists e', e = AiFailed e'
                  /\ attempt_outcome JSON_parse (net (fetch_count w + (n - 1)))
                       (attempt + (n - 1)) = Thrown e'
         end.
Proof.
  induction k as [|k IH]; intros attempt w w' lastError o Hrun;
    destruct (attempt_outcome JSON_parse (net (fetch_count w)) attempt)
      as [s | e0] eqn:Hout.
  1, 3:
    (assert (E : (o, w') = (Returned s,
                            w ++ [Fetch (GeminiRequest apiKey userPrompt)]))
       by (rewrite <- Hrun; simpl; unfold bind at 1, try_catch, bind at 1;
           rewrite generate_attempt_run, Hout; reflexivity);
     injection E as -> ->; exists 1; split; [lia|];
     split; [autorewrite with world_log; simpl; lia|];
     simpl; rewrite !Nat.add_0_r; exact Hout).
  - rewrite (@generate_loop_step_failure net JSON_parse apiKey userPrompt
               lastError 0 attempt w e0 Hout) in Hrun.
    simpl in Hrun. injection Hrun as <- <-. exists 1. split; [lia|].
    split.
    + rewrite app_nil_r. destruct (attempt <? MAX_ATTEMPTS);
        autorewrite with world_log; simpl; lia.
    + split; [reflexivity|]. exists e0. simpl. rewrite !Nat.add_0_r. auto.
  - rewrite (@generate_loop_step_failure net JSON_parse apiKey userPrompt
               lastError (S k) attempt w e0 Hout) in Hrun.
    destruct (IH _ _ _ _ _ Hrun) as (n & Hn & Hfc & Hpost).
    rewrite fetch_count_app,
      (@fetch_count_retry_log apiKey userPrompt 1 attempt) in Hfc, Hpost.
    exists (S n). split; [lia|]. split; [lia|].
    replace (fetch_count w + (S n - 1)) with (fetch_count w + 1 + (n - 1))
      by lia.
    replace (attempt + (S n - 1)) with (S attempt + (n - 1)) by lia.
    destruct o as [s | e]; [exact Hpost|].
    destruct Hpost as [-> Hpost]. split; [reflexivity | exact Hpost].
Qed.

(** X8.  Without an API key [generateSchemaFromAI] throws at once and sends
    nothing.  With one it sends between 1 and 5 requests, all to the AI
    endpoint, and its result is that of the last attempt made: a returned
    schema is the one read from the last answer, with a non-empty
    [baseName] and at least one table; an error is thrown only after the
    fifth attempt and wraps the error of that attempt. *)
Theorem generateSchemaFromAI_result (userPrompt : jsstring)
    (apiKey : option jsstring) (w w' : world) (o : outcome Schema.t) :
  generateSchemaFromAI net JSON_parse userPrompt apiKey w = (o, w') ->
  (unset apiKey -> o = Thrown ApiKeyMissing /\ w' = w)
  /\ (forall key,
        apiKey = Some key -> key <> [] ->
        exists n,
          1 <= n <= 5
          /\ fetch_count w' = fetch_count w + n
          /\ extends_with generator_event w w'
          /\ match o with
             | Returned s =>
                 attempt_outcome JSON_parse (net (fetch_count w + (n - 1))) n
                   = Returned s
                 /\ Schema.baseName s <> [] /\ Schema.tables s <> []
             | Thrown e =>
                 n = 5
                 /\ exists e', e = AiFailed e'
                      /\ attempt_outcome JSON_parse (net (fetch_count w + 4)) 5
                         = Thrown e'
             end).
Proof.
  intros Hrun. split.
  - intros [-> | ->]; simpl in Hrun; injection Hrun as <- <-; auto.
  - intros key -> Hkey.
    destruct (generateSchemaFromAI_sound net JSON_parse userPrompt (Some key) w)
      as [Hext Hvalid].
    rewrite Hrun in Hext. simpl in Hext.
    assert (Hloop : generate_loop net JSON_parse key userPrompt None
                      MAX_ATTEMPTS 1 w = (o, w')).
    { rewrite <- Hrun. unfold generateSchemaFromAI.
      destruct key; [congruence | reflexivity]. }
    destruct (generate_loop_result _ _ _ _ _ _ Hloop) as (n & Hn & Hfc & Hpost).
    exists n. split; [exact Hn|]. split; [exact Hfc|]. split; [exact Hext|].
    replace (1 + (n - 1)) with n in Hpost by lia.
    destruct o as [s | e].
    + split; [exact Hpost|]. apply (Hvalid s w'). exact Hrun.
    + destruct Hpost as [-> Hpost]. split; [reflexivity | exact Hpost].
Qed.

End GeneratorResults.

Lemma generateSchemaFromAI_result_witness :
  exists n,
    1 <= n <= 5
    /\ fetch_count [ Fetch (GeminiRequest #"key" Sample.crm_prompt); Sleep 1000;
                     Fetch (GeminiRequest #"key" Sample.crm_prompt) ]
       = fetch_count [] + n
    /\ extends_with generator_event []
         [ Fetch (GeminiRequest #"key" Sample.crm_prompt); Sleep 1000;
           Fetch (GeminiRequest #"key" Sample.crm_prompt) ]
    /\ attempt_outcome (Sample.parse_only Sample.crm)
         (Sample.scripted [Sample.server_error; Sample.ai_answer Sample.fenced_text]
            (fetch_count [] + (n - 1))) n
       = Returned Sample.crm
    /\ Schema.baseName Sample.crm <> [] /\ Schema.tables Sample.crm <> [].
Proof.
  apply (proj2 (@generateSchemaFromAI_result
           (Sample.scripted [Sample.server_error; Sample.ai_answer Sample.fenced_text])
           (Sample.parse_only Sample.crm) Sample.crm_prompt (Some #"key") []
           [ Fetch (GeminiRequest #"key" Sample.crm_prompt); Sleep 1000;
             Fetch (GeminiRequest #"key" Sample.crm_prompt) ]
           (Returned Sample.crm) ltac:(vm_compute; reflexivity))
          #"key" eq_refl).
  discriminate.
Defined.

(** ** The fenced block *)

Lemma starts_with_app (p s : jsstring) : starts_with p (p ++ s) = true.
Proof.
  induction p as [|c p IH]; simpl; [reflexivity|].
  rewrite N.eqb_refl. exact IH.
Qed.

Lemma starts_with_cons (x c : N) (p l : jsstring) :
  starts_with (x :: p) (c :: l) = (x =? c)%N && starts_with p l.
Proof. reflexivity. Qed.

Lemma skipn_length_app {A} (p s : list A) : skipn (length p) (p ++ s) = s.
Proof. induction p; simpl; auto. Qed.

Lemma skip_ws_app_whitespace (ws s : jsstring) :
  all_whitespace ws -> skip_ws (ws ++ s) = skip_ws s.
Proof.
  unfold all_whitespace. induction ws as [|c ws IH]; simpl; [reflexivity|].
  intros H. apply andb_true_iff in H. destruct H as [-> H]. auto.
Qed.

(** Skipping white space inside a payload that does not end with white
    space stops on a unit of the payload. *)
Lemma skip_ws_payload (b rest : jsstring) :
  b <> [] ->
  is_whitespace (last b 0%N) = false ->
  exists c b', skip_ws (b ++ rest) = c :: b' ++ rest /\ In c b.
Proof.
  induction b as [|c b IH]; intros Hne Hlast; [congruence|].
  simpl app. simpl skip_ws.
  destruct (is_whitespace c) eqn:Hc.
  - destruct b as [|c' b].
    + simpl in Hlast. congruence.
    + destruct IH as (x & b' & E & Hin); [discriminate | exact Hlast |].
      exists x, b'. split; [exact E | right; exact Hin].
  - exists c, b. split; [reflexivity | left; reflexivity].
Qed.

Lemma closes_here_payload (b rest : jsstring) :
  b <> [] -> no_backtick b -> is_whitespace (last b 0%N) = false ->
  closes_here (b ++ rest) = false.
Proof.
  intros Hne Hnb Hlast. unfold closes_here.
  destruct (skip_ws_payload rest Hne Hlast) as (c & b' & -> & Hin).
  change FENCE_CLOSE with (BACKTICK :: skipn 1 FENCE_CLOSE).
  rewrite starts_with_cons.
  replace (BACKTICK =? c)%N with false; [reflexivity|].
  symmetry. apply N.eqb_neq. intros <-. apply Hnb. exact Hin.
Qed.

Lemma closes_here_closing (ws after : jsstring) :
  all_whitespace ws -> closes_here (ws ++ FENCE_CLOSE ++ after) = true.
Proof.
  intros H. unfold closes_here. rewrite (skip_ws_app_whitespace _ H).
  reflexivity.
Qed.

Lemma lazy_group_payload (b ws after : jsstring) :
  b <> [] -> no_backtick b -> is_whitespace (last b 0%N) = false ->
  all_whitespace ws ->
  lazy_group (b ++ ws ++ FENCE_CLOSE ++ after) = Some b.
Proof.
  intros Hne Hnb Hlast Hws.
  induction b as [|c b IH]; [congruence|].
  change ((c :: b) ++ ws ++ FENCE_CLOSE ++ after)
    with (c :: (b ++ ws ++ FENCE_CLOSE ++ after)).
  rewrite lazy_group_unfold.
  change (c :: (b ++ ws ++ FENCE_CLOSE ++ after))
    with ((c :: b) ++ ws ++ FENCE_CLOSE ++ after).
  rewrite (closes_here_payload _ Hne Hnb Hlast).
  destruct b as [|c' b].
  - change ([] ++ ws ++ FENCE_CLOSE ++ after) with (ws ++ FENCE_CLOSE ++ after).
    assert (E : lazy_group (ws ++ FENCE_CLOSE ++ after) = Some []).
    { destruct (ws ++ FENCE_CLOSE ++ after) as [|x l] eqn:El.
      - destruct ws; discriminate El.
      - rewrite lazy_group_unfold, <- El, (closes_here_closing _ Hws).
        reflexivity. }
    rewrite E. reflexivity.
  - rewrite IH; [reflexivity | discriminate | | exact Hlast].
    intros Hin. apply Hnb. right. exact Hin.
Qed.

Lemma fence_match_unfold (s : jsstring) :
  fence_match s
  = match match_at s with
    | Some g => Some g
    | None => match s with
              | [] => None
              | _ :: s' => fence_match s'
              end
    end.
Proof. destruct s; reflexivity. Qed.

Lemma starts_with_longer (p s t : jsstring) :
  length p <= length s -> starts_with p (s ++ t) = starts_with p s.
Proof.
  revert s. induction p as [|x p IH]; intros s H; [destruct s; reflexivity|].
  destruct s as [|c s]; [simpl in H; lia|].
  simpl. rewrite IH by (simpl in H; lia). reflexivity.
Qed.

(** Only the first units of what follows [before] matter. *)
Lemma fence_opens_in_app (before more : jsstring) :
  fence_opens_in before (FENCE_OPEN ++ more)
  = fence_opens_in before FENCE_OPEN.
Proof.
  induction before as [|c before IH]; [reflexivity|].
  cbn [fence_opens_in]. rewrite IH. f_equal.
  rewrite app_assoc. apply starts_with_longer.
  rewrite length_app. change (length FENCE_OPEN) with 7. lia.
Qed.

(** A text without a backquote opens no fence. *)
Lemma no_backtick_no_fence (before rest : jsstring) :
  no_backtick before -> fence_opens_in before rest = false.
Proof.
  induction before as [|c before IH]; intros Hnb; [reflexivity|].
  cbn [fence_opens_in]. rewrite IH by (intros Hin; apply Hnb; right; exact Hin).
  rewrite orb_false_r.
  change ((c :: before) ++ rest) with (c :: (before ++ rest)).
  change FENCE_OPEN with (BACKTICK :: skipn 1 FENCE_OPEN).
  rewrite starts_with_cons.
  replace (BACKTICK =? c)%N with false; [reflexivity|].
  symmetry. apply N.eqb_neq. intros <-. apply Hnb. left. reflexivity.
Qed.

Lemma fence_match_skips (before s : jsstring) :
  fence_opens_in before s = false ->
  fence_match (before ++ s) = fence_match s.
Proof.
  induction before as [|c before IH]; intros H; [reflexivity|].
  cbn [fence_opens_in] in H. apply orb_false_iff in H. destruct H as [Hc H].
  rewrite fence_match_unfold. unfold match_at. rewrite Hc.
  change ((c :: before) ++ s) with (c :: (before ++ s)). cbv iota.
  apply IH. exact H.
Qed.

Lemma fence_match_fenced (before ws1 payload ws2 after : jsstring) :
  fence_opens_in before FENCE_OPEN = false ->
  all_whitespace ws1 -> all_whitespace ws2 ->
  fenceable payload ->
  fence_match (fenced before ws1 payload ws2 after) = Some payload.
Proof.
  intros Hb H1 H2 (Hne & Hnb & Hhd & Hlast). unfold fenced.
  rewrite fence_match_skips by (rewrite fence_opens_in_app; exact Hb).
  assert (E : match_at (FENCE_OPEN ++ ws1 ++ payload ++ ws2 ++ FENCE_CLOSE ++ after)
              = Some payload).
  { unfold match_at. rewrite starts_with_app, skipn_length_app.
    rewrite (skip_ws_app_whitespace _ H1).
    assert (Es : skip_ws (payload ++ ws2 ++ FENCE_CLOSE ++ after)
                 = payload ++ ws2 ++ FENCE_CLOSE ++ after).
    { destruct payload as [|c p]; [congruence|]. simpl in *.
      rewrite Hhd. reflexivity. }
    rewrite Es. apply lazy_group_payload; assumption. }
  rewrite fence_match_unfold, E. reflexivity.
Qed.

(** X9.  An answer that holds a payload in a block fenced as json.  When
    no opening fence starts in the text before the block (as in any text
    without a backquote), the fences are separated from the payload by
    white space only, and the payload is not empty, holds no backquote and
    neither starts nor ends with white space, the pattern gives back
    exactly the payload, whatever follows the closing fence.  So when
    [JSON.parse] rejects the whole answer, [parseRawText] yields what
    [JSON.parse] reads from the payload and, when it rejects the payload
    too, what the brace scan makes of the whole answer; and a payload that
    [JSON.parse] reads gives in its fence what it gives bare. *)
Theorem parseRawText_fenced_payload (JSON_parse : jsstring -> option Parsed)
    (before ws1 payload ws2 after : jsstring) :
  fence_opens_in before FENCE_OPEN = false ->
  all_whitespace ws1 -> all_whitespace ws2 ->
  fenceable payload ->
  fence_match (fenced before ws1 payload ws2 after) = Some payload
  /\ (JSON_parse (fenced before ws1 payload ws2 after) = None ->
      parseRawText JSON_parse (fenced before ws1 payload ws2 after)
      = match JSON_parse payload with
        | Some v => Returned (Some v)
        | None => brace_scan JSON_parse (fenced before ws1 payload ws2 after)
        end)
  /\ (forall v,
        JSON_parse (fenced before ws1 payload ws2 after) = None ->
        JSON_parse payload = Some v ->
        parseRawText JSON_parse (fenced before ws1 payload ws2 after)
        = parseRawText JSON_parse payload).
Proof.
  intros Hb H1 H2 Hp.
  pose proof (@fence_match_fenced before ws1 payload ws2 after Hb H1 H2 Hp)
    as Hm.
  assert (Hwhole :
    JSON_parse (fenced before ws1 payload ws2 after) = None ->
    parseRawText JSON_parse (fenced before ws1 payload ws2 after)
    = match JSON_parse payload with
      | Some v => Returned (Some v)
      | None => brace_scan JSON_parse (fenced before ws1 payload ws2 after)
      end).
  { intros Hnone. unfold parseRawText, brace_scan. rewrite Hnone, Hm.
    destruct Hp as (Hne & _). destruct payload; [congruence|].
    reflexivity. }
  split; [exact Hm|]. split; [exact Hwhole|].
  intros v Hnone Hpay. rewrite (Hwhole Hnone), Hpay.
  unfold parseRawText. rewrite Hpay. reflexivity.
Qed.

Lemma parseRawText_fenced_payload_witness :
  fence_match
    (fenced #"Some `code`: " [10%N] (Sample.json_schema Sample.crm)
       [32%N; 10%N] #" Enjoy ```json")
  = Some (Sample.json_schema Sample.crm)
  /\ parseRawText (Sample.parse_only Sample.crm)
       (fenced #"Some `code`: " [10%N] (Sample.json_schema Sample.crm)
          [32%N; 10%N] #" Enjoy ```json")
     = Returned (Some (ParsedValue (Some #"CRM")
                         (Some [Sample.customers; Sample.orders]))).
Proof.
  destruct (@parseRawText_fenced_payload (Sample.parse_only Sample.crm)
              #"Some `code`: " [10%N] (Sample.json_schema Sample.crm)
              [32%N; 10%N] #" Enjoy ```json")
    as (Hm & Hwhole & _).
  - reflexivity.
  - reflexivity.
  - reflexivity.
  - repeat split; try (vm_compute; reflexivity).
    + discriminate.
    + vm_compute. intros H.
      repeat (destruct H as [H | H]; [discriminate H|]). exact H.
  - split; [exact Hm|]. rewrite Hwhole by (vm_compute; reflexivity).
    vm_compute. reflexivity.
Defined.

(** With an earlier opening fence in the text before the block, the
    pattern reads the earlier block. *)
Example fence_match_earlier_fence :
  fence_match
    (fenced (#"```json" ++ #"{}" ++ #"```" ++ #" or ") [10%N]
       (Sample.json_schema Sample.crm) [10%N] [])
  = Some #"{}".
Proof. vm_compute. reflexivity. Qed.

(** ** The brace span *)

Lemma indexOf_app (c : N) (pre post : jsstring) :
  ~ In c pre -> indexOf c (pre ++ c :: post) = Some (length pre).
Proof.
  induction pre as [|x pre IH]; intros H; simpl.
  - rewrite N.eqb_refl. reflexivity.
  - replace (x =? c)%N with false
      by (symmetry; apply N.eqb_neq; intros ->; apply H; left; reflexivity).
    rewrite IH; [reflexivity|]. intros Hin. apply H. right. exact Hin.
Qed.

Lemma indexOf_split (c : N) (s : jsstring) (i : nat) :
  indexOf c s = Some i ->
  exists pre post, s = pre ++ c :: post /\ length pre = i /\ ~ In c pre.
Proof.
  revert i. induction s as [|x s IH]; intros i H; simpl in H; [discriminate|].
  destruct (x =? c)%N eqn:E.
  - apply N.eqb_eq in E. subst. injection H as <-.
    exists [], s. repeat split. intros [].
  - destruct (indexOf c s) as [j|]; [|discriminate]. injection H as <-.
    destruct (IH j eq_refl) as (pre & post & -> & <- & Hn).
    exists (x :: pre), post. repeat split.
    intros [-> | Hin]; [|contradiction].
    rewrite N.eqb_refl in E. discriminate.
Qed.

Lemma lastIndexOf_absent (c : N) (s : jsstring) :
  ~ In c s -> lastIndexOf c s = None.
Proof.
  induction s as [|x s IH]; intros H; simpl; [reflexivity|].
  rewrite IH by (intros Hin; apply H; right; exact Hin).
  replace (x =? c)%N with false; [reflexivity|].
  symmetry. apply N.eqb_neq. intros ->. apply H. left. reflexivity.
Qed.

Lemma lastIndexOf_app (c : N) (pre post : jsstring) :
  ~ In c post -> lastIndexOf c (pre ++ c :: post) = Some (length pre).
Proof.
  intros H. induction pre as [|x pre IH]; simpl.
  - rewrite (@lastIndexOf_absent c post H), N.eqb_refl. reflexivity.
  - rewrite IH. reflexivity.
Qed.

Lemma lastIndexOf_split (c : N) (s : jsstring) (i : nat) :
  lastIndexOf c s = Some i ->
  exists pre post, s = pre ++ c :: post /\ length pre = i /\ ~ In c post.
Proof.
  revert i. induction s as [|x s IH]; intros i H; simpl in H; [discriminate|].
  destruct (lastIndexOf c s) as [j|] eqn:Ej.
  - injection H as <-.
    destruct (IH j eq_refl) as (pre & post & -> & <- & Hn).
    exists (x :: pre), post. repeat split. exact Hn.
  - destruct (x =? c)%N eqn:E; [|discriminate].
    apply N.eqb_eq in E. subst. injection H as <-.
    exists [], s. repeat split.
    intros Hin. clear IH. induction s as [|y s IHs]; [destruct Hin|].
    simpl in Ej. destruct (lastIndexOf c s) as [j|]; [discriminate|].
    destruct (y =? c)%N eqn:Ey; [discriminate|].
    destruct Hin as [-> | Hin]; [rewrite N.eqb_refl in Ey; discriminate|].
    apply IHs; auto.
Qed.

Lemma brace_span_of_parts (before inner after : jsstring) :
  ~ In OPEN_BRACE before -> ~ In CLOSE_BRACE after ->
  brace_span (before ++ OPEN_BRACE :: inner ++ CLOSE_BRACE :: after)
  = Some (OPEN_BRACE :: inner ++ [CLOSE_BRACE]).
Proof.
  intros Hb Ha. unfold brace_span.
  change 123%N with OPEN_BRACE. change 125%N with CLOSE_BRACE.
  rewrite (@indexOf_app OPEN_BRACE before _ Hb).
  change (before ++ OPEN_BRACE :: inner ++ CLOSE_BRACE :: after)
    with (before ++ (OPEN_BRACE :: inner) ++ CLOSE_BRACE :: after).
  rewrite app_assoc.
  rewrite (@lastIndexOf_app CLOSE_BRACE _ after Ha).
  rewrite length_app. simpl length.
  replace (length before <? length before + S (length inner)) with true
    by (symmetry; apply Nat.ltb_lt; lia).
  unfold substring. rewrite <- app_assoc, skipn_length_app.
  replace (length before + S (length inner) + 1 - length before)
    with (length (OPEN_BRACE :: inner ++ [CLOSE_BRACE]))
    by (simpl; rewrite length_app; simpl; lia).
  change ((OPEN_BRACE :: inner) ++ CLOSE_BRACE :: after)
    with (OPEN_BRACE :: inner ++ [CLOSE_BRACE] ++ after).
  rewrite app_assoc.
  change (OPEN_BRACE :: (inner ++ [CLOSE_BRACE]) ++ after)
    with ((OPEN_BRACE :: inner ++ [CLOSE_BRACE]) ++ after).
  rewrite firstn_app, Nat.sub_diag, firstn_all, firstn_O, app_nil_r.
  reflexivity.
Qed.

(** X10.  The brace scan finds a span exactly when the text has an opening
    brace before its last closing brace, and the span is then the text from
    the first opening brace to the last closing brace, both included. *)
Theorem brace_span_first_to_last (rawText span : jsstring) :
  brace_span rawText = Some span
  <-> exists before inner after,
        rawText = before ++ OPEN_BRACE :: inner ++ CLOSE_BRACE :: after
        /\ ~ In OPEN_BRACE before
        /\ ~ In CLOSE_BRACE after
        /\ span = OPEN_BRACE :: inner ++ [CLOSE_BRACE].
Proof.
  split.
  - intros H. pose proof H as H0. unfold brace_span in H.
    destruct (indexOf 123 rawText) as [f|] eqn:Ef; [|discriminate].
    destruct (lastIndexOf 125 rawText) as [l|] eqn:El; [|discriminate].
    destruct (f <? l) eqn:Hlt; [|discriminate]. apply Nat.ltb_lt in Hlt.
    destruct (@indexOf_split _ _ _ Ef) as (p1 & q1 & E1 & L1 & N1).
    destruct (@lastIndexOf_split _ _ _ El) as (p2 & q2 & E2 & L2 & N2).
    assert (Ep2 : p2 = p1 ++ OPEN_BRACE :: firstn (l - f - 1) q1).
    { assert (F : firstn l rawText = p2).
      { rewrite E2, <- L2, firstn_app, Nat.sub_diag, firstn_all. simpl.
        apply app_nil_r. }
      rewrite <- F, E1, firstn_app, L1.
      rewrite firstn_all2 by lia.
      remember (l - f - 1) as m eqn:Em.
      replace (l - f) with (S m) by lia. reflexivity. }
    exists p1, (firstn (l - f - 1) q1), q2.
    assert (Eraw : rawText
                   = p1 ++ OPEN_BRACE :: firstn (l - f - 1) q1
                        ++ CLOSE_BRACE :: q2).
    { rewrite E2 at 1. rewrite Ep2, <- app_assoc. reflexivity. }
    split; [exact Eraw|]. split; [exact N1|]. split; [exact N2|].
    rewrite Eraw in H0.
    rewrite (@brace_span_of_parts p1 (firstn (l - f - 1) q1) q2 N1 N2) in H0.
    congruence.
  - intros (before & inner & after & -> & Hb & Ha & ->).
    apply brace_span_of_parts; assumption.
Qed.

(* ===================================================================== *)
(** * Further properties of the orchestrator *)
(* ===================================================================== *)

Section TableRuns.

Variable net : nat -> FetchResult.
Variable timestamp : nat -> nat -> Z.
Variables (token appToken : jsstring).

Lemma fields_loop_unmapped (tableId : option jsstring) (fields : list Field.t) :
  all_unmapped fields ->
  forall n w,
    fields_loop net token appToken tableId fields n w = (Returned n, w).
Proof.
  induction fields as [|field rest IH]; intros H n w; [reflexivity|].
  simpl fields_loop. unfold bind at 1, try_catch.
  rewrite (H field) by (left; reflexivity). simpl.
  apply IH. intros f Hf. apply H. right. exact Hf.
Qed.

(** X11.  A table none of whose field types has a mapping is still
    created and reported as [Success], with [fieldsCreated] 0 and
    [recordsAdded] 0: after the table-creation step the orchestrator only
    pauses 500 ms; it sends no field request and, whatever
    [sampleDataCount] is, no record request. *)
Theorem provision_table_without_mapped_fields (table : Table.t)
    (w w1 : world) (id : option jsstring) :
  create_table net token appToken table w = (Returned id, w1) ->
  all_unmapped (Table.fields table) ->
  provision_table net timestamp token appToken table w
  = (Returned (mkResult (Table.name table) STATUS_SUCCESS id (Some 0) (Some 0)
                 None),
     w1 ++ [Sleep 500]).
Proof.
  intros Hcreate Hfields. unfold provision_table, try_catch.
  rewrite (bind_returned _ _ _ Hcreate).
  rewrite (bind_returned (sleep 500) _ w1 (a := tt) (w' := w1 ++ [Sleep 500])
             eq_refl).
  rewrite (bind_returned _ _ _
             (@fields_loop_unmapped id (Table.fields table) Hfields 0
                (w1 ++ [Sleep 500]))).
  rewrite andb_false_r. reflexivity.
Qed.

Lemma emits_fields_loop (P : event -> Prop) (tableId : option jsstring)
    (fields : list Field.t) :
  (forall ms, P (Sleep ms)) ->
  (forall name ty prop,
      P (Fetch (ApiRequest token (PathFields appToken tableId)
                  (BodyField name ty prop)))) ->
  forall n, emits P (fields_loop net token appToken tableId fields n).
Proof.
  intros Hs Hf. induction fields as [|field rest IH]; intros n; simpl;
    [apply emits_ret|].
  apply emits_bind; [|intros a; apply IH].
  apply emits_try_catch; [|intros e; apply emits_ret].
  destruct (getFieldProperty (Field.type field) (options_or_empty field));
    [apply emits_ret | |];
    (apply emits_bind; [apply emits_apiCall; auto|]; intros _;
     apply emits_bind; [apply emits_sleep; auto|]; intros _; apply emits_ret).
Qed.

Lemma batch_offsets_inside (n i : nat) :
  In i (batch_offsets n) -> exists k, i = k * batchSize /\ k * batchSize < n.
Proof.
  unfold batch_offsets. intros H. apply in_map_iff in H.
  destruct H as (k & <- & Hk). exists k. split; [reflexivity|].
  apply in_seq in Hk. change (batchSize - 1) with 9 in Hk.
  change batchSize with 10 in *.
  pose proof (Nat.Div0.mul_div_le (n + 9) 10). lia.
Qed.

Lemma emits_batch_loop_slices (tableId : option jsstring)
    (all : list RecordFields) (offsets : list nat) :
  (forall i, In i offsets ->
             exists k, i = k * batchSize /\ k * batchSize < length all) ->
  forall allResults,
    emits (slice_event token appToken tableId all)
      (batch_loop net token appToken tableId all offsets allResults).
Proof.
  induction offsets as [|i rest IH]; intros Hoff allResults; simpl;
    [apply emits_ret|].
  destruct (Hoff i (or_introl eq_refl)) as (k & -> & Hk).
  apply emits_bind;
    [|intros a; apply IH; intros j Hj; apply Hoff; right; exact Hj].
  apply emits_try_catch; [|intros e; apply emits_ret].
  apply emits_bind.
  - apply emits_apiCall.
    + right. exists k. split; [exact Hk | reflexivity].
    + intros ms. left. apply is_sleep_intro.
  - intros [r|]; [|apply emits_throw].
    apply emits_bind; [|intros _; apply emits_ret].
    destruct (k * batchSize + batchSize <? length all); [|apply emits_ret].
    apply emits_sleep. left. apply is_sleep_intro.
Qed.

Lemma emits_addSampleRecords (tableId : option jsstring)
    (fields : list Field.t) (count : Z) :
  emits (slice_event token appToken tableId
           (rows_loop timestamp fields (seq 0 (Z.to_nat count)) []))
    (addSampleRecords net timestamp token appToken tableId fields count).
Proof.
  unfold addSampleRecords.
  destruct ((count <=? 0)%Z || (length fields =? 0)); [apply emits_ret|].
  destruct (rows_loop timestamp fields (seq 0 (Z.to_nat count)) [])
    as [|r0 rows] eqn:E; [apply emits_ret|].
  apply emits_batch_loop_slices. apply batch_offsets_inside.
Qed.

Lemma emits_create_table (P : event -> Prop) (table : Table.t) :
  (forall ms, P (Sleep ms)) ->
  P (Fetch (ApiRequest token (PathTables appToken) (BodyName (Table.name table)))) ->
  emits P (create_table net token appToken table).
Proof.
  intros Hs Hf. unfold create_table.
  apply emits_bind; [apply emits_apiCall; auto|].
  intros res. apply emits_bind; [|intros d; apply emits_ret].
  unfold data_of. destruct res as [r|]; [|apply emits_throw].
  destruct (data r); [apply emits_ret | apply emits_throw].
Qed.

Lemma emits_provision_table (P : event -> Prop) (table : Table.t) :
  (forall ms, P (Sleep ms)) ->
  P (Fetch (ApiRequest token (PathTables appToken) (BodyName (Table.name table)))) ->
  (forall id name ty prop,
      P (Fetch (ApiRequest token (PathFields appToken id)
                  (BodyField name ty prop)))) ->
  (forall id e,
      slice_event token appToken id
        (rows_loop timestamp (Table.fields table)
           (seq 0 (Z.to_nat (Z.min (Table.sampleDataCount table) 20))) []) e ->
      P e) ->
  emits P (provision_table net timestamp token appToken table).
Proof.
  intros Hs Ht Hf Hb. unfold provision_table.
  apply emits_try_catch; [|intros e; apply emits_ret].
  apply emits_bind; [apply emits_create_table; auto|]. intros id.
  apply emits_bind; [apply emits_sleep; auto|]. intros _.
  apply emits_bind; [apply emits_fields_loop; auto|]. intros n.
  apply emits_bind; [|intros k; apply emits_ret].
  destruct ((0 <? Table.sampleDataCount table)%Z && (0 <? n));
    [|apply emits_ret].
  apply emits_try_catch; [|intros e; apply emits_ret].
  apply emits_bind; [|intros r; apply emits_ret].
  eapply emits_weaken; [|apply emits_addSampleRecords]. apply Hb.
Qed.

Lemma slice_event_within (id : option jsstring) (fields : list Field.t)
    (limit : nat) (e : event) :
  slice_event token appToken id
    (rows_loop timestamp fields (seq 0 limit) []) e ->
  batches_within timestamp fields limit e.
Proof.
  intros [[ms ->] | (k & Hk & ->)] b Hb;
    unfold submitted_batches in Hb; cbn [flat_map app] in Hb;
    [destruct Hb|].
  destruct Hb as [<- | []]. split.
  - rewrite length_firstn, length_skipn. unfold batchSize in *. lia.
  - intros r Hr. apply In_firstn, In_skipn in Hr.
    destruct (@rows_loop_In timestamp fields (seq 0 limit) r Hr)
      as (j & Hj & Hrec & Hne & _).
    exists j. apply in_seq in Hj. repeat split; auto. lia.
Qed.

Lemma submitted_batches_Forall (P : list RecordFields -> Prop)
    (log : list event) :
  Forall (fun e => forall b, In b (submitted_batches [e]) -> P b) log ->
  forall b, In b (submitted_batches log) -> P b.
Proof.
  intros H b Hb. unfold submitted_batches in Hb.
  apply in_flat_map in Hb. destruct Hb as (e & He & Hin).
  rewrite Forall_forall in H. apply (H e He).
  unfold submitted_batches. simpl. rewrite app_nil_r. exact Hin.
Qed.

(** X12.  Whatever [sampleDataCount] asks for and whatever the network
    answers, the record requests sent for one table carry between 1 and 10
    records each; every record was synthesized for the fields of that table
    from a row index below 20 and below [sampleDataCount], and has at least
    one property.  In particular no record request is sent for a table
    whose [sampleDataCount] is 0 or negative. *)
Theorem provision_table_sample_rows_bounded (table : Table.t) (w : world) :
  exists log,
    snd (provision_table net timestamp token appToken table w) = w ++ log
    /\ (forall b, In b (submitted_batches log) ->
                  1 <= length b <= 10
                  /\ forall r, In r b ->
                       exists i, i < 20
                                 /\ (Z.of_nat i < Table.sampleDataCount table)%Z
                                 /\ r = record_loop timestamp (Table.fields table)
                                          i 0 []
                                 /\ r <> [])
    /\ ((Table.sampleDataCount table <= 0)%Z -> submitted_batches log = []).
Proof.
  destruct (@emits_provision_table
              (batches_within timestamp (Table.fields table)
                 (Z.to_nat (Z.min (Table.sampleDataCount table) 20)))
              table) with (w := w) as (log & Hlog & Hall).
  - intros ms b [].
  - intros b [].
  - intros id name ty prop b [].
  - intros id e. apply slice_event_within.
  - exists log. split; [exact Hlog|].
    pose proof (@submitted_batches_Forall _ log Hall) as Hb. cbv beta in Hb.
    split.
    + intros b Hin. destruct (Hb b Hin) as [Hlen Hrows].
      split; [exact Hlen|]. intros r Hr.
      destruct (Hrows r Hr) as (i & Hi & Hrec & Hne).
      exists i. repeat split; auto; lia.
    + intros Hcount.
      destruct (submitted_batches log) as [|b bs] eqn:E; [reflexivity|].
      destruct (Hb b (or_introl eq_refl)) as [Hlen Hrows].
      destruct b as [|r b]; [simpl in Hlen; lia|].
      destruct (Hrows r (or_introl eq_refl)) as (i & Hi & _). lia.
Qed.

End TableRuns.

(** ** Sample records when every batch is accepted *)

Section SampleBatches.

Variable net : nat -> FetchResult.
Variable timestamp : nat -> nat -> Z.
Variables (token appToken : jsstring) (tableId : option jsstring).

Local Abbreviation batch_path := (PathBatchCreate appToken tableId).

Lemma apiCall_accepted (body : RequestBody) (w : world) (d : ResponseBody) :
  classify batch_path (net (fetch_count w)) = Accepted d ->
  apiCall net token batch_path body default_retries w
  = (Returned (Some d), w ++ [Fetch (ApiRequest token batch_path body)]).
Proof.
  intros H. unfold apiCall, default_retries. simpl apiCall_loop.
  unfold bind at 1. rewrite apiCall_attempt_run, H. reflexivity.
Qed.

Lemma pauses_app (l1 l2 : list event) : pauses (l1 ++ l2) = pauses l1 ++ pauses l2.
Proof. unfold pauses. apply flat_map_app. Qed.

Lemma submitted_batches_app (l1 l2 : list event) :
  submitted_batches (l1 ++ l2) = submitted_batches l1 ++ submitted_batches l2.
Proof. unfold submitted_batches. apply flat_map_app. Qed.

Lemma batch_try_accepted (all : list RecordFields) (i : nat)
    (allResults : list jsstring) (w : world) (d : ResponseBody) :
  classify batch_path (net (fetch_count w)) = Accepted d ->
  try_catch
    (result <- apiCall net token batch_path
                 (BodyRecords (firstn batchSize (skipn i all)))
                 default_retries ;;
     match result with
     | None => throw TypeError
     | Some r =>
         (if i + batchSize <? length all then sleep 500 else ret tt) ;;
         ret (allResults ++ records_of r)
     end)
    (fun _ => ret allResults) w
  = (Returned (allResults ++ records_of d),
     w ++ Fetch (ApiRequest token batch_path
                   (BodyRecords (firstn batchSize (skipn i all))))
       :: (if i + batchSize <? length all then [Sleep 500] else [])).
Proof.
  intros H. unfold try_catch, bind at 1.
  rewrite (@apiCall_accepted _ w d H). cbv beta iota.
  destruct (i + batchSize <? length all); unfold bind, sleep, ret;
    cbv beta iota; rewrite <- ?app_assoc; reflexivity.
Qed.

Lemma batch_count_bounds (n : nat) :
  batch_count n * batchSize < n + batchSize
  /\ n <= batch_count n * batchSize.
Proof.
  unfold batch_count. change (batchSize - 1) with 9.
  change batchSize with 10.
  pose proof (Nat.Div0.mul_div_le (n + 9) 10).
  pose proof (Nat.mul_succ_div_gt (n + 9) 10 ltac:(lia)). lia.
Qed.

Lemma batch_loop_accepted (all : list RecordFields)
    (answers : nat -> ResponseBody) (m : nat) :
  forall (a : nat) (w : world) (allResults : list jsstring),
    a + m = batch_count (length all) ->
    (forall k, k < m ->
               classify batch_path (net (fetch_count w + k))
               = Accepted (answers (a + k))) ->
    batch_loop net token appToken tableId all
      (map (fun k => k * batchSize) (seq a m)) allResults w
    = (Returned (allResults
                 ++ flat_map (fun k => records_of (answers k)) (seq a m)),
       w ++ flat_map (accepted_batch_events token appToken tableId all)
              (seq a m)).
Proof.
  pose proof (batch_count_bounds (length all)) as [Hhigh Hlow].
  induction m as [|m IH]; intros a w allResults Hsum Hnet.
  - cbn [seq map batch_loop flat_map]. unfold ret.
    rewrite !app_nil_r. reflexivity.
  - cbn [seq map batch_loop flat_map]. unfold bind at 1.
    pose proof (Hnet 0 ltac:(lia)) as H0. rewrite !Nat.add_0_r in H0.
    rewrite (@batch_try_accepted all (a * batchSize) allResults w
               (answers a) H0).
    assert (Hpause : (a * batchSize + batchSize <? length all)
                     = (S a <? batch_count (length all))).
    { rewrite <- Hsum in *. change batchSize with 10 in *.
      destruct m as [|m'].
      - replace (S a <? a + 1) with false
          by (symmetry; apply Nat.ltb_ge; lia).
        apply Nat.ltb_ge. lia.
      - replace (S a <? a + S (S m')) with true
          by (symmetry; apply Nat.ltb_lt; lia).
        apply Nat.ltb_lt. lia. }
    rewrite Hpause. cbv beta iota.
    fold (accepted_batch_events token appToken tableId all a).
    assert (Hf : fetch_count (accepted_batch_events token appToken tableId
                                all a) = 1).
    { unfold accepted_batch_events.
      destruct (S a <? batch_count (length all)); reflexivity. }
    rewrite (IH (S a) (w ++ accepted_batch_events token appToken tableId all a)
               (allResults ++ records_of (answers a))).
    + rewrite <- !app_assoc. reflexivity.
    + lia.
    + intros k Hk. replace (S a + k) with (a + S k) by lia.
      rewrite <- (Hnet (S k)) by lia. do 2 f_equal.
      rewrite fetch_count_app, Hf. lia.
Qed.

(** What the log of accepted batches holds, from batch [a] on. *)
Lemma accepted_batches_from (all : list RecordFields) (m : nat) :
  forall a,
    a + m = batch_count (length all) ->
    let log := flat_map (accepted_batch_events token appToken tableId all)
                 (seq a m) in
    concat (submitted_batches log) = skipn (a * batchSize) all
    /\ length (submitted_batches log) = m
    /\ fetch_count log = m
    /\ pauses log = repeat 500%Z (m - 1).
Proof.
  pose proof (batch_count_bounds (length all)) as [Hhigh Hlow].
  induction m as [|m IH]; intros a Hsum; cbv zeta.
  - cbn [seq flat_map]. repeat split; try reflexivity.
    symmetry. apply skipn_all2. rewrite <- Hsum in Hlow. lia.
  - destruct (IH (S a) ltac:(lia)) as (Hcat & Hlen & Hfetch & Hpauses).
    cbn [seq flat_map].
    set (log := flat_map (accepted_batch_events token appToken tableId all)
                  (seq (S a) m)) in *.
    assert (Hlast : (S a <? batch_count (length all)) = (0 <? m)).
    { rewrite <- Hsum. destruct m as [|m'].
      - apply Nat.ltb_ge. lia.
      - apply Nat.ltb_lt. lia. }
    unfold accepted_batch_events. rewrite Hlast.
    set (request := Fetch (ApiRequest token batch_path
                      (BodyRecords (firstn batchSize
                                      (skipn (a * batchSize) all))))).
    set (pause := if 0 <? m then [Sleep 500] else []).
    assert (Hp : submitted_batches pause = [])
      by (subst pause; destruct (0 <? m); reflexivity).
    assert (Hf : fetch_count (request :: pause) = 1)
      by (subst request pause; destruct (0 <? m); reflexivity).
    split; [|split; [|split]].
    + change (request :: pause) with ([request] ++ pause).
      rewrite !submitted_batches_app, Hp. subst request.
      unfold submitted_batches at 1.
      cbn [flat_map]. rewrite !app_nil_r, concat_app. cbn [concat].
      rewrite app_nil_r, Hcat.
      replace (S a * batchSize) with (batchSize + a * batchSize) by lia.
      rewrite <- skipn_skipn. apply firstn_skipn.
    + change (request :: pause) with ([request] ++ pause).
      rewrite !submitted_batches_app, Hp. subst request.
      unfold submitted_batches at 1.
      cbn [flat_map]. rewrite !app_nil_r, length_app, Hlen. reflexivity.
    + rewrite fetch_count_app, Hf, Hfetch. reflexivity.
    + rewrite pauses_app, Hpauses. subst request pause.
      destruct m as [|m']; [reflexivity|].
      cbn. rewrite Nat.sub_0_r. reflexivity.
Qed.

(** X13.  When the workspace accepts every record request at once, the
    log of [addSampleRecords] is exactly one request for each slice of 10
    of the synthesized records that have at least one property, in row
    order, each request but the last followed by a pause of 500 ms: there
    are [ceil(n / 10)] requests, every record is sent exactly once, a
    pause stands between two requests and none after the last.  The result
    holds the records of all the answers in order. *)
Theorem addSampleRecords_accepted_batches (fields : list Field.t) (count : Z)
    (answers : nat -> ResponseBody) (w : world) :
  let rows := rows_loop timestamp fields (seq 0 (Z.to_nat count)) [] in
  let n := batch_count (length rows) in
  let log := accepted_batches_log token appToken tableId rows in
  accepted_at_once net batch_path w n answers ->
  addSampleRecords net timestamp token appToken tableId fields count w
  = (Returned (flat_map (fun k => records_of (answers k)) (seq 0 n)),
     w ++ log)
  /\ concat (submitted_batches log) = rows
  /\ length (submitted_batches log) = n
  /\ fetch_count log = n
  /\ pauses log = repeat 500%Z (n - 1).
Proof.
  intros rows n log Hnet.
  split; [|apply (@accepted_batches_from rows n 0); reflexivity].
  unfold addSampleRecords. fold rows.
  assert (Hguard : (count <=? 0)%Z || (length fields =? 0) = true ->
                   rows = []).
  { intros Eguard. subst rows.
    apply Bool.orb_true_iff in Eguard. destruct Eguard as [Hc | Hf].
    - apply Z.leb_le in Hc. replace (Z.to_nat count) with 0 by lia.
      reflexivity.
    - apply Nat.eqb_eq in Hf. destruct fields; [|discriminate Hf].
      clear. induction (seq 0 (Z.to_nat count)) as [|i l IH];
        [reflexivity | exact IH]. }
  subst log n. clearbody rows.
  assert (Hempty : rows = [] ->
    @ret (list jsstring) [] w
    = (Returned (flat_map (fun k => records_of (answers k))
                   (seq 0 (batch_count (length rows)))),
       w ++ accepted_batches_log token appToken tableId rows)).
  { intros E. rewrite E. unfold ret, accepted_batches_log.
    change (batch_count (length (@nil RecordFields))) with 0.
    cbn [seq flat_map]. rewrite app_nil_r. reflexivity. }
  destruct ((count <=? 0)%Z || (length fields =? 0)).
  - apply Hempty, Hguard. reflexivity.
  - destruct rows as [|r0 rest]; [apply Hempty; reflexivity|].
    apply (@batch_loop_accepted (r0 :: rest) answers
             (batch_count (length (r0 :: rest))) 0 w []);
      [reflexivity | exact Hnet].
Qed.

End SampleBatches.

Lemma addSampleRecords_accepted_batches_witness :
  addSampleRecords Sample2.accepting_network Sample.noon #"t-1" #"app1"
    (Some #"tbl1") [Field.mk #"Paid" #"checkbox" None] 12 []
  = (Returned [#"rec1"; #"rec1"],
     [] ++ accepted_batches_log #"t-1" #"app1" (Some #"tbl1")
             (rows_loop Sample.noon [Field.mk #"Paid" #"checkbox" None]
                (seq 0 12) []))
  /\ map is_fetch
       (accepted_batches_log #"t-1" #"app1" (Some #"tbl1")
          (rows_loop Sample.noon [Field.mk #"Paid" #"checkbox" None]
             (seq 0 12) []))
     = [true; false; true].
Proof.
  split; [|vm_compute; reflexivity].
  apply (@addSampleRecords_accepted_batches Sample2.accepting_network
           Sample.noon #"t-1" #"app1" (Some #"tbl1")
           [Field.mk #"Paid" #"checkbox" None] 12
           (fun _ => Sample2.records_created) []).
  intros k Hk. reflexivity.
Defined.

(* ===================================================================== *)
(** * The order of the requests of the handler *)
(* ===================================================================== *)

Section HandlerRuns.

Variable net : nat -> FetchResult.
Variable JSON_parse : jsstring -> option Parsed.
Variable timestamp : nat -> nat -> Z.

Lemma emits_tables_loop (token appToken : jsstring) (tables : list Table.t) :
  forall results,
    emits (table_request token appToken)
      (tables_loop net timestamp token appToken tables results).
Proof.
  induction tables as [|table rest IH]; intros results; simpl;
    [apply emits_ret|].
  apply emits_bind; [|intros r; apply IH].
  apply emits_provision_table.
  - intros ms. left. apply is_sleep_intro.
  - right. eexists. left. reflexivity.
  - intros id name ty prop. right. eexists. right. left. eexists. reflexivity.
  - intros id e [Hs | (k & _ & ->)]; [left; exact Hs|].
    right. eexists. right. right. eexists. reflexivity.
Qed.

Lemma getTenantAccessToken_log (env : Env) (w : world) :
  (snd (getTenantAccessToken net env w) = w
   /\ exists e, fst (getTenantAccessToken net env w) = Thrown e)
  \/ exists app_id app_secret,
       LARK_APP_ID env = Some app_id
       /\ LARK_APP_SECRET env = Some app_secret
       /\ snd (getTenantAccessToken net env w)
          = w ++ [Fetch (TokenRequest app_id app_secret)].
Proof.
  unfold getTenantAccessToken.
  destruct (LARK_APP_ID env) as [[|c1 id]|];
    try (left; split; [reflexivity | eexists; reflexivity]).
  destruct (LARK_APP_SECRET env) as [[|c2 sec]|];
    try (left; split; [reflexivity | eexists; reflexivity]).
  right. exists (c1 :: id), (c2 :: sec). repeat split.
  unfold bind, fetch, response_json.
  destruct (net (fetch_count w)) as [reason | r]; [reflexivity|].
  destruct (negb (Response.ok r)); [reflexivity|].
  destruct (Response.json r) as [d|]; [|reflexivity].
  unfold ret at 1. destruct (negb (code d =? 0)%Z); reflexivity.
Qed.

(** X14.  Whatever the request, the environment and the answers of the
    network, [handleApiPost] sends its requests in this order: first only
    requests to the AI endpoint (with the pauses of the generator); then at
    most one token request, carrying the two credentials of the
    environment; then only attempts to create the base; then only requests
    for tables, fields and records of one base.  All requests after the
    token request carry one and the same token, and without a token request
    no workspace request is sent. *)
Theorem handleApiPost_request_order (prompt : option jsstring) (env : Env)
    (w : world) :
  exists log,
    snd (handleApiPost net JSON_parse timestamp prompt env w) = w ++ log
    /\ handler_phases env log.
Proof.
  assert (Hnone : forall gen, Forall generator_event gen ->
                              handler_phases env gen).
  { intros gen Hgen. exists gen, [], [], []. rewrite !app_nil_r.
    split; [reflexivity|]. split; [exact Hgen|]. left. auto. }
  assert (Hstop : forall r : outcome Reply * world,
            snd r = w -> exists log, snd r = w ++ log /\ handler_phases env log).
  { intros r ->. exists []. rewrite app_nil_r. split; [reflexivity|].
    apply Hnone. constructor. }
  unfold handleApiPost, try_catch.
  destruct prompt as [[|c p]|]; try (apply Hstop; reflexivity).
  destruct (length (trim (c :: p)) =? 0); [apply Hstop; reflexivity|].
  destruct (2000 <? length (c :: p)); [apply Hstop; reflexivity|].
  unfold bind at 1.
  destruct (@generateSchemaFromAI_sound net JSON_parse (c :: p)
              (GEMINI_API_KEY env) w) as [(gen & Hw1 & Hgen) _].
  destruct (generateSchemaFromAI net JSON_parse (c :: p) (GEMINI_API_KEY env) w)
    as [[s | e] w1]; simpl in Hw1; subst w1;
    [|exists gen; split; [reflexivity | apply Hnone; exact Hgen]].
  destruct (JsString.eqb (Schema.baseName s) []
            || (length (Schema.tables s) =? 0));
    [exists gen; split; [reflexivity | apply Hnone; exact Hgen]|].
  destruct (10 <? length (Schema.tables s));
    [exists gen; split; [reflexivity | apply Hnone; exact Hgen]|].
  unfold bind at 1.
  destruct (getTenantAccessToken_log env (w ++ gen))
    as [[Hw2 (e & He)] | (app_id & app_secret & Hid & Hsecret & Hw2)].
  { destruct (getTenantAccessToken net env (w ++ gen)) as [o w2].
    simpl in Hw2, He. subst w2 o.
    exists gen. split; [reflexivity | apply Hnone; exact Hgen]. }
  assert (Hphases : forall token baseName appToken base tables,
            Forall (base_request token baseName) base ->
            Forall (table_request token appToken) tables ->
            handler_phases env
              (gen ++ [Fetch (TokenRequest app_id app_secret)]
                   ++ base ++ tables)).
  { intros token baseName appToken base tables Hbase Htables.
    exists gen, [Fetch (TokenRequest app_id app_secret)], base, tables.
    split; [reflexivity|]. split; [exact Hgen|]. right.
    exists app_id, app_secret, token, baseName, appToken. auto. }
  destruct (getTenantAccessToken net env (w ++ gen)) as [[token | e] w2];
    simpl in Hw2; subst w2.
  2:{ exists (gen ++ [Fetch (TokenRequest app_id app_secret)]).
      split; [rewrite app_assoc; reflexivity|].
      rewrite <- (app_nil_r [Fetch (TokenRequest app_id app_secret)]).
      apply (Hphases [] [] [] [] []); constructor. }
  unfold bind at 1.
  assert (Hbase : emits (base_request token (Schema.baseName s))
                    (createBaseApp net token (Schema.baseName s))).
  { unfold createBaseApp. apply emits_apiCall.
    - right. reflexivity.
    - intros ms. left. apply is_sleep_intro. }
  destruct (Hbase ((w ++ gen) ++ [Fetch (TokenRequest app_id app_secret)]))
    as (base & Hw3 & Hbase').
  assert (Hdone : forall r : outcome Reply * world,
            snd r = ((w ++ gen) ++ [Fetch (TokenRequest app_id app_secret)])
                    ++ base ->
            exists log, snd r = w ++ log /\ handler_phases env log).
  { intros r ->.
    exists (gen ++ [Fetch (TokenRequest app_id app_secret)] ++ base ++ []).
    split; [rewrite app_nil_r, <- !app_assoc; reflexivity|].
    apply (Hphases token (Schema.baseName s) [] base []);
      [exact Hbase' | constructor]. }
  destruct (createBaseApp net token (Schema.baseName s)
              ((w ++ gen) ++ [Fetch (TokenRequest app_id app_secret)]))
    as [[res | e] w3]; simpl in Hw3; subst w3;
    [|apply Hdone; reflexivity].
  unfold bind at 1, data_of.
  destruct res as [r|]; [|apply Hdone; reflexivity].
  destruct (data r) as [d|]; [|apply Hdone; reflexivity].
  unfold ret at 1.
  destruct (app d) as [a|]; [|apply Hdone; reflexivity].
  unfold bind at 1.
  destruct (@emits_tables_loop token (app_token a) (Schema.tables s) []
              (((w ++ gen) ++ [Fetch (TokenRequest app_id app_secret)])
               ++ base))
    as (tables & Hw4 & Htables).
  exists (gen ++ [Fetch (TokenRequest app_id app_secret)] ++ base ++ tables).
  split; [|apply (Hphases token (Schema.baseName s) (app_token a));
           assumption].
  destruct (tables_loop net timestamp token (app_token a) (Schema.tables s) []
              (((w ++ gen) ++ [Fetch (TokenRequest app_id app_secret)])
               ++ base)) as [[rs | e] w4];
    simpl in Hw4; subst w4; simpl; rewrite <- !app_assoc; reflexivity.
Qed.

End HandlerRuns.

Lemma provision_table_without_mapped_fields_witness :
  provision_table
    (Sample.scripted [Responded (Response.mk 200 #"OK" [] (Some Sample2.table_created))])
    Sample.noon #"t-1" #"app1"
    (Table.mk #"Customers"
       [Field.mk #"Total" #"formula" None; Field.mk #"Owner" #"lookup" None] 5)
    []
  = (Returned (mkResult #"Customers" STATUS_SUCCESS (Some #"tbl1") (Some 0)
                 (Some 0) None),
     [Fetch Sample2.create_table_request] ++ [Sleep 500]).
Proof.
  apply (@provision_table_without_mapped_fields
           (Sample.scripted
              [Responded (Response.mk 200 #"OK" [] (Some Sample2.table_created))])
           Sample.noon #"t-1" #"app1"
           (Table.mk #"Customers"
              [Field.mk #"Total" #"formula" None;
               Field.mk #"Owner" #"lookup" None] 5)
           [] [Fetch Sample2.create_table_request] (Some #"tbl1")).
  - vm_compute. reflexivity.
  - intros field [<- | [<- | []]]; reflexivity.
Defined.

(* ===================================================================== *)
(** * Properties of the endpoint [functions/api/create-lark-base.js] *)
(* ===================================================================== *)

Lemma legacy_fetch_count_app (w evs : Legacy.world) :
  Legacy.fetch_count (w ++ evs) = Legacy.fetch_count w + Legacy.fetch_count evs.
Proof.
  unfold Legacy.fetch_count. rewrite filter_app, length_app. reflexivity.
Qed.

Lemma legacy_fetch_count_fetch (w : Legacy.world) (r : Legacy.Request) :
  Legacy.fetch_count (w ++ [Legacy.Fetch r]) = S (Legacy.fetch_count w).
Proof.
  rewrite legacy_fetch_count_app.
  change (Legacy.fetch_count [Legacy.Fetch r]) with 1. lia.
Qed.

Lemma legacy_fetch_count_sleep (w : Legacy.world) (ms : Z) :
  Legacy.fetch_count (w ++ [Legacy.Sleep ms]) = Legacy.fetch_count w.
Proof.
  rewrite legacy_fetch_count_app.
  change (Legacy.fetch_count [Legacy.Sleep ms]) with 0. lia.
Qed.

(** ** The mapper and the synthesizer of the endpoint *)

Lemma split_length (s : jsstring) :
  length (split 44 s) = S (Legacy.commas s).
Proof.
  unfold Legacy.commas. induction s as [|c s IH]; [reflexivity|].
  cbn [split filter]. rewrite N.eqb_sym.
  destruct (N.eqb 44 c).
  - cbn [length]. rewrite IH. reflexivity.
  - destruct (split 44 s) as [|h t]; [discriminate IH | exact IH].
Qed.

Lemma filter_nil_all {A} (f : A -> bool) (l : list A) :
  filter f l = [] -> forall x, In x l -> f x = false.
Proof.
  induction l as [|y l IH]; intros H x Hx; [destruct Hx|].
  simpl in H. destruct (f y) eqn:E; [discriminate H|].
  destruct Hx as [<- | Hx]; [exact E | apply IH; assumption].
Qed.

(** X18.  For a choice field ([single_select] or [multi_select] in any
    letter case) the mapper of this endpoint creates one option for each
    comma-separated piece of the option string, empty names included: the
    option list is never empty, the declared options (the non-empty
    trimmed pieces) are what is left of it when the empty names are
    removed, and a field without declared options is created with options
    that all have the empty name. *)
Theorem legacy_select_options_keep_empty_names (type_name : jsstring)
    (options : JsObject) :
  select_type type_name ->
  exists p opts,
    Legacy.getFieldProperty type_name options = Own p
    /\ property p = Some (PropOptions opts)
    /\ length opts = S (Legacy.commas (Legacy.option_string options))
    /\ filter (fun o => negb (JsString.eqb o [])) opts
       = declared_options options
    /\ (declared_options options = [] -> forall o, In o opts -> o = []).
Proof.
  intros Hsel.
  assert (Hopts :
    length (Legacy.getOptions options)
      = S (Legacy.commas (Legacy.option_string options))
    /\ filter (fun o => negb (JsString.eqb o [])) (Legacy.getOptions options)
       = declared_options options
    /\ (declared_options options = [] ->
        forall o, In o (Legacy.getOptions options) -> o = [])).
  { split; [|split].
    - unfold Legacy.getOptions. rewrite length_map. apply split_length.
    - reflexivity.
    - intros Hnil o Ho.
      pose proof (@filter_nil_all _ _ (Legacy.getOptions options) Hnil o Ho)
        as H.
      destruct o; [reflexivity | discriminate H]. }
  unfold Legacy.getFieldProperty.
  destruct Hsel as [H | H]; rewrite H.
  - exists (mkPayload 3 (Some (PropOptions (Legacy.getOptions options)))),
      (Legacy.getOptions options).
    split; [reflexivity|]. split; [reflexivity | exact Hopts].
  - exists (mkPayload 4 (Some (PropOptions (Legacy.getOptions options)))),
      (Legacy.getOptions options).
    split; [reflexivity|]. split; [reflexivity | exact Hopts].
Qed.

Lemma legacy_select_options_witness :
  exists p opts,
    Legacy.getFieldProperty #"Multi_Select" [(OPTION_KEY, #"A,,B")] = Own p
    /\ property p = Some (PropOptions opts)
    /\ length opts
       = S (Legacy.commas (Legacy.option_string [(OPTION_KEY, #"A,,B")]))
    /\ filter (fun o => negb (JsString.eqb o [])) opts
       = declared_options [(OPTION_KEY, #"A,,B")]
    /\ (declared_options [(OPTION_KEY, #"A,,B")] = [] ->
        forall o, In o opts -> o = []).
Proof.
  apply (@legacy_select_options_keep_empty_names #"Multi_Select"
           [(OPTION_KEY, #"A,,B")]).
  right. reflexivity.
Defined.

Lemma legacy_eqb_label_In (t label : jsstring) :
  JsString.eqb t label = true ->
  In label Legacy.sample_types -> In t Legacy.sample_types.
Proof. intros E H. apply jsstring_eqb_eq in E. subst. exact H. Qed.

Lemma legacy_generateDummyData_null_iff (type_name : jsstring)
    (options : JsObject) (index : nat) (now : Z) :
  Legacy.generateDummyData type_name options index now = None
  <-> ~ In (toLowerCase type_name) Legacy.sample_types
      \/ (toLowerCase type_name = #"single_select"
          /\ hd [] (split 44 (Legacy.option_string options)) = []).
Proof.
  unfold Legacy.generateDummyData. cbv zeta.
  fold (Legacy.option_string options).
  set (t := toLowerCase type_name).
  set (selectOptions := split 44 (Legacy.option_string options)).
  assert (Hlabel : forall label,
            In label Legacy.sample_types -> label <> #"single_select" ->
            JsString.eqb t label = true ->
            ~ (~ In t Legacy.sample_types
               \/ t = #"single_select" /\ hd [] selectOptions = [])).
  { intros label Hin Hne E. apply jsstring_eqb_eq in E. subst label.
    intros [Hn | [Hs _]]; [apply Hn; exact Hin | contradiction]. }
  repeat case_label;
    try (split; [discriminate |];
         intros Hn; exfalso; revert Hn;
         eapply Hlabel; [| |eassumption]; [simpl; auto 20 | discriminate]).
  - apply jsstring_eqb_eq in E4.
    destruct selectOptions as [|[|c first] rest]; simpl.
    + split; [auto | reflexivity].
    + split; [auto | reflexivity].
    + split; [discriminate|].
      intros [Hn | [_ Hhd]]; [|discriminate Hhd].
      exfalso. apply Hn. rewrite E4. simpl. auto 20.
  - split; [|reflexivity]. intros _. left. intros Hin. simpl in Hin.
    repeat (destruct Hin as [Hin | Hin];
            [rewrite <- Hin in *;
             repeat match goal with
                    | H : JsString.eqb ?a ?a = false |- _ =>
                        rewrite jsstring_eqb_refl in H; discriminate H
                    end
            | ]).
    exact Hin.
Qed.

(** X19.  The synthesizer of this endpoint returns [null] exactly when the
    lower-cased type name is none of its eleven [case] labels, or is
    [single_select] and the option string is absent, empty or begins with a
    comma.  [multi_select] and [member] are not among the labels: the
    mapper creates such fields and the synthesizer never gives them a
    value. *)
Theorem legacy_generateDummyData_null_cases (type_name : jsstring)
    (options : JsObject) (index : nat) (now : Z) :
  (Legacy.generateDummyData type_name options index now = None
   <-> ~ In (toLowerCase type_name) Legacy.sample_types
       \/ (toLowerCase type_name = #"single_select"
           /\ hd [] (split 44 (Legacy.option_string options)) = []))
  /\ (toLowerCase type_name = #"multi_select"
      \/ toLowerCase type_name = #"member" ->
      Legacy.generateDummyData type_name options index now = None
      /\ exists p, Legacy.getFieldProperty type_name options = Own p).
Proof.
  split; [apply legacy_generateDummyData_null_iff|].
  intros Hsel. split.
  - apply legacy_generateDummyData_null_iff. left. intros Hin.
    destruct Hsel as [H | H]; rewrite H in Hin; simpl in Hin;
      repeat (destruct Hin as [Hin | Hin]; [discriminate Hin|]);
      exact Hin.
  - unfold Legacy.getFieldProperty.
    destruct Hsel as [H | H]; rewrite H; eexists; reflexivity.
Qed.

Lemma legacy_generateDummyData_null_witness :
  Legacy.generateDummyData #"multi_select" [(OPTION_KEY, #"A,B")] 0 0 = None
  /\ exists p,
       Legacy.getFieldProperty #"multi_select" [(OPTION_KEY, #"A,B")] = Own p.
Proof.
  apply (proj2 (@legacy_generateDummyData_null_cases #"multi_select"
                  [(OPTION_KEY, #"A,B")] 0 0%Z)).
  left. reflexivity.
Defined.

Lemma legacy_bind_unfold {A B} (m : Legacy.M A) (k : A -> Legacy.M B)
    (w : Legacy.world) :
  Legacy.bind m k w
  = match m w with
    | (Legacy.Returned a, w') => k a w'
    | (Legacy.Thrown e, w') => (Legacy.Thrown e, w')
    end.
Proof. reflexivity. Qed.

Section LegacyRuns.

Variable net : nat -> FetchResult.
Variable JSON_parse : jsstring -> option Legacy.Parsed.
Variable timestamp : nat -> nat -> Z.

(** X16.  The [apiCall] of this endpoint sends exactly one request and
    never retries or pauses, whatever the answer (an HTTP 429 included).
    It does not look at the HTTP status: it returns the JSON body exactly
    when that body has [code] 0, and throws otherwise. *)
Theorem legacy_apiCall_single_request (token : jsstring) (path : ApiPath)
    (body : RequestBody) (w : Legacy.world) :
  snd (Legacy.apiCall net token path body w)
    = w ++ [Legacy.Fetch (Legacy.ApiRequest token path body)]
  /\ (forall d,
        fst (Legacy.apiCall net token path body w) = Legacy.Returned d
        <-> Legacy.accepted (net (Legacy.fetch_count w)) d)
  /\ (forall r d,
        net (Legacy.fetch_count w) = Responded r ->
        Response.json r = Some d ->
        code d <> 0%Z ->
        fst (Legacy.apiCall net token path body w)
          = Legacy.Thrown (Legacy.LarkApiError (msg d) (code d) path)).
Proof.
  unfold Legacy.apiCall, Legacy.bind, Legacy.fetch, Legacy.response_json,
    Legacy.accepted, Legacy.ret, Legacy.throw.
  destruct (net (Legacy.fetch_count w)) as [reason | r].
  - split; [reflexivity|]. split.
    + intros d. simpl. split; [discriminate|].
      intros (r & H & _). discriminate H.
    + intros r d H. discriminate H.
  - destruct (Response.json r) as [d|] eqn:Hjson.
    + destruct (code d =? 0)%Z eqn:Hcode; simpl.
      * split; [reflexivity|]. apply Z.eqb_eq in Hcode. split.
        -- intros d'. split.
           ++ intros H. injection H as <-. exists r. auto.
           ++ intros (r' & Hr & Hj & _). injection Hr as <-.
              rewrite Hjson in Hj. injection Hj as <-. reflexivity.
        -- intros r' d' Hr Hj Hc. injection Hr as <-.
           rewrite Hjson in Hj. injection Hj as <-. contradiction.
      * split; [reflexivity|]. apply Z.eqb_neq in Hcode. split.
        -- intros d'. split; [discriminate|].
           intros (r' & Hr & Hj & Hc). injection Hr as <-.
           rewrite Hjson in Hj. injection Hj as <-. contradiction.
        -- intros r' d' Hr Hj Hc. injection Hr as <-.
           rewrite Hjson in Hj. injection Hj as <-. reflexivity.
    + split; [reflexivity|]. split.
      * intros d. simpl. split; [discriminate|].
        intros (r' & Hr & Hj & _). injection Hr as <-.
        rewrite Hjson in Hj. discriminate Hj.
      * intros r' d' Hr Hj. injection Hr as <-.
        rewrite Hjson in Hj. discriminate Hj.
Qed.

Lemma stops_ret {A} (a : A) : Legacy.stops_at_refusal net (Legacy.ret a).
Proof.
  intros w. unfold Legacy.ret, Legacy.all_accepted. simpl.
  split; [lia|]. split; intros; lia.
Qed.

Lemma stops_throw {A} (e : Legacy.Error) :
  Legacy.stops_at_refusal net (@Legacy.throw A e).
Proof.
  intros w. unfold Legacy.throw, Legacy.all_accepted. simpl.
  split; [lia|]. split; intros; lia.
Qed.

Lemma stops_sleep (ms : Z) : Legacy.stops_at_refusal net (Legacy.sleep ms).
Proof.
  intros w. unfold Legacy.sleep, Legacy.all_accepted. simpl.
  rewrite legacy_fetch_count_sleep.
  split; [lia|]. split; intros; lia.
Qed.

Lemma stops_bind {A B} (m : Legacy.M A) (k : A -> Legacy.M B) :
  Legacy.stops_at_refusal net m ->
  (forall a, Legacy.stops_at_refusal net (k a)) ->
  Legacy.stops_at_refusal net (Legacy.bind m k).
Proof.
  intros Hm Hk w. unfold Legacy.bind.
  destruct (Hm w) as (Hle & Hinit & Hall).
  destruct (m w) as [[a | e] w1]; simpl in *.
  - destruct (Hk a w1) as (Hle' & Hinit' & Hall').
    specialize (Hall (ex_intro _ a eq_refl)).
    unfold Legacy.all_accepted in *.
    split; [lia|]. split.
    + intros j Hj1 Hj2.
      destruct (Nat.lt_ge_cases j (Legacy.fetch_count w1));
        [apply Hall | apply Hinit']; lia.
    + intros Hret j Hj1 Hj2.
      destruct (Nat.lt_ge_cases j (Legacy.fetch_count w1));
        [apply Hall | apply (Hall' Hret)]; lia.
  - split; [exact Hle|]. split; [exact Hinit|].
    intros (a & Ha). discriminate Ha.
Qed.

(** A request whose answer is read as [apiCall] and [getTenantAccessToken]
    read it. *)
Lemma stops_checked_fetch {A} (r : Legacy.Request)
    (k : ResponseBody -> Legacy.M A) :
  (forall d w, code d = 0%Z -> k d w = (fst (k d w), w)) ->
  (forall d w, code d <> 0%Z -> exists e, k d w = (Legacy.Thrown e, w)) ->
  Legacy.stops_at_refusal net
    (Legacy.bind (Legacy.fetch net r)
       (fun response => Legacy.bind (Legacy.response_json response) k)).
Proof.
  intros Hzero Hother w.
  unfold Legacy.bind, Legacy.fetch, Legacy.response_json, Legacy.ret,
    Legacy.throw, Legacy.all_accepted.
  destruct (net (Legacy.fetch_count w)) as [reason | resp] eqn:Hnet.
  - simpl. rewrite legacy_fetch_count_fetch.
    split; [lia|]. split; [intros; lia|].
    intros (a & Ha). discriminate Ha.
  - destruct (Response.json resp) as [d|] eqn:Hjson.
    + destruct (Z.eq_dec (code d) 0) as [Hc | Hc].
      * rewrite (Hzero d _ Hc). simpl. rewrite legacy_fetch_count_fetch.
        split; [lia|]. split; [intros; lia|].
        intros _ j Hj1 Hj2. assert (j = Legacy.fetch_count w) as -> by lia.
        exists d, resp. auto.
      * destruct (Hother d (w ++ [Legacy.Fetch r]) Hc) as (e & He).
        rewrite He. simpl. rewrite legacy_fetch_count_fetch.
        split; [lia|]. split; [intros; lia|].
        intros (a & Ha). discriminate Ha.
    + simpl. rewrite legacy_fetch_count_fetch.
      split; [lia|]. split; [intros; lia|].
      intros (a & Ha). discriminate Ha.
Qed.

Lemma stops_apiCall (token : jsstring) (path : ApiPath) (body : RequestBody) :
  Legacy.stops_at_refusal net (Legacy.apiCall net token path body).
Proof.
  unfold Legacy.apiCall. apply stops_checked_fetch.
  - intros d w Hc. apply Z.eqb_eq in Hc. rewrite Hc. reflexivity.
  - intros d w Hc. apply Z.eqb_neq in Hc. rewrite Hc. eexists. reflexivity.
Qed.

Lemma stops_getTenantAccessToken (env : Env) :
  Legacy.stops_at_refusal net (Legacy.getTenantAccessToken net env).
Proof.
  unfold Legacy.getTenantAccessToken. apply stops_checked_fetch.
  - intros d w Hc. apply Z.eqb_eq in Hc. rewrite Hc. reflexivity.
  - intros d w Hc. apply Z.eqb_neq in Hc. rewrite Hc. eexists. reflexivity.
Qed.

Lemma stops_data_of (res : ResponseBody) :
  Legacy.stops_at_refusal net (Legacy.data_of res).
Proof.
  unfold Legacy.data_of. destruct (data res);
    [apply stops_ret | apply stops_throw].
Qed.

Lemma stops_fields_loop (token appToken : jsstring) (tableId : option jsstring)
    (fields : list Field.t) :
  Legacy.stops_at_refusal net
    (Legacy.fields_loop net token appToken tableId fields).
Proof.
  induction fields as [|field rest IH]; simpl; [apply stops_ret|].
  destruct (Legacy.getFieldProperty (Field.type field) (options_or_empty field));
    [exact IH | |];
    (apply stops_bind; [apply stops_apiCall|]; intros _;
     apply stops_bind; [apply stops_sleep|]; intros _; exact IH).
Qed.

Lemma stops_addSampleRecords (token appToken : jsstring)
    (tableId : option jsstring) (fields : list Field.t) (count : Z) :
  Legacy.stops_at_refusal net
    (Legacy.addSampleRecords net timestamp token appToken tableId fields count).
Proof.
  unfold Legacy.addSampleRecords.
  destruct (Legacy.rows_loop timestamp fields (seq 0 (Z.to_nat count)) []);
    [apply stops_ret|].
  apply stops_bind; [apply stops_apiCall | intros res; apply stops_ret].
Qed.

Lemma stops_provision_table (token appToken : jsstring) (table : Table.t) :
  Legacy.stops_at_refusal net
    (Legacy.provision_table net timestamp token appToken table).
Proof.
  unfold Legacy.provision_table.
  apply stops_bind; [apply stops_apiCall|]. intros res.
  apply stops_bind; [apply stops_data_of|]. intros d.
  apply stops_bind; [apply stops_sleep|]. intros _.
  apply stops_bind; [apply stops_fields_loop|]. intros _.
  apply stops_bind; [|intros n; apply stops_ret].
  destruct (0 <? Table.sampleDataCount table)%Z; [|apply stops_ret].
  apply stops_bind; [apply stops_addSampleRecords | intros r; apply stops_ret].
Qed.

Lemma stops_tables_loop (token appToken : jsstring) (tables : list Table.t) :
  forall results,
    Legacy.stops_at_refusal net
      (Legacy.tables_loop net timestamp token appToken tables results).
Proof.
  induction tables as [|table rest IH]; intros results; simpl;
    [apply stops_ret|].
  apply stops_bind; [apply stops_provision_table | intros r; apply IH].
Qed.

(** The AI endpoint is asked at most once. *)
Lemma legacy_generateSchemaFromAI_requests (userPrompt : jsstring)
    (apiKey : option jsstring) (w : Legacy.world) :
  Legacy.fetch_count w
  <= Legacy.fetch_count
       (snd (Legacy.generateSchemaFromAI net JSON_parse userPrompt apiKey w))
  <= S (Legacy.fetch_count w).
Proof.
  unfold Legacy.generateSchemaFromAI.
  destruct apiKey as [[|c key]|]; try (simpl; lia).
  unfold Legacy.bind, Legacy.fetch, Legacy.response_json, Legacy.ret,
    Legacy.throw.
  destruct (net (Legacy.fetch_count w)) as [reason | r];
    [simpl; rewrite legacy_fetch_count_fetch; lia|].
  destruct (Response.json r) as [d|];
    [|simpl; rewrite legacy_fetch_count_fetch; lia].
  destruct (Response.ok r); [|simpl; rewrite legacy_fetch_count_fetch; lia].
  destruct (candidate_text d) as [[|c' text]|];
    try (simpl; rewrite legacy_fetch_count_fetch; lia).
  destruct (JSON_parse (c' :: text));
    simpl; rewrite legacy_fetch_count_fetch; lia.
Qed.

(** X17.  The handler of this endpoint has no retry and no inner [try]: it
    sends its requests one after the other and stops at the first
    workspace request (token, base, table, field or records) whose answer
    is not a JSON body with [code] 0.  So every workspace request of a run
    except the last one was accepted, and in a run that ends with a 200
    reply the last one was accepted too: one refused field or record
    request turns the reply for the whole base into a 500. *)
Theorem legacy_onRequestPost_stops_at_first_refusal
    (prompt : option jsstring) (env : Env) (w : Legacy.world) :
  let run := Legacy.onRequestPost net JSON_parse timestamp prompt env w in
  (exists reply, fst run = Legacy.Returned reply)
  /\ Legacy.all_accepted net (S (Legacy.fetch_count w))
       (Legacy.fetch_count (snd run) - 1)
  /\ ((exists b, fst run = Legacy.Returned (Legacy.Reply200 b)) ->
      Legacy.all_accepted net (S (Legacy.fetch_count w))
        (Legacy.fetch_count (snd run))).
Proof.
  cbv zeta. unfold Legacy.onRequestPost, Legacy.try_catch.
  assert (Hnone : forall e : Legacy.Error,
    let run := (Legacy.ret (Legacy.Reply500 e)) w in
    (exists reply, fst run = Legacy.Returned reply)
    /\ Legacy.all_accepted net (S (Legacy.fetch_count w))
         (Legacy.fetch_count (snd run) - 1)
    /\ ((exists b, fst run = Legacy.Returned (Legacy.Reply200 b)) ->
        Legacy.all_accepted net (S (Legacy.fetch_count w))
          (Legacy.fetch_count (snd run)))).
  { intros e. unfold Legacy.ret. cbn [fst snd].
    split; [eexists; reflexivity|].
    unfold Legacy.all_accepted. split; [intros; lia|].
    intros (b & Hb). discriminate Hb. }
  destruct prompt as [[|c p]|]; try apply Hnone.
  rewrite legacy_bind_unfold.
  pose proof (legacy_generateSchemaFromAI_requests (c :: p)
                (GEMINI_API_KEY env) w) as Hgen.
  destruct (Legacy.generateSchemaFromAI net JSON_parse (c :: p)
              (GEMINI_API_KEY env) w) as [[v | e] w1]; cbn [snd] in Hgen.
  2:{ unfold Legacy.ret. cbn [fst snd]. split; [eexists; reflexivity|].
      unfold Legacy.all_accepted. split; [intros; lia|].
      intros (b & Hb). discriminate Hb. }
  assert (Hrest : forall (m : Legacy.M Legacy.Reply),
    Legacy.stops_at_refusal net m ->
    let run := match m w1 with
               | (Legacy.Returned a, w') => (Legacy.Returned a, w')
               | (Legacy.Thrown e, w') => Legacy.ret (Legacy.Reply500 e) w'
               end in
    (exists reply, fst run = Legacy.Returned reply)
    /\ Legacy.all_accepted net (S (Legacy.fetch_count w))
         (Legacy.fetch_count (snd run) - 1)
    /\ ((exists b, fst run = Legacy.Returned (Legacy.Reply200 b)) ->
        Legacy.all_accepted net (S (Legacy.fetch_count w))
          (Legacy.fetch_count (snd run)))).
  { intros m Hm. destruct (Hm w1) as (Hle & Hinit & Hall).
    unfold Legacy.all_accepted in *.
    destruct (m w1) as [[a | e] w2]; unfold Legacy.ret; cbn [fst snd] in *.
    - split; [eexists; reflexivity|]. split.
      + intros j Hj1 Hj2. apply Hinit; lia.
      + intros _ j Hj1 Hj2. apply (Hall (ex_intro _ a eq_refl)); lia.
    - split; [eexists; reflexivity|]. split.
      + intros j Hj1 Hj2. apply Hinit; lia.
      + intros (b & Hb). discriminate Hb. }
  destruct v as [|[[|c1 baseName]|] [[|t1 tables]|]];
    try (apply (Hrest (Legacy.throw _)); apply stops_throw).
  apply (Hrest (Legacy.bind (Legacy.getTenantAccessToken net env) _)).
  apply stops_bind; [apply stops_getTenantAccessToken|]. intros token.
  apply stops_bind; [apply stops_apiCall|]. intros res.
  apply stops_bind; [apply stops_data_of|]. intros d.
  destruct (app d) as [a|]; [|apply stops_throw].
  apply stops_bind; [apply stops_tables_loop | intros rs; apply stops_ret].
Qed.

Lemma assign_nonempty (o : RecordFields) (name : jsstring) (v : JsValue) :
  assign o name v <> [].
Proof.
  destruct o as [|[k x] o]; simpl; [discriminate|].
  destruct (JsString.eqb k name); discriminate.
Qed.

Lemma legacy_record_loop_keeps (fields : list Field.t) (i : nat) :
  forall j acc, acc <> [] -> Legacy.record_loop timestamp fields i j acc <> [].
Proof.
  induction fields as [|field rest IH]; intros j acc Hacc; [exact Hacc|].
  simpl. apply IH.
  destruct (Legacy.generateDummyData _ _ _ _); [|exact Hacc].
  unfold set_property.
  destruct (JsString.eqb _ _); [exact Hacc | apply assign_nonempty].
Qed.

Lemma legacy_record_loop_nonempty (fields : list Field.t) (field : Field.t)
    (i : nat) :
  In field fields ->
  Legacy.always_valued (Field.type field) ->
  Field.name field <> #"__proto__" ->
  forall j acc, Legacy.record_loop timestamp fields i j acc <> [].
Proof.
  intros Hin [Hlabel Hsingle] Hname.
  induction fields as [|f rest IH]; intros j acc; [destruct Hin|].
  simpl. destruct Hin as [-> | Hin]; [|apply IH; exact Hin].
  apply legacy_record_loop_keeps.
  destruct (Legacy.generateDummyData (Field.type field)
              (options_or_empty field) i (timestamp i j)) eqn:E.
  - unfold set_property.
    destruct (JsString.eqb (Field.name field) #"__proto__") eqn:En;
      [apply jsstring_eqb_eq in En; contradiction | apply assign_nonempty].
  - apply legacy_generateDummyData_null_iff in E.
    destruct E as [Hn | [Hs _]]; contradiction.
Qed.

Lemma legacy_rows_loop_all (fields : list Field.t) (rows : list nat) :
  (forall i, Legacy.record_loop timestamp fields i 0 [] <> []) ->
  forall records,
    (forall r, In r records -> r <> []) ->
    length (Legacy.rows_loop timestamp fields rows records)
      = length records + length rows
    /\ forall r, In r (Legacy.rows_loop timestamp fields rows records) ->
                 r <> [].
Proof.
  intros Hrow. unfold RecordFields in *.
  induction rows as [|i rest IH]; intros records Hrec.
  - simpl. split; [apply plus_n_O | exact Hrec].
  - simpl. specialize (Hrow i).
    destruct (Legacy.record_loop timestamp fields i 0 []) as [|p r] eqn:E;
      [congruence|].
    cbv beta iota.
    destruct (IH (records ++ [p :: r])) as [Hlen Hne].
    + intros x Hx. apply in_app_or in Hx.
      destruct Hx as [Hx | [<- | []]]; [apply Hrec; exact Hx | discriminate].
    + split; [|exact Hne]. etransitivity; [exact Hlen|].
      rewrite length_app. simpl. lia.
Qed.

Lemma legacy_apiCall_log (token : jsstring) (path : ApiPath)
    (body : RequestBody) (w : Legacy.world) :
  snd (Legacy.apiCall net token path body w)
  = w ++ [Legacy.Fetch (Legacy.ApiRequest token path body)].
Proof.
  unfold Legacy.apiCall, Legacy.bind, Legacy.fetch, Legacy.response_json,
    Legacy.ret, Legacy.throw.
  destruct (net (Legacy.fetch_count w)) as [reason | r]; [reflexivity|].
  destruct (Response.json r) as [d|]; [|reflexivity].
  destruct (negb (code d =? 0)%Z); reflexivity.
Qed.

(** X20.  The [addSampleRecords] of this endpoint has no cap and no
    batches: when one of the fields has a type that always gets a value
    (any [case] label but [single_select]) and a positive number of rows is
    asked for, it sends exactly one request, which carries one record for
    every row asked for, however many. *)
Theorem legacy_addSampleRecords_one_uncapped_request
    (token appToken : jsstring) (tableId : option jsstring)
    (fields : list Field.t) (field : Field.t) (count : Z) (w : Legacy.world) :
  In field fields ->
  Legacy.always_valued (Field.type field) ->
  Field.name field <> #"__proto__" ->
  (0 < count)%Z ->
  exists rows,
    length rows = Z.to_nat count
    /\ (forall r, In r rows -> r <> [])
    /\ snd (Legacy.addSampleRecords net timestamp token appToken tableId
              fields count w)
       = w ++ [Legacy.Fetch
                 (Legacy.ApiRequest token (PathBatchCreate appToken tableId)
                    (BodyRecords rows))].
Proof.
  intros Hin Hvalued Hname Hcount.
  destruct (@legacy_rows_loop_all fields (seq 0 (Z.to_nat count))
              (fun i => @legacy_record_loop_nonempty fields field i Hin
                          Hvalued Hname 0 [])
              [] (fun r H => match H with end)) as [Hlen Hne].
  rewrite length_seq in Hlen. cbn [length Nat.add] in Hlen.
  exists (Legacy.rows_loop timestamp fields (seq 0 (Z.to_nat count)) []).
  split; [exact Hlen|]. split; [exact Hne|].
  unfold Legacy.addSampleRecords.
  destruct (Legacy.rows_loop timestamp fields (seq 0 (Z.to_nat count)) [])
    as [|r0 rest] eqn:E;
    [apply (f_equal (@length _)) in E;
     pose proof (eq_trans (eq_sym E) Hlen) as H0; cbn [length] in H0; lia|].
  rewrite legacy_bind_unfold.
  pose proof (legacy_apiCall_log token (PathBatchCreate appToken tableId)
                (BodyRecords (r0 :: rest)) w) as Hlog.
  destruct (Legacy.apiCall net token (PathBatchCreate appToken tableId)
              (BodyRecords (r0 :: rest)) w) as [[res | e] w1];
    simpl in Hlog; subst w1; reflexivity.
Qed.

End LegacyRuns.

Lemma legacy_apiCall_single_request_witness :
  fst (Legacy.apiCall
         (fun _ => Sample.http 500 #"Internal Server Error"
                     (Some Sample2.table_created))
         #"t-1" (PathTables #"app1") (BodyName #"Customers") [])
  = Legacy.Returned Sample2.table_created.
Proof.
  apply (proj1 (proj2 (@legacy_apiCall_single_request
                         (fun _ => Sample.http 500 #"Internal Server Error"
                                     (Some Sample2.table_created))
                         #"t-1" (PathTables #"app1") (BodyName #"Customers")
                         []))).
  eexists. repeat split.
Defined.

(** A run of the endpoint in which the first field of the first table is
    refused: the base and the table exist, the reply is a 500 and nothing
    is sent after the refused request. *)
Example legacy_onRequestPost_field_refused :
  Legacy.onRequestPost LegacySample.field_refused_network
    (LegacySample.parse_only Sample.crm) Sample.noon
    (Some Sample.crm_prompt) Sample.env []
  = (Legacy.Returned
       (Legacy.Reply500
          (Legacy.LarkApiError #"WrongRequestBody" 1254001
             (PathFields #"app1" (Some #"tbl1")))),
     [ Legacy.Fetch (Legacy.GeminiRequest #"key" Sample.crm_prompt);
       Legacy.Fetch (Legacy.TokenRequest (Some #"app") (Some #"secret"));
       Legacy.Fetch (Legacy.ApiRequest #"t-1" PathApps (BodyName #"CRM"));
       Legacy.Fetch (Legacy.ApiRequest #"t-1" (PathTables #"app1")
                       (BodyName #"Customers"));
       Legacy.Sleep 500;
       Legacy.Fetch (Legacy.ApiRequest #"t-1"
                       (PathFields #"app1" (Some #"tbl1"))
                       (BodyField #"Name" (Some 1%Z) None)) ]).
Proof. vm_compute. reflexivity. Qed.

Lemma legacy_addSampleRecords_one_uncapped_request_witness :
  exists rows,
    length rows = Z.to_nat 250
    /\ (forall r, In r rows -> r <> [])
    /\ snd (Legacy.addSampleRecords Sample2.accepting_network Sample.noon
              #"t-1" #"app1" (Some #"tbl1")
              [Field.mk #"Paid" #"Checkbox" None] 250 [])
       = [] ++ [Legacy.Fetch
                  (Legacy.ApiRequest #"t-1"
                     (PathBatchCreate #"app1" (Some #"tbl1"))
                     (BodyRecords rows))].
Proof.
  apply (@legacy_addSampleRecords_one_uncapped_request
           Sample2.accepting_network Sample.noon #"t-1" #"app1" (Some #"tbl1")
           [Field.mk #"Paid" #"Checkbox" None]
           (Field.mk #"Paid" #"Checkbox" None) 250 []).
  - left. reflexivity.
  - split; [simpl; auto 20 | discriminate].
  - discriminate.
  - reflexivity.
Defined.
